(** * build-spec: reference resolution and product projection

    A shallow embedding of [scripts/build-spec.ts]: the JSON values the
    script walks, [extractProduct], [resolveRefs], the loop bodies of
    [generateSpecFile], and [main] with its product listing, its endpoint
    count and its file-system calls, followed by the properties proved about
    them.

    Modelling conventions.
    - A JavaScript string is a [string] of 8-bit code units.
    - A JSON object is the list of its own enumerable properties in
      enumeration order ([Object.entries]), a finite map from names to
      values; [JSON.parse] makes an own property of every name, [__proto__]
      included.
    - Writing a property of an object that the script has made with [{}]
      is [assign]: every name creates or updates an own property, except
      [__proto__], which is the accessor that the object inherits and
      creates none.
    - Reading a property is own-property lookup ([get_prop]). This is what
      the language does whenever the object has the property itself, and
      whenever the name is none of those that the built-in prototype holds
      ([object_prototype_names] for objects). What the built-in prototypes
      hold are functions and accessors, which are no JSON values and are not
      part of the model: the properties below are stated for reads of own
      properties, or for names outside that list. The names that the script
      itself reads ([paths], [info], [tags], the five methods, ...) are all
      outside it. The conversion of a value to a string in [main] goes
      through a built-in method, see [converts].
    - The host's limit on the depth of nested calls is not part of the
      model.
    - A number is an opaque scalar: no function here looks inside one other
      than to test it against zero, and [Z] carries it.
    - [Set<string>] is the list of its members in insertion order.
    - A call that may not return is given a fuel argument that bounds the
      depth of the recursion; [None] means the fuel ran out. *)

From Stdlib Require Import ZArith NArith Ascii String List Lia.
From Stdlib Require Import DecimalString.
From stdpp Require Import base option list sorting strings gmap.

Open Scope Z_scope.
Open Scope nat_scope.

(** ** JSON values *)

#[local] Set Warnings "-register-all".

Inductive value : Type :=
| VUndefined
| VNull
| VBool (b : bool)
| VNum (n : Z)
| VStr (s : string)
| VArr (items : list value)
| VObj (props : list (string * value)).

(** JavaScript truthiness ([if (x)], [x || y], [x && y]). *)
Definition truthy (v : value) : bool :=
  match v with
  | VUndefined | VNull => false
  | VBool b => b
  | VNum n => negb (n =? 0)%Z
  | VStr s => negb (String.eqb s "")
  | VArr _ | VObj _ => true
  end.

(** ** Strings *)

(** [s.replace(pat, rep)] with a string pattern: the first occurrence of
    [pat] in [s] is replaced, anywhere in the string. *)
Fixpoint js_replace (pat rep s : string) : string :=
  if String.prefix pat s then rep +:+ String.substring (String.length pat) (String.length s) s
  else match s with
       | EmptyString => EmptyString
       | String c s' => String c (js_replace pat rep s')
       end.

(** [s.split(sep)] with a one-character separator; the result is never
    empty: splitting the empty string gives one empty segment. *)
Fixpoint js_split (sep : ascii) (s : string) : list string :=
  match s with
  | EmptyString => [EmptyString]
  | String c s' =>
      if decide (c = sep) then EmptyString :: js_split sep s'
      else match js_split sep s' with
           | [] => [String c EmptyString]
           | seg :: segs => String c seg :: segs
           end
  end.

(** [s.toLowerCase()] on 8-bit code units: A-Z and the accented capitals
    U+00C0..U+00DE (U+00D7, the multiplication sign, apart) move up by 32. *)
Definition lower_char (c : ascii) : ascii :=
  let n := N_of_ascii c in
  if ((65 <=? n) && (n <=? 90) || (192 <=? n) && (n <=? 222) && negb (n =? 215))%N
  then ascii_of_N (n + 32) else c.

Fixpoint toLowerCase (s : string) : string :=
  match s with
  | EmptyString => EmptyString
  | String c s' => String (lower_char c) (toLowerCase s')
  end.

(** ** Regular expressions, as far as [extractProduct] uses them

    A pattern is a sequence of items: one character of a class, a greedy
    [+] over a class, or a capturing group around such a [+]. A class is one
    character or the complement of one character. Matching backtracks the
    way the language's matcher does: a [+] first takes as many characters as
    it can and gives them back one at a time while the rest of the pattern
    fails. *)

Inductive char_class : Type :=
| Lit (c : ascii)    (* the character [c] *)
| Not (c : ascii).   (* [[^c]] *)

Inductive re_item : Type :=
| One (k : char_class)
| Plus (k : char_class)
| Group (k : char_class).

Definition accepts (k : char_class) (c : ascii) : bool :=
  match k with
  | Lit d => bool_decide (c = d)
  | Not d => negb (bool_decide (c = d))
  end.

(** [k+] at the start of [s], then [cont] on what was taken and what is left;
    [taken] is what this [+] has consumed so far. *)
Fixpoint plus_match {R} (k : char_class) (cont : list ascii → list ascii → option R)
    (taken s : list ascii) : option R :=
  match s with
  | c :: s' =>
      if accepts k c then
        match plus_match k cont (taken ++ [c]) s' with
        | Some r => Some r
        | None => cont (taken ++ [c]) s'
        end
      else None
  | [] => None
  end.

(** The pattern [p] at the start of [s]; the result is the text of the
    group, if the match went through one. *)
Fixpoint match_here (p : list re_item) (cap : option (list ascii)) (s : list ascii)
  : option (option (list ascii)) :=
  match p with
  | [] => Some cap
  | One k :: p' =>
      match s with
      | c :: s' => if accepts k c then match_here p' cap s' else None
      | [] => None
      end
  | Plus k :: p' => plus_match k (λ _ rest, match_here p' cap rest) [] s
  | Group k :: p' => plus_match k (λ txt rest, match_here p' (Some txt) rest) [] s
  end.

(** [s.match(p)] for a pattern without the global flag: the match that
    starts leftmost. *)
Fixpoint re_search (p : list re_item) (s : list ascii) : option (option (list ascii)) :=
  match match_here p None s with
  | Some cap => Some cap
  | None =>
      match s with
      | [] => None
      | _ :: s' => re_search p s'
      end
  end.

Definition chars (s : string) : list ascii := list_ascii_of_string s.
Definition text (l : list ascii) : string := string_of_list_ascii l.
Definition literal (s : string) : list re_item := map (λ c, One (Lit c)) (chars s).

(** [/\/accounts\/\{[^}]+\}\/([^/]+)/] and [/\/zones\/\{[^}]+\}\/([^/]+)/]. *)
Definition placeholder_pattern (root : string) : list re_item :=
  literal ("/" +:+ root +:+ "/{") ++ [Plus (Not "}"%char)] ++ literal "}/" ++ [Group (Not "/"%char)].

Definition re_accounts : list re_item := placeholder_pattern "accounts".
Definition re_zones : list re_item := placeholder_pattern "zones".

(** ** Product of a path *)

Definition extractProduct (path : string) : option string :=
  match re_search re_accounts (chars path) with
  | Some accountMatch => text <$> accountMatch
  | None =>
      match re_search re_zones (chars path) with
      | Some zoneMatch => text <$> zoneMatch
      | None => None
      end
  end.

(** ** Property access *)

Definition digit_of (c : ascii) : option N :=
  let n := N_of_ascii c in
  if ((48 <=? n) && (n <=? 57))%N then Some (n - 48)%N else None.

Fixpoint parse_digits (acc : N) (s : string) : option N :=
  match s with
  | EmptyString => Some acc
  | String c s' =>
      match digit_of c with
      | Some d => parse_digits (10 * acc + d)%N s'
      | None => None
      end
  end.

(** A property name is an index when it is the canonical decimal form of a
    number: digits only and no leading zero. *)
Definition array_index (k : string) : option N :=
  match k with
  | EmptyString => None
  | String c rest =>
      if decide (c = "0"%char)
      then (if decide (rest = EmptyString) then Some 0%N else None)
      else parse_digits 0 k
  end.

Fixpoint own_prop (props : list (string * value)) (k : string) : option value :=
  match props with
  | [] => None
  | (k', v) :: rest => if decide (k' = k) then Some v else own_prop rest k
  end.

(** The property names and the property values of an object, in order. *)
Definition keys (props : list (string * value)) : list string := props.*1.
Definition vals (props : list (string * value)) : list value := props.*2.

Definition nth_N {A} (l : list A) (i : N) : option A :=
  if (i <? N.of_nat (length l))%N then l !! N.to_nat i else None.

Definition string_chars (s : string) : list value :=
  map (λ c, VStr (String c EmptyString)) (list_ascii_of_string s).

(** [v?.[k]]: [undefined] on [null] and [undefined], otherwise the own
    property [k] of [v] ([length] and the indices for strings and arrays). *)
Definition get_prop (v : value) (k : string) : value :=
  match v with
  | VUndefined | VNull => VUndefined
  | VBool _ | VNum _ => VUndefined
  | VStr s =>
      if decide (k = "length") then VNum (Z.of_nat (String.length s))
      else match array_index k with
           | Some i => default VUndefined (nth_N (string_chars s) i)
           | None => VUndefined
           end
  | VArr items =>
      if decide (k = "length") then VNum (Z.of_nat (length items))
      else match array_index k with
           | Some i => default VUndefined (nth_N items i)
           | None => VUndefined
           end
  | VObj props => default VUndefined (own_prop props k)
  end.

(** [o[k] = v] on an object: an existing property keeps its place, a new one
    goes last. *)
Fixpoint set_prop (props : list (string * value)) (k : string) (v : value)
  : list (string * value) :=
  match props with
  | [] => [(k, v)]
  | (k', v') :: rest =>
      if decide (k' = k) then (k, v) :: rest else (k', v') :: set_prop rest k v
  end.

(** [o[k] = v] on an object that was made by [{}] and has been written to
    in this way only. The name [__proto__] is the accessor that every such
    object inherits: assigning to it sets the prototype of [o] when [v] is an
    object or [null], does nothing otherwise, and creates no property either
    way. The prototype of [o] is not part of what [Object.entries] and
    [JSON.stringify] read of it, so the assignment leaves [o] as it is
    here. Every other name creates or updates an own property. *)
Definition assign (props : list (string * value)) (k : string) (v : value)
  : list (string * value) :=
  if decide (k = "__proto__") then props else set_prop props k v.

(** The entries that a property-by-property copy keeps: all but the one
    named [__proto__]. *)
Definition written (entries : list (string * value)) : list (string * value) :=
  List.filter (λ kv, negb (bool_decide (kv.1 = "__proto__"))) entries.

(** ** The reference resolver *)

(** The [seen] set and the state-passing computations over it. *)
Definition Seen := list string.
Definition has (seen : Seen) (ref : string) : bool := bool_decide (ref ∈ seen).
Definition add (seen : Seen) (ref : string) : Seen :=
  if has seen ref then seen else seen ++ [ref].

Definition M (A : Type) : Type := Seen → option (A * Seen).
Definition ret {A} (a : A) : M A := λ seen, Some (a, seen).
Definition bind {A B} (m : M A) (f : A → M B) : M B :=
  λ seen, match m seen with
          | Some (a, seen') => f a seen'
          | None => None
          end.
Notation "x ←ˢ m ; k" := (bind m (λ x, k))
  (at level 20, m at level 100, k at level 200, right associativity, only parsing).

(** [items.map(f)], left to right. *)
Fixpoint array_map (f : value → M value) (items : list value) : M (list value) :=
  match items with
  | [] => ret []
  | item :: rest =>
      y ←ˢ f item;
      ys ←ˢ array_map f rest;
      ret (y :: ys)
  end.

(** [for (const [key, value] of entries) result[key] = f(value)]. *)
Fixpoint entries_loop (f : value → M value) (entries result : list (string * value))
  : M (list (string * value)) :=
  match entries with
  | [] => ret result
  | (key, val) :: rest =>
      y ←ˢ f val;
      entries_loop f rest (assign result key y)
  end.

(** [record.$ref] when the record has it and it is a string. *)
Definition ref_of (record : list (string * value)) : option string :=
  match own_prop record "$ref" with
  | Some (VStr ref) => Some ref
  | _ => None
  end.

Definition ref_parts (ref : string) : list string :=
  js_split "/"%char (js_replace "#/" "" ref).

(** [for (const part of parts) resolved = resolved?.[part]]. *)
Definition lookup_path (spec : value) (parts : list string) : value :=
  fold_left get_prop parts spec.

Definition circular (ref : string) : value := VObj [("$circular", VStr ref)].

Fixpoint resolveRefs (fuel : nat) (obj spec : value) : M value :=
  match fuel with
  | O => λ _, None
  | S fuel' =>
      match obj with
      | VNull | VUndefined => ret obj
      | VBool _ | VNum _ | VStr _ => ret obj
      | VArr items =>
          items' ←ˢ array_map (λ item, resolveRefs fuel' item spec) items;
          ret (VArr items')
      | VObj record =>
          match ref_of record with
          | Some ref =>
              λ seen,
                if has seen ref then Some (circular ref, seen)
                else resolveRefs fuel' (lookup_path spec (ref_parts ref)) spec (add seen ref)
          | None =>
              result ←ˢ entries_loop (λ val, resolveRefs fuel' val spec) record [];
              ret (VObj result)
          end
      end
  end.

(** The call [resolveRefs(obj, spec)] of [generateSpecFile]: the default
    argument is a fresh empty set. *)
Definition resolveRefs_fresh (fuel : nat) (obj spec : value) : option value :=
  fst <$> resolveRefs fuel obj spec [].

(** ** Measures for the resolver *)

(** Nesting depth; a scalar has height 1. *)
Fixpoint height (v : value) : nat :=
  match v with
  | VArr items =>
      S ((fix go (l : list value) : nat :=
            match l with [] => 0 | x :: l' => Nat.max (height x) (go l') end) items)
  | VObj props =>
      S ((fix go (l : list (string * value)) : nat :=
            match l with [] => 0 | (_, x) :: l' => Nat.max (height x) (go l') end) props)
  | _ => 1
  end.

(** The reference strings of the markers of a value, at any depth. *)
Fixpoint refs_of (v : value) : list string :=
  match v with
  | VArr items =>
      (fix go (l : list value) : list string :=
         match l with [] => [] | x :: l' => refs_of x ++ go l' end) items
  | VObj props =>
      match ref_of props with Some ref => [ref] | None => [] end ++
      (fix go (l : list (string * value)) : list string :=
         match l with [] => [] | (_, x) :: l' => refs_of x ++ go l' end) props
  | _ => []
  end.


(** How many of the reference strings [universe] are not in [seen] yet. *)
Definition unexpanded (universe : list string) (seen : Seen) : nat :=
  size ((list_to_set universe : gset string) ∖ list_to_set seen).

(** Fuel that is enough for [resolveRefs obj spec]: every marker that is
    expanded adds a reference string of [obj] or [spec] to [seen], and between
    two expansions the recursion descends into [obj] or into [spec]. *)
Definition fuel_bound (obj spec : value) : nat :=
  height obj + length (refs_of spec ++ refs_of obj) * height spec.

(** [resolveRefs(obj, spec)] as a total function, run with [fuel_bound]. *)
Definition resolve (obj spec : value) : value :=
  default VUndefined (resolveRefs_fresh (fuel_bound obj spec) obj spec).

(** ** The spec projector *)

(** What a statement does: it goes on with a value, or a [TypeError] is
    thrown (spreading a value that cannot be iterated, calling a method that
    the value does not have, reading a property of [null] or [undefined]). *)
Inductive completion (A : Type) : Type :=
| Normal (a : A)
| TypeError.
Arguments Normal {A} a.
Arguments TypeError {A}.

Definition cbind {A B} (m : completion A) (f : A → completion B) : completion B :=
  match m with
  | Normal a => f a
  | TypeError => TypeError
  end.
Notation "x ←ᶜ m ; k" := (cbind m (λ x, k))
  (at level 20, m at level 100, k at level 200, right associativity, only parsing).

(** [v.k] without [?.]. *)
Definition member (v : value) (k : string) : completion value :=
  match v with
  | VUndefined | VNull => TypeError
  | _ => Normal (get_prop v k)
  end.

(** [[...v]]. *)
Definition spread (v : value) : completion (list value) :=
  match v with
  | VArr items => Normal items
  | VStr s => Normal (string_chars s)
  | _ => TypeError
  end.

(** [t.toLowerCase()] on any value. *)
Definition to_lower (t : value) : completion string :=
  match t with
  | VStr s => Normal (toLowerCase s)
  | _ => TypeError
  end.

(** [tags.some(t => t.toLowerCase() === product.toLowerCase())]. *)
Fixpoint some_tag_matches (product : string) (tags : list value) : completion bool :=
  match tags with
  | [] => Normal false
  | t :: rest =>
      lower ←ᶜ to_lower t;
      if decide (lower = toLowerCase product) then Normal true
      else some_tag_matches product rest
  end.

Definition HTTP_METHODS : list string := ["get"; "post"; "put"; "patch"; "delete"].

(** The [tags] of an operation: a copy of [op.tags], with the product of the
    path put in front unless a tag equals it up to case. *)
Definition operation_tags (path : string) (op : value) : completion (list value) :=
  let product := extractProduct path in
  tags ←ᶜ (if truthy (get_prop op "tags") then spread (get_prop op "tags") else Normal []);
  match product with
  | Some p =>
      if truthy (VStr p) then
        found ←ᶜ some_tag_matches p tags;
        if found then Normal tags else Normal (VStr p :: tags)
      else Normal tags
  | None => Normal tags
  end.

(** The record stored at [paths[path][method]]; [op] is truthy here. *)
Definition operation_entry (path : string) (op spec : value) : completion value :=
  tags ←ᶜ operation_tags path op;
  Normal (VObj [("summary", get_prop op "summary");
                ("description", get_prop op "description");
                ("tags", VArr tags);
                ("parameters", resolve (get_prop op "parameters") spec);
                ("requestBody", resolve (get_prop op "requestBody") spec);
                ("responses", resolve (get_prop op "responses") spec)]).

(** [for (const method of HTTP_METHODS) ...] over the record of one path;
    [pathItem] is truthy here. *)
Fixpoint methods_loop (methods : list string) (path : string) (pathItem spec : value)
    (record : list (string * value)) : completion (list (string * value)) :=
  match methods with
  | [] => Normal record
  | method :: rest =>
      let op := get_prop pathItem method in
      if truthy op then
        entry ←ᶜ operation_entry path op spec;
        methods_loop rest path pathItem spec (set_prop record method entry)
      else methods_loop rest path pathItem spec record
  end.

(** The name of the property at index [i] of an array or a string. *)
Definition index_name (i : nat) : string := NilZero.string_of_uint (Nat.to_uint i).

(** [Object.entries(v)]. *)
Definition entries_of (v : value) : list (string * value) :=
  match v with
  | VObj props => props
  | VArr items => imap (λ i x, (index_name i, x)) items
  | VStr s => imap (λ i x, (index_name i, x)) (string_chars s)
  | _ => []
  end.

Fixpoint paths_loop (entries : list (string * value)) (spec : value)
    (paths : list (string * value)) : completion (list (string * value)) :=
  match entries with
  | [] => Normal paths
  | (path, pathItem) :: rest =>
      if truthy pathItem then
        record ←ᶜ methods_loop HTTP_METHODS path pathItem spec [];
        paths_loop rest spec (assign paths path (VObj record))
      else paths_loop rest spec paths
  end.

(** [generateSpecFile(spec)], up to the object that [JSON.stringify] is
    given. *)
Definition generateSpecFile (spec : value) : completion value :=
  paths_in ←ᶜ member spec "paths";
  paths ←ᶜ paths_loop (entries_of (if truthy paths_in then paths_in else VObj [])) spec [];
  Normal (VObj [("paths", VObj paths)]).

(** ** The product list of [main] *)

(** [keys.sort()]: ascending by code units. *)
Fixpoint insert_sorted (x : string) (l : list string) : list string :=
  match l with
  | [] => [x]
  | y :: l' => if String.leb x y then x :: l else y :: insert_sorted x l'
  end.

Definition js_sort (l : list string) : list string := foldr insert_sorted [] l.

(** [a.sort(cmp)]: the sort is stable, so an element goes in front of the
    first element that [cmp] does not put before it. *)
Fixpoint insert_by {A} (cmp : A → A → Z) (a : A) (l : list A) : list A :=
  match l with
  | [] => [a]
  | b :: l' => if (cmp a b <=? 0)%Z then a :: l else b :: insert_by cmp a l'
  end.

Definition js_sort_by {A} (cmp : A → A → Z) (l : list A) : list A :=
  foldr (insert_by cmp) [] l.

(** [Map<string, number>]: the entries in insertion order. *)
Fixpoint map_get (m : list (string * nat)) (k : string) : option nat :=
  match m with
  | [] => None
  | (k', n) :: rest => if decide (k' = k) then Some n else map_get rest k
  end.

Fixpoint map_set (m : list (string * nat)) (k : string) (n : nat) : list (string * nat) :=
  match m with
  | [] => [(k, n)]
  | (k', n') :: rest => if decide (k' = k) then (k, n) :: rest else (k', n') :: map_set rest k n
  end.

(** [if (product) products.set(product, (products.get(product) || 0) + 1)]. *)
Definition count_path (products : list (string * nat)) (path : string) : list (string * nat) :=
  match extractProduct path with
  | Some product =>
      if truthy (VStr product)
      then map_set products product (default 0 (map_get products product) + 1)
      else products
  | None => products
  end.

Definition by_count_desc (a b : string * nat) : Z := (Z.of_nat b.2 - Z.of_nat a.2)%Z.

(** The list written as [PRODUCTS], from the keys of [spec.paths]. *)
Definition product_list (keys_of_paths : list string) : list string :=
  let pathKeys := js_sort keys_of_paths in
  let products := fold_left count_path pathKeys [] in
  let sortedProducts := js_sort_by by_count_desc products in
  sortedProducts.*1.

(** [Object.keys(v)]. *)
Definition object_keys (v : value) : completion (list string) :=
  match v with
  | VUndefined | VNull => TypeError
  | _ => Normal (keys (entries_of v))
  end.

Definition main_products (spec : value) : completion (list string) :=
  paths ←ᶜ member spec "paths";
  keys_of_paths ←ᶜ object_keys paths;
  Normal (product_list keys_of_paths).

(** ** Shapes of values *)

(** Neither an array nor an object: what [resolveRefs] returns as it is
    ([null], [undefined] and every value whose [typeof] is not ['object']). *)
Definition is_scalar (v : value) : bool :=
  match v with
  | VArr _ | VObj _ => false
  | _ => true
  end.

(** Every object of the value has pairwise distinct property names, as every
    object of the language has. *)
Fixpoint wf_value (v : value) : Prop :=
  match v with
  | VArr items =>
      (fix go (l : list value) : Prop :=
         match l with [] => True | x :: l' => wf_value x ∧ go l' end) items
  | VObj props =>
      NoDup (keys props) ∧
      (fix go (l : list (string * value)) : Prop :=
         match l with [] => True | (_, x) :: l' => wf_value x ∧ go l' end) props
  | _ => True
  end.

(** No object of the value is a reference marker. *)
Definition no_marker (v : value) : Prop := refs_of v = [].

(** No object of the value has an own property named [__proto__]. *)
Fixpoint no_proto_key (v : value) : Prop :=
  match v with
  | VArr items =>
      (fix go (l : list value) : Prop :=
         match l with [] => True | x :: l' => no_proto_key x ∧ go l' end) items
  | VObj props =>
      ("__proto__" ∉ keys props) ∧
      (fix go (l : list (string * value)) : Prop :=
         match l with [] => True | (_, x) :: l' => no_proto_key x ∧ go l' end) props
  | _ => True
  end.

(** ** What the two patterns describe *)

(** The longest prefix of [s] whose characters differ from [d], and the rest. *)
Fixpoint run_of (d : ascii) (s : list ascii) : list ascii :=
  match s with
  | c :: s' => if decide (c = d) then [] else c :: run_of d s'
  | [] => []
  end.

Fixpoint after_run (d : ascii) (s : list ascii) : list ascii :=
  match s with
  | c :: s' => if decide (c = d) then s else after_run d s'
  | [] => []
  end.

Fixpoint strip_prefix (l s : list ascii) : option (list ascii) :=
  match l with
  | [] => Some s
  | c :: l' =>
      match s with
      | d :: s' => if decide (d = c) then strip_prefix l' s' else None
      | [] => None
      end
  end.

(** [path] is [pre], then [/root/{x}/seg], then [rest]: [x] is not empty and
    has no closing brace, [seg] is not empty and has no slash, and [seg]
    ends where the path ends or the next slash stands. *)
Definition occurs_at (root : string) (path pre seg : list ascii) : Prop :=
  ∃ x rest,
    path = pre ++ chars ("/" +:+ root +:+ "/{") ++ x ++ chars "}/" ++ seg ++ rest ∧
    x ≠ [] ∧ ("}"%char ∉ x) ∧ seg ≠ [] ∧ ("/"%char ∉ seg) ∧
    (∀ c rest', rest = c :: rest' → c = "/"%char).

Definition occurs (root : string) (path : list ascii) : Prop :=
  ∃ pre seg, occurs_at root path pre seg.

(** The segment of the occurrence that starts leftmost. *)
Definition first_segment (root : string) (path seg : list ascii) : Prop :=
  ∃ pre, occurs_at root path pre seg ∧
    ∀ pre' seg', occurs_at root path pre' seg' → length pre ≤ length pre'.

(** ** Typed operations *)

(** [op.tags] is the list of strings [ts], or is missing and [ts] is empty:
    what the type of an operation says. *)
Definition has_tags (op : value) (ts : list string) : Prop :=
  get_prop op "tags" = VArr (VStr <$> ts) ∨
  (truthy (get_prop op "tags") = false ∧ ts = []).

(** Equal up to case, as the tag test compares. *)
Definition same_ignoring_case (s t : string) : Prop := toLowerCase s = toLowerCase t.

#[global] Instance same_ignoring_case_dec : RelDecision same_ignoring_case :=
  λ s t, decide (toLowerCase s = toLowerCase t).

(** Equality of strings up to the case of their letters, code unit by code
    unit: a capital is one of A-Z or of the accented capitals U+00C0..U+00DE
    (the multiplication sign U+00D7 is none), and its small letter lies 32
    above it. *)
Definition capital (c : ascii) : Prop :=
  let n := N_of_ascii c in
  ((65 ≤ n)%N ∧ (n ≤ 90)%N) ∨ ((192 ≤ n)%N ∧ (n ≤ 222)%N ∧ n ≠ 215%N).

Definition small_of (a b : ascii) : Prop :=
  capital a ∧ N_of_ascii b = (N_of_ascii a + 32)%N.

Definition same_letter (a b : ascii) : Prop := a = b ∨ small_of a b ∨ small_of b a.

Fixpoint equal_up_to_case (s t : string) : Prop :=
  match s, t with
  | EmptyString, EmptyString => True
  | String a s', String b t' => same_letter a b ∧ equal_up_to_case s' t'
  | _, _ => False
  end.

(** The method holds an operation: [if (op)] lets it through. *)
Definition present (pathItem : value) (method : string) : bool :=
  truthy (get_prop pathItem method).

(** ** Counting products *)

(** How many of the paths have the product [p]. *)
Definition count_of (p : string) (paths : list string) : nat :=
  length (filter (λ path, extractProduct path = Some p) paths).

(** The position of the first path that has the product [p] (the length of
    the list when none has it). *)
Fixpoint first_seen (p : string) (paths : list string) : nat :=
  match paths with
  | [] => 0
  | path :: rest =>
      if decide (extractProduct path = Some p) then 0 else S (first_seen p rest)
  end.

(** The order of the product list: more paths first, and among products of
    as many paths the one that was met first. *)
Definition listed_before (pathKeys : list string) (p q : string) : Prop :=
  count_of q pathKeys < count_of p pathKeys ∨
  (count_of p pathKeys = count_of q pathKeys ∧
   first_seen p pathKeys < first_seen q pathKeys).

(** ** Sample documents *)

(** A points to a marker for B and B to a marker for A. *)
Definition cyclic_doc : value :=
  VObj [("a", VObj [("$ref", VStr "#/b")]); ("b", VObj [("$ref", VStr "#/a")])].

(** [a] points to a marker for [b], and [b] holds a scalar. *)
Definition chain_doc : value :=
  VObj [("a", VObj [("$ref", VStr "#/b")]); ("b", VStr "leaf")].

(** One reference target, [#/components/schemas/s]. *)
Definition small_doc : value :=
  VObj [("components", VObj [("schemas", VObj [("s", VObj [("type", VStr "string")])])])].

Definition marker_s : value := VObj [("$ref", VStr "#/components/schemas/s")].

(** A value with no marker: an object, an array, scalars, a [$ref] key
    that holds a number, and a placeholder left by an earlier run. *)
Definition sample_record : list (string * value) :=
  [("type", VStr "object");
   ("required", VArr [VStr "id"; VNull; VBool true]);
   ("$ref", VNum 7);
   ("next", circular "#/a")].

Definition resolved_sample : value := VObj sample_record.

(** What [JSON.parse] gives for [{"a": 1, "__proto__": 5, "c": 3}]: three
    own properties. *)
Definition proto_sample : value :=
  VObj [("a", VNum 1); ("__proto__", VNum 5); ("c", VNum 3)].

(** A mapping whose [$ref] holds a number, with an own property
    [__proto__]. *)
Definition untyped_proto_record : list (string * value) :=
  [("$ref", VNum 7); ("__proto__", VStr "x"); ("b", VNum 2)].

(** A mapping with an own property [__proto__] that holds a marker. *)
Definition proto_record : list (string * value) :=
  [("type", VStr "object"); ("__proto__", VObj [("$ref", VStr "#/b")]); ("title", VStr "t")].


(** A path that defines [get] and [options]. *)
Definition tokens_item : value :=
  VObj [("get", VObj [("summary", VStr "List tokens")]);
        ("options", VObj [("summary", VStr "Preflight")])].

Definition methods_doc : value := VObj [("paths", VObj [("/user/tokens", tokens_item)])].


(** Paths with the products a (3 paths), b (5 paths) and c (1 path). *)
Definition counted_paths : list string :=
  ["/accounts/{id}/a/1"; "/accounts/{id}/b/1"; "/accounts/{id}/b/2";
   "/zones/{id}/a"; "/accounts/{id}/b/3"; "/accounts/{id}/c";
   "/zones/{id}/b/4"; "/accounts/{id}/a/2"; "/zones/{id}/b/5"; "/user/tokens"].

(** The two-path document of the specification's end-to-end property. *)
Definition end_to_end_doc : value :=
  VObj [("openapi", VStr "3.0.3");
        ("info", VObj [("title", VStr "API"); ("version", VStr "4")]);
        ("paths", VObj [
           ("/zones/{zone_id}/dns_records", VObj [
              ("post", VObj [("requestBody",
                 VObj [("content", VObj [("application/json",
                   VObj [("schema", marker_s)])])])])]);
           ("/accounts/{account_id}/workers/scripts", VObj [
              ("get", VObj [("summary", VStr "List scripts")])])]);
        ("components", VObj [("schemas", VObj [("s", VObj [("type", VStr "string")])])])].

(** ** Places in a document *)

(** The reference string that names the place reached from the root of the
    document through the property names [segs]. *)
Definition pointer (segs : list string) : string := "#/" +:+ String.concat "/" segs.

(** The document holds [v] at the place [segs]: each name is an own property
    of the object reached so far. *)
Fixpoint held_at (doc : value) (segs : list string) (v : value) : Prop :=
  match segs with
  | [] => doc = v
  | seg :: rest =>
      ∃ props x, doc = VObj props ∧ own_prop props seg = Some x ∧ held_at x rest v
  end.

(** Two schemas that refer to each other. *)
Definition cyclic_components : value :=
  VObj [("components", VObj [("schemas", VObj [
     ("A", VObj [("$ref", VStr "#/components/schemas/B")]);
     ("B", VObj [("$ref", VStr "#/components/schemas/A")])])])].

(** ** Documents whose [$ref] properties are typed *)

(** Wherever an object of the value has a [$ref] property, it holds a
    string: what the schema of a reference object says. *)
Fixpoint typed_refs (v : value) : Prop :=
  match v with
  | VArr items =>
      (fix go (l : list value) : Prop :=
         match l with [] => True | x :: l' => typed_refs x ∧ go l' end) items
  | VObj props =>
      match own_prop props "$ref" with
      | Some (VStr _) | None => True
      | Some _ => False
      end ∧
      (fix go (l : list (string * value)) : Prop :=
         match l with [] => True | (_, x) :: l' => typed_refs x ∧ go l' end) props
  | _ => True
  end.

(** What one call may do to [seen]: append reference strings of [universe]
    that were not in it. *)
Definition grows_within (universe : list string) (s t : Seen) : Prop :=
  ∃ new, t = s ++ new ∧ (∀ z, z ∈ new → z ∈ universe ∧ (z ∉ s)) ∧ NoDup new.

(** [typed_sample] has a marker beside plain data; [small_doc] is its
    document. *)
Definition typed_sample : value :=
  VObj [("schema", marker_s); ("items", VArr [marker_s; VNum 1]); ("title", VStr "t")].

(** ** Occurrences of a pattern string *)

(** [pat] occurs somewhere in [s]. *)
Fixpoint contains (pat s : string) : bool :=
  String.prefix pat s ||
  match s with
  | EmptyString => false
  | String _ s' => contains pat s'
  end.

(** ** The endpoint count of [main] *)

(** [for (const method of HTTP_METHODS) if (pathItem[method]) endpointCount++]. *)
Fixpoint count_methods (pathItem : value) (methods : list string) (endpointCount : nat) : nat :=
  match methods with
  | [] => endpointCount
  | method :: rest =>
      count_methods pathItem rest
        (if truthy (get_prop pathItem method) then S endpointCount else endpointCount)
  end.

(** [for (const path of pathKeys)] over [spec.paths], which is not [null]
    here: path items that are falsy are passed over. *)
Fixpoint count_endpoints (paths : value) (pathKeys : list string) (endpointCount : nat) : nat :=
  match pathKeys with
  | [] => endpointCount
  | path :: rest =>
      let pathItem := get_prop paths path in
      if truthy pathItem
      then count_endpoints paths rest (count_methods pathItem HTTP_METHODS endpointCount)
      else count_endpoints paths rest endpointCount
  end.

(** The number printed as "Found ... endpoints". *)
Definition endpoint_count (paths : value) (keys_of_paths : list string) : nat :=
  count_endpoints paths (js_sort keys_of_paths) 0.

(** How many operations one entry of [spec.paths] holds for the five
    methods; none when the path item is falsy. *)
Definition path_operations (e : string * value) : nat :=
  if truthy e.2 then length (List.filter (present e.2) HTTP_METHODS) else 0.

(** How many operation records a written document holds: the properties of
    the records of its paths. *)
Definition operations_in (doc : value) : nat :=
  sum_list_with (λ kv, length (entries_of kv.2)) (entries_of (get_prop doc "paths")).

(** A path item that holds an operation under [get] and [post], one that
    holds only [options], one that is [null], and one under the name
    [__proto__]. *)
Definition mixed_doc : value :=
  VObj [("paths", VObj [
     ("/zones/{zone_id}/dns_records",
        VObj [("get", VObj [("summary", VStr "List")]);
              ("post", VObj [("summary", VStr "Create")])]);
     ("/preflight", VObj [("options", VObj [("summary", VStr "Preflight")])]);
     ("/gone", VNull);
     ("__proto__", VObj [("get", VObj [("summary", VStr "Hidden")])])])].

(** What is written for [mixed_doc]. *)
Definition mixed_written : value :=
  VObj [("paths", VObj [
       ("/zones/{zone_id}/dns_records",
          VObj [("get", VObj [("summary", VStr "List"); ("description", VUndefined);
                              ("tags", VArr [VStr "dns_records"]);
                              ("parameters", VUndefined); ("requestBody", VUndefined);
                              ("responses", VUndefined)]);
                ("post", VObj [("summary", VStr "Create"); ("description", VUndefined);
                               ("tags", VArr [VStr "dns_records"]);
                               ("parameters", VUndefined); ("requestBody", VUndefined);
                               ("responses", VUndefined)])]);
       ("/preflight", VObj [])])].

(** An operation on a product path whose second tag is a number. *)
Definition bad_tags_op : value := VObj [("tags", VArr [VStr "Beta"; VNum 7; VStr "x"])].

(** What [generateSpecFile] hands to [JSON.stringify] for [referring_doc]. *)
Definition referring_written : value :=
  VObj [("paths",
         VObj [("/zones/{zone_id}/dns_records",
                VObj [("get",
                       VObj [("summary", VUndefined);
                             ("description", VUndefined);
                             ("tags", VArr [VStr "dns_records"]);
                             ("parameters", VUndefined);
                             ("requestBody", VUndefined);
                             ("responses", VObj [("description", VStr "fine")])])])])].

(** ** [main] *)

(** What [fetch] and [response.json()] hand to the script: the request may
    be rejected, and so may the reading of the body as JSON ([None]). *)
Inductive fetched : Type :=
| FetchRejected
| Response (ok : bool) (status : Z) (body : option value).

(** Whether each of the three file-system calls of the script is fulfilled. *)
Record disk : Type := Disk { mkdir_ok : bool; spec_ok : bool; products_ok : bool }.

(** What is written: the JSON text of a value, or the module that exports
    the product list. *)
Inductive artifact : Type :=
| SpecJson (doc : value)
| ProductsTs (products : list string).

Inductive call : Type :=
| Mkdir (dir : string)
| WriteFile (file : string) (content : artifact).

(** What [main] rejects with. *)
Inductive thrown : Type :=
| Rejection
| FetchFailed (status : Z)
| TypeErrorThrown.

(** The file-system calls made, in order, and what was thrown, if anything. *)
Definition outcome : Type := list call * option thrown.

Definition evaluate {A} (m : completion A) (k : A → outcome) : outcome :=
  match m with
  | Normal a => k a
  | TypeError => ([], Some TypeErrorThrown)
  end.

(** [await c; k]: the call is made; what follows runs when it is fulfilled. *)
Definition await_call (c : call) (fulfilled : bool) (k : outcome) : outcome :=
  if fulfilled then (c :: k.1, k.2) else ([c], Some Rejection).

(** Whether the conversion of [v] to a string returns, as [+] with a string
    operand and the [join] of an array apply it. This is the one place where
    the script relies on a built-in method of a value. Parsed JSON holds no
    function, so an own property [toString] of an object hides the built-in
    method behind a value that cannot be called, the built-in [valueOf]
    gives back the object, and the conversion throws; an array is converted
    through its elements, [null] and [undefined] among them being skipped. *)
Fixpoint converts (v : value) : bool :=
  match v with
  | VObj props => bool_decide (own_prop props "toString" = None)
  | VArr items => forallb converts items
  | _ => true
  end.

Definition to_primitive (v : value) : completion unit :=
  if converts v then Normal () else TypeError.

(** [spec.openapi + " | " + spec.info.title + " v" + spec.info.version]: the
    string is not used afterwards, its evaluation may throw. *)
Definition version_of (spec : value) : completion unit :=
  openapi ←ᶜ member spec "openapi";
  _ ←ᶜ to_primitive openapi;
  info ←ᶜ member spec "info";
  title ←ᶜ member info "title";
  _ ←ᶜ to_primitive title;
  version ←ᶜ member info "version";
  to_primitive version.

(** [Object.keys(spec.paths)]; the [.sort()] that follows is the first step
    of [product_list] and of [endpoint_count]. *)
Definition path_keys (spec : value) : completion (list string) :=
  paths ←ᶜ member spec "paths";
  object_keys paths.

Definition OUTPUT_DIR : string := "src/data".

(** [main()]. The lines written to the console are left out. *)
Definition main (r : fetched) (d : disk) : outcome :=
  match r with
  | FetchRejected => ([], Some Rejection)
  | Response ok status body =>
      if negb ok then ([], Some (FetchFailed status))
      else match body with
           | None => ([], Some Rejection)
           | Some spec =>
               evaluate (path_keys spec) (λ keys_of_paths,
               evaluate (version_of spec) (λ _,
               await_call (Mkdir OUTPUT_DIR) (mkdir_ok d) (
               evaluate (generateSpecFile spec) (λ specJson,
               await_call (WriteFile (OUTPUT_DIR +:+ "/spec.json") (SpecJson specJson))
                          (spec_ok d) (
               await_call (WriteFile (OUTPUT_DIR +:+ "/products.ts")
                                     (ProductsTs (product_list keys_of_paths)))
                          (products_ok d) ([], None))))))
           end
  end.

(** A document that [main] accepts, and one without [info]. *)
Definition accepted_doc : value :=
  VObj [("openapi", VStr "3.0.3");
        ("info", VObj [("title", VStr "API"); ("version", VStr "4")]);
        ("paths", VObj [("/zones/{zone_id}/dns_records",
                         VObj [("get", VObj [("tags", VArr [VStr "DNS"])])])])].

Definition no_info_doc : value :=
  VObj [("openapi", VStr "3.0.3");
        ("paths", VObj [("/zones/{zone_id}/dns_records", VObj [])])].

Definition all_fulfilled : disk := Disk true true true.

(** The three resolved fields of a written operation hold no marker. *)
Definition resolved_fields (entry : value) : Prop :=
  ∀ field, field ∈ ["parameters"; "requestBody"; "responses"] →
    no_marker (get_prop entry field).

(** A typed document with one operation whose response refers to a schema. *)
Definition referring_doc : value :=
  VObj [("paths",
         VObj [("/zones/{zone_id}/dns_records",
                VObj [("get", VObj [("responses", VObj [("$ref", VStr "#/components/ok")])])])]);
        ("components", VObj [("ok", VObj [("description", VStr "fine")])])].

(** ** Names that every object inherits *)

(** The property names of the built-in prototype of objects. Reading one of
    them from an object that has no own property of that name gives what the
    prototype holds, not [undefined]. *)
Definition object_prototype_names : list string :=
  ["constructor"; "__proto__"; "hasOwnProperty"; "isPrototypeOf"; "propertyIsEnumerable";
   "toLocaleString"; "toString"; "valueOf"; "__defineGetter__"; "__defineSetter__";
   "__lookupGetter__"; "__lookupSetter__"].

(** A mapping whose [$ref] holds a number next to a property that holds a
    marker. *)
Definition untyped_record : list (string * value) :=
  [("$ref", VNum 7); ("schema", VObj [("$ref", VStr "#/b")])].

(** * Properties *)

(** ** The model on concrete inputs *)

Example replace_first_only : js_replace "#/" "" "a#/b#/c" = "ab#/c".
Proof. reflexivity. Qed.

Example split_keeps_empty_segments : js_split "/" "a//b/" = ["a"; ""; "b"; ""].
Proof. reflexivity. Qed.

Example parts_of_a_reference :
  ref_parts "#/components/schemas/s" = ["components"; "schemas"; "s"] ∧ ref_parts "" = [""].
Proof. split; reflexivity. Qed.

Example property_access :
  get_prop (VStr "abc") "1" = VStr "b" ∧
  get_prop (VStr "abc") "length" = VNum 3 ∧
  get_prop (VArr [VNull; VNum 3]) "1" = VNum 3 ∧
  get_prop (VArr [VNull; VNum 3]) "01" = VUndefined ∧
  get_prop (VNum 3) "x" = VUndefined.
Proof. repeat split; reflexivity. Qed.

Example lower_case : toLowerCase "DNS Records" = "dns records".
Proof. reflexivity. Qed.

Example pattern_order_not_position :
  extractProduct "/zones/{z}/accounts/{a}/x" = Some "x" ∧
  extractProduct "/accounts/{a}//zones/{b}/q" = Some "q" ∧
  extractProduct "/accounts/{}/x" = None ∧
  extractProduct "x/accounts/{a}{b}/accounts/{c}/d?e/f" = Some "d?e".
Proof. repeat split; reflexivity. Qed.

Example resolve_through_the_document :
  resolve (VObj [("schema", marker_s); ("also", VArr [marker_s])]) small_doc
    = VObj [("schema", VObj [("type", VStr "string")]);
            ("also", VArr [circular "#/components/schemas/s"])].
Proof. reflexivity. Qed.

Example end_to_end :
  generateSpecFile end_to_end_doc =
    Normal (VObj [("paths", VObj [
      ("/zones/{zone_id}/dns_records", VObj [
         ("post", VObj [("summary", VUndefined);
                        ("description", VUndefined);
                        ("tags", VArr [VStr "dns_records"]);
                        ("parameters", VUndefined);
                        ("requestBody",
                           VObj [("content", VObj [("application/json",
                             VObj [("schema", VObj [("type", VStr "string")])])])]);
                        ("responses", VUndefined)])]);
      ("/accounts/{account_id}/workers/scripts", VObj [
         ("get", VObj [("summary", VStr "List scripts");
                       ("description", VUndefined);
                       ("tags", VArr [VStr "workers"]);
                       ("parameters", VUndefined);
                       ("requestBody", VUndefined);
                       ("responses", VUndefined)])])])]) ∧
  main_products end_to_end_doc = Normal ["workers"; "dns_records"].
Proof. split; reflexivity. Qed.

(** ** The segments of a reference string *)

Lemma js_replace_unfold pat rep s :
  js_replace pat rep s =
    if String.prefix pat s
    then rep +:+ String.substring (String.length pat) (String.length s) s
    else match s with
         | EmptyString => EmptyString
         | String c s' => String c (js_replace pat rep s')
         end.
Proof. by destruct s. Qed.

Lemma prefix_app pat s : String.prefix pat (pat +:+ s) = true.
Proof.
  induction pat as [|c pat IH]; simpl; [by destruct s|]. by destruct (ascii_dec c c).
Qed.

Lemma substring_all s n : String.length s ≤ n → String.substring 0 n s = s.
Proof.
  revert n. induction s as [|c s IH]; intros [|n]; simpl; try done; try lia.
  intros Hn. f_equal. apply IH. lia.
Qed.

Lemma substring_app pat s n :
  String.length s ≤ n → String.substring (String.length pat) n (pat +:+ s) = s.
Proof.
  intros Hn. induction pat as [|c pat IH]; simpl; [by apply substring_all|done].
Qed.

Lemma length_append pat s : String.length (pat +:+ s) = String.length pat + String.length s.
Proof. induction pat as [|c pat IH]; simpl; [done|]. by rewrite IH. Qed.

Lemma js_replace_at_start pat rep s : js_replace pat rep (pat +:+ s) = rep +:+ s.
Proof.
  rewrite js_replace_unfold, prefix_app, substring_app; [done|].
  rewrite length_append. lia.
Qed.

Lemma js_replace_absent pat rep s : contains pat s = false → js_replace pat rep s = s.
Proof.
  induction s as [|c s IH]; simpl.
  - rewrite orb_false_r. by intros ->.
  - intros [-> Hs]%orb_false_iff. by rewrite IH.
Qed.

Lemma js_split_nonempty sep s : js_split sep s ≠ [].
Proof.
  destruct s as [|c s]; simpl; [done|]. case_decide; [done|]. by destruct (js_split sep s).
Qed.

Lemma js_split_no_sep sep s : Forall (λ seg, sep ∉ chars seg) (js_split sep s).
Proof.
  induction s as [|c s IH]; simpl.
  - repeat constructor. apply not_elem_of_nil.
  - case_decide as Hc.
    + constructor; [apply not_elem_of_nil|done].
    + destruct (js_split sep s) as [|seg segs]; [repeat constructor|].
      * simpl. rewrite not_elem_of_cons. split; [congruence|apply not_elem_of_nil].
      * apply Forall_cons in IH as [Hseg Hsegs]. constructor; [|done].
        simpl. rewrite not_elem_of_cons. split; [congruence|done].
Qed.

Lemma js_split_concat sep s : String.concat (String sep EmptyString) (js_split sep s) = s.
Proof.
  induction s as [|c s IH]; simpl; [done|].
  pose proof (js_split_nonempty sep s) as Hne. case_decide as Hc.
  - subst. destruct (js_split sep s) as [|seg segs] eqn:E; [done|].
    change (String.concat (String sep EmptyString) (EmptyString :: seg :: segs))
      with (String sep (String.concat (String sep EmptyString) (seg :: segs))).
    by rewrite IH.
  - destruct (js_split sep s) as [|seg segs] eqn:E; [done|].
    destruct segs as [|seg' segs]; simpl in *; by rewrite <- IH.
Qed.

Lemma js_split_single sep seg : sep ∉ chars seg → js_split sep seg = [seg].
Proof.
  induction seg as [|c seg IH]; [done|]. cbn [chars list_ascii_of_string].
  rewrite not_elem_of_cons. intros [Hc Hseg]. simpl.
  case_decide; [congruence|]. by rewrite (IH Hseg).
Qed.

Lemma js_split_segment sep seg rest :
  sep ∉ chars seg → js_split sep (seg +:+ String sep rest) = seg :: js_split sep rest.
Proof.
  induction seg as [|c seg IH]; cbn [chars list_ascii_of_string].
  - intros _. simpl. by case_decide.
  - rewrite not_elem_of_cons. intros [Hc Hseg]. simpl.
    case_decide; [congruence|]. by rewrite (IH Hseg).
Qed.

(** Splitting undoes joining, for segments without the separator. *)
Lemma js_split_join sep segs :
  segs ≠ [] → Forall (λ seg, sep ∉ chars seg) segs →
  js_split sep (String.concat (String sep EmptyString) segs) = segs.
Proof.
  induction segs as [|seg segs IH]; [done|]. intros _ Hall.
  apply Forall_cons in Hall as [Hseg Hall].
  destruct segs as [|seg' segs]; [by apply js_split_single|].
  change (String.concat (String sep EmptyString) (seg :: seg' :: segs))
    with (seg +:+ String sep (String.concat (String sep EmptyString) (seg' :: segs))).
  rewrite js_split_segment by done. by rewrite IH.
Qed.

Lemma ref_parts_pointer segs :
  segs ≠ [] → Forall (λ seg, "/"%char ∉ chars seg) segs → ref_parts (pointer segs) = segs.
Proof.
  intros Hne Hall. unfold ref_parts, pointer. rewrite js_replace_at_start.
  by apply js_split_join.
Qed.

Lemma lookup_held spec segs v : held_at spec segs v → lookup_path spec segs = v.
Proof.
  unfold lookup_path. revert spec. induction segs as [|seg rest IH]; intros spec; [done|].
  intros (props & x & -> & Hx & Hrest). cbn [fold_left get_prop]. rewrite Hx. by apply IH.
Qed.

Lemma ref_of_Some record ref :
  ref_of record = Some ref ↔ own_prop record "$ref" = Some (VStr ref).
Proof.
  unfold ref_of. destruct (own_prop record "$ref") as [[]|]; split; congruence.
Qed.

Lemma ref_of_not_string record v :
  own_prop record "$ref" = Some v → (∀ s, v ≠ VStr s) → ref_of record = None.
Proof.
  unfold ref_of. intros -> Hv. destruct v; try done. by destruct (Hv s).
Qed.

(** ** Heights and reference strings along property access *)

Lemma height_pos v : 1 ≤ height v.
Proof. destruct v; simpl; lia. Qed.

Lemma height_arr_elem items x : x ∈ items → height x < height (VArr items).
Proof.
  simpl. induction 1 as [x l|x y l _ IH]; lia.
Qed.

Lemma height_obj_elem props k x : (k, x) ∈ props → height x < height (VObj props).
Proof.
  simpl. induction props as [|[k' y] l IH]; intros Hin.
  - by apply not_elem_of_nil in Hin.
  - apply elem_of_cons in Hin as [[= <- <-]|Hin]; [lia|]. specialize (IH Hin). lia.
Qed.

Lemma refs_arr_elem items x : x ∈ items → refs_of x ⊆ refs_of (VArr items).
Proof.
  simpl. induction 1 as [x l|x y l _ IH]; intros r Hr; set_solver.
Qed.

Lemma refs_obj_elem props k x : (k, x) ∈ props → refs_of x ⊆ refs_of (VObj props).
Proof.
  simpl. intros Hin r Hr. apply elem_of_app. right.
  induction props as [|[k' y] l IH].
  - by apply not_elem_of_nil in Hin.
  - apply elem_of_cons in Hin as [[= <- <-]|Hin]; set_solver.
Qed.

Lemma refs_obj_ref props ref : ref_of props = Some ref → ref ∈ refs_of (VObj props).
Proof. simpl. intros ->. set_solver. Qed.

Lemma own_prop_elem props k x : own_prop props k = Some x → (k, x) ∈ props.
Proof.
  induction props as [|[k' y] l IH]; simpl; [done|].
  case_decide as Hk; [intros [= <-]; subst; left | intros Hr; right; auto].
Qed.

Lemma nth_N_elem {A} (l : list A) i x : nth_N l i = Some x → x ∈ l.
Proof.
  unfold nth_N. case_match; [|done]. intros Hl. by eapply list_elem_of_lookup_2.
Qed.

Lemma string_chars_scalar s x : x ∈ string_chars s → ∃ c, x = VStr c.
Proof.
  unfold string_chars. intros (c & -> & _)%list_elem_of_fmap. eauto.
Qed.

Lemma get_prop_height v k : height (get_prop v k) ≤ height v.
Proof.
  destruct v; simpl; try lia.
  - case_decide; [simpl; lia|]. destruct (array_index k) as [i|]; [|simpl; lia].
    destruct (nth_N (string_chars s) i) as [x|] eqn:E; [|simpl; lia].
    apply nth_N_elem, string_chars_scalar in E as [c ->]. simpl; lia.
  - case_decide; [simpl; lia|]. destruct (array_index k) as [i|]; [|simpl; lia].
    destruct (nth_N items i) as [x|] eqn:E; [|simpl; lia].
    apply nth_N_elem, height_arr_elem in E. simpl in *. lia.
  - destruct (own_prop props k) as [x|] eqn:E; [|simpl; lia].
    apply own_prop_elem, height_obj_elem in E. simpl in *. lia.
Qed.

Lemma get_prop_refs v k : refs_of (get_prop v k) ⊆ refs_of v.
Proof.
  destruct v; simpl; try done.
  - case_decide; [done|]. destruct (array_index k) as [i|]; [|done].
    destruct (nth_N (string_chars s) i) as [x|] eqn:E; [|done].
    apply nth_N_elem, string_chars_scalar in E as [c ->]. done.
  - case_decide; [set_solver|]. destruct (array_index k) as [i|]; [|set_solver].
    destruct (nth_N items i) as [x|] eqn:E; [|set_solver].
    by apply nth_N_elem, refs_arr_elem in E.
  - destruct (own_prop props k) as [x|] eqn:E; [|set_solver].
    by apply own_prop_elem, refs_obj_elem in E.
Qed.

Lemma lookup_path_height spec parts : height (lookup_path spec parts) ≤ height spec.
Proof.
  unfold lookup_path. revert spec. induction parts as [|p ps IH]; intros spec; simpl; [lia|].
  etrans; [apply IH|apply get_prop_height].
Qed.

Lemma lookup_path_refs spec parts : refs_of (lookup_path spec parts) ⊆ refs_of spec.
Proof.
  unfold lookup_path. revert spec. induction parts as [|p ps IH]; intros spec; simpl; [done|].
  etrans; [apply IH|apply get_prop_refs].
Qed.

(** ** The [seen] set only grows, and its growth is bounded *)

Lemma has_true seen ref : has seen ref = true ↔ ref ∈ seen.
Proof. unfold has. by rewrite bool_decide_eq_true. Qed.

Lemma has_false seen ref : has seen ref = false ↔ ref ∉ seen.
Proof. unfold has. by rewrite bool_decide_eq_false. Qed.

Lemma add_fresh seen ref : ref ∉ seen → add seen ref = seen ++ [ref].
Proof. intros H%has_false. unfold add. by rewrite H. Qed.

Lemma add_subseteq seen ref : seen ⊆ add seen ref.
Proof. unfold add. case_match; set_solver. Qed.

Lemma elem_of_add seen ref r : r ∈ add seen ref ↔ r = ref ∨ r ∈ seen.
Proof.
  unfold add. destruct (has seen ref) eqn:E.
  - apply has_true in E. split; [auto|]. by intros [->|].
  - rewrite elem_of_app, list_elem_of_singleton. tauto.
Qed.

Lemma unexpanded_mono universe seen seen' :
  seen ⊆ seen' → unexpanded universe seen' ≤ unexpanded universe seen.
Proof.
  intros Hsub. unfold unexpanded. apply subseteq_size. intros r.
  rewrite !elem_of_difference, !elem_of_list_to_set. intros [Hu Hs]. split; auto.
Qed.

Lemma unexpanded_add universe seen ref :
  ref ∈ universe → ref ∉ seen →
  unexpanded universe (add seen ref) < unexpanded universe seen.
Proof.
  intros Hin Hnot. unfold unexpanded. apply subset_size.
  apply strict_spec_alt. split.
  - intros r. rewrite !elem_of_difference, !elem_of_list_to_set, elem_of_add. tauto.
  - intros Heq. assert (ref ∈ (list_to_set universe : gset string) ∖ list_to_set seen) as Hr
      by (rewrite elem_of_difference, !elem_of_list_to_set; done).
    rewrite <- Heq in Hr.
    rewrite elem_of_difference, !elem_of_list_to_set, elem_of_add in Hr. tauto.
Qed.

Lemma unexpanded_le_length universe seen : unexpanded universe seen ≤ length universe.
Proof.
  unfold unexpanded.
  etrans; [apply subseteq_size, (subseteq_difference_l _ _ _ (reflexivity _))|].
  clear seen. induction universe as [|r l IH].
  - by rewrite list_to_set_nil, size_empty.
  - rewrite list_to_set_cons, size_union_alt, size_singleton.
    assert (size ((list_to_set l : gset string) ∖ {[r]}) ≤ size (list_to_set l : gset string))
      by (apply subseteq_size, subseteq_difference_l; done).
    simpl. lia.
Qed.

(** ** Loops over a total body are total *)

Lemma array_map_total (f : value → M value) items seen :
  (∀ x s, x ∈ items → seen ⊆ s → ∃ r s', f x s = Some (r, s') ∧ s ⊆ s') →
  ∃ r s', array_map f items seen = Some (r, s') ∧ seen ⊆ s' ∧ length r = length items.
Proof.
  revert seen. induction items as [|x xs IH]; intros seen Hf; simpl.
  - exists [], seen. done.
  - destruct (Hf x seen) as (y & s1 & Hy & Hs1); [left|done|].
    destruct (IH s1) as (ys & s2 & Hys & Hs2 & Hlen).
    { intros x' s Hx' Hs. apply Hf; [by right|by etrans]. }
    exists (y :: ys), s2. unfold bind, ret. rewrite Hy, Hys. simpl.
    split_and!; [done|by etrans|by f_equal].
Qed.

Lemma entries_loop_total (f : value → M value) entries result seen :
  (∀ k x s, (k, x) ∈ entries → seen ⊆ s → ∃ r s', f x s = Some (r, s') ∧ s ⊆ s') →
  ∃ r s', entries_loop f entries result seen = Some (r, s') ∧ seen ⊆ s'.
Proof.
  revert result seen. induction entries as [|[k x] xs IH]; intros result seen Hf; simpl.
  - exists result, seen. done.
  - destruct (Hf k x seen) as (y & s1 & Hy & Hs1); [left|done|].
    destruct (IH (assign result k y) s1) as (ys & s2 & Hys & Hs2).
    { intros k' x' s Hx' Hs. eapply Hf; [by right|by etrans]. }
    exists ys, s2. unfold bind. rewrite Hy. split; [done|by etrans].
Qed.

Lemma array_map_ext_some (f g : value → M value) items seen r :
  (∀ x s r, x ∈ items → f x s = Some r → g x s = Some r) →
  array_map f items seen = Some r → array_map g items seen = Some r.
Proof.
  revert seen r. induction items as [|x xs IH]; intros seen r Hfg; simpl; [done|].
  unfold bind, ret. destruct (f x seen) as [[y s1]|] eqn:Hy; [|done].
  rewrite (Hfg x seen (y, s1)); [|left|done].
  destruct (array_map f xs s1) as [[ys s2]|] eqn:Hys; [|done].
  intros H. rewrite (IH s1 (ys, s2)); [exact H| |done].
  intros x' s r' Hx'. apply Hfg. by right.
Qed.

Lemma entries_loop_ext_some (f g : value → M value) entries result seen r :
  (∀ k x s r, (k, x) ∈ entries → f x s = Some r → g x s = Some r) →
  entries_loop f entries result seen = Some r → entries_loop g entries result seen = Some r.
Proof.
  revert result seen r. induction entries as [|[k x] xs IH]; intros result seen r Hfg; simpl; [done|].
  unfold bind. destruct (f x seen) as [[y s1]|] eqn:Hy; [|done].
  rewrite (Hfg k x seen (y, s1)); [|left|done].
  apply IH. intros k' x' s r' Hx'. eapply Hfg. by right.
Qed.

(** ** Termination of the resolver *)

Lemma resolveRefs_fuel_mono fuel : ∀ fuel' obj spec seen r,
  fuel ≤ fuel' → resolveRefs fuel obj spec seen = Some r →
  resolveRefs fuel' obj spec seen = Some r.
Proof.
  induction fuel as [|fuel IH]; intros fuel' obj spec seen r Hle; [done|].
  destruct fuel' as [|fuel']; [lia|]. simpl.
  destruct obj; try done.
  - unfold bind. intros H.
    destruct (array_map _ items seen) as [[ys s]|] eqn:E; [|done].
    rewrite (array_map_ext_some _ (λ item, resolveRefs fuel' item spec) _ _ _
               (λ x s0 r0 _, IH fuel' x spec s0 r0 ltac:(lia)) E).
    exact H.
  - destruct (ref_of props) as [ref|].
    + destruct (has seen ref); [done|]. apply IH. lia.
    + unfold bind. intros H.
      destruct (entries_loop _ props [] seen) as [[ys s]|] eqn:E; [|done].
      rewrite (entries_loop_ext_some _ (λ val, resolveRefs fuel' val spec) _ _ _ _
                 (λ k x s0 r0 _, IH fuel' x spec s0 r0 ltac:(lia)) E).
      exact H.
Qed.

Section termination.
Variable spec : value.
Variable universe : list string.
Hypothesis universe_spec : refs_of spec ⊆ universe.

Lemma resolveRefs_enough fuel : ∀ obj seen,
  refs_of obj ⊆ universe →
  height obj + unexpanded universe seen * height spec ≤ fuel →
  ∃ r seen', resolveRefs fuel obj spec seen = Some (r, seen') ∧ seen ⊆ seen'.
Proof.
  induction fuel as [|fuel IH]; intros obj seen Hrefs Hfuel.
  { pose proof (height_pos obj). lia. }
  destruct obj; simpl; try (eexists _, _; split; [reflexivity|done]).
  - destruct (array_map_total (λ item, resolveRefs fuel item spec) items seen)
      as (ys & s' & Hys & Hs' & _).
    { intros x s Hx Hs. apply IH.
      - etrans; [by apply refs_arr_elem|done].
      - pose proof (height_arr_elem _ _ Hx). pose proof (unexpanded_mono universe _ _ Hs).
        nia. }
    exists (VArr ys), s'. unfold bind, ret. by rewrite Hys.
  - destruct (ref_of props) as [ref|] eqn:Href.
    + destruct (has seen ref) eqn:Hhas; [eexists _, _; split; [reflexivity|done]|].
      apply has_false in Hhas.
      destruct (IH (lookup_path spec (ref_parts ref)) (add seen ref)) as (r & s' & Hr & Hs').
      { etrans; [apply lookup_path_refs|done]. }
      { pose proof (lookup_path_height spec (ref_parts ref)).
        pose proof (unexpanded_add universe seen ref (Hrefs _ (refs_obj_ref _ _ Href)) Hhas).
        simpl in Hfuel. nia. }
      exists r, s'. split; [done|]. etrans; [apply add_subseteq|done].
    + destruct (entries_loop_total (λ val, resolveRefs fuel val spec) props [] seen)
        as (ys & s' & Hys & Hs').
      { intros k x s Hx Hs. apply IH.
        - etrans; [by eapply refs_obj_elem|done].
        - pose proof (height_obj_elem _ _ _ Hx). pose proof (unexpanded_mono universe _ _ Hs).
          nia. }
      exists (VObj ys), s'. unfold bind, ret. by rewrite Hys.
Qed.
End termination.

Lemma resolveRefs_fuel_bound obj spec seen :
  ∃ r seen', resolveRefs (fuel_bound obj spec) obj spec seen = Some (r, seen') ∧ seen ⊆ seen'.
Proof.
  apply (resolveRefs_enough spec (refs_of spec ++ refs_of obj)).
  - set_solver.
  - set_solver.
  - unfold fuel_bound.
    pose proof (unexpanded_le_length (refs_of spec ++ refs_of obj) seen). nia.
Qed.

Lemma resolveRefs_marker fuel record spec seen ref :
  ref_of record = Some ref →
  resolveRefs (S fuel) (VObj record) spec seen =
    if has seen ref then Some (circular ref, seen)
    else resolveRefs fuel (lookup_path spec (ref_parts ref)) spec (add seen ref).
Proof. intros Href. simpl. by rewrite Href. Qed.

(** A marker for A, where the document holds a marker for B at A and a
    marker for A at B. *)
Lemma resolveRefs_two_cycle fuel spec recA recB recA' refA refB :
  ref_of recA = Some refA → lookup_path spec (ref_parts refA) = VObj recB →
  ref_of recB = Some refB → lookup_path spec (ref_parts refB) = VObj recA' →
  ref_of recA' = Some refA → refA ≠ refB → 3 ≤ fuel →
  resolveRefs fuel (VObj recA) spec [] = Some (circular refA, [refA; refB]).
Proof.
  intros HA HtA HB HtB HA' Hne Hfuel.
  destruct fuel as [|[|[|fuel]]]; try lia.
  rewrite (resolveRefs_marker _ _ _ _ _ HA).
  assert (has [] refA = false) as -> by (apply has_false, not_elem_of_nil).
  rewrite HtA, (resolveRefs_marker _ _ _ _ _ HB).
  assert (add [] refA = [refA]) as -> by (apply add_fresh, not_elem_of_nil).
  assert (has [refA] refB = false) as ->.
  { apply has_false. rewrite list_elem_of_singleton. congruence. }
  rewrite HtB, (resolveRefs_marker _ _ _ _ _ HA').
  assert (add [refA] refB = [refA; refB]) as ->.
  { apply add_fresh. rewrite list_elem_of_singleton. congruence. }
  assert (has [refA; refB] refA = true) as -> by (apply has_true; left).
  done.
Qed.

(** C1. The resolver returns on every input: [fuel_bound obj spec] is enough
    fuel whatever [seen] holds, and more fuel gives the same result. A
    marker whose reference string is in [seen] already is answered by the
    placeholder [{$circular: ref}], which carries that reference string,
    with no further call. In a document that holds a marker for the place B
    at the place A and a marker for A at B, resolving a marker for A from
    the empty set stops at the placeholder for A, with A and B in [seen];
    so it does for two schemas that refer to each other. The places are
    given by property names without a slash. *)
Theorem resolveRefs_terminates :
  (∀ obj spec seen, ∃ r seen',
      ∀ fuel, fuel_bound obj spec ≤ fuel → resolveRefs fuel obj spec seen = Some (r, seen'))
  ∧ (∀ fuel record spec seen ref,
      own_prop record "$ref" = Some (VStr ref) → ref ∈ seen →
      resolveRefs (S fuel) (VObj record) spec seen
        = Some (VObj [("$circular", VStr ref)], seen))
  ∧ (∀ fuel spec placeA placeB recA recB recA',
      placeA ≠ [] → Forall (λ seg, "/"%char ∉ chars seg) placeA →
      placeB ≠ [] → Forall (λ seg, "/"%char ∉ chars seg) placeB →
      placeA ≠ placeB →
      own_prop recA "$ref" = Some (VStr (pointer placeA)) →
      held_at spec placeA (VObj recB) →
      own_prop recB "$ref" = Some (VStr (pointer placeB)) →
      held_at spec placeB (VObj recA') →
      own_prop recA' "$ref" = Some (VStr (pointer placeA)) →
      3 ≤ fuel →
      resolveRefs fuel (VObj recA) spec []
        = Some (VObj [("$circular", VStr (pointer placeA))], [pointer placeA; pointer placeB]))
  ∧ resolveRefs 3 (VObj [("$ref", VStr "#/components/schemas/A")]) cyclic_components []
      = Some (VObj [("$circular", VStr "#/components/schemas/A")],
              ["#/components/schemas/A"; "#/components/schemas/B"]).
Proof.
  split_and!; [| | |reflexivity].
  - intros obj spec seen.
    destruct (resolveRefs_fuel_bound obj spec seen) as (r & seen' & Hr & _).
    exists r, seen'. intros fuel Hle. by eapply resolveRefs_fuel_mono.
  - intros fuel record spec seen ref Href%ref_of_Some Hin.
    rewrite (resolveRefs_marker _ _ _ _ _ Href).
    apply has_true in Hin. by rewrite Hin.
  - intros fuel spec placeA placeB recA recB recA' HneA HA HneB HB Hne
      HrA%ref_of_Some HtA%lookup_held HrB%ref_of_Some HtB%lookup_held HrA'%ref_of_Some Hfuel.
    apply (resolveRefs_two_cycle fuel spec recA recB recA'); try done.
    + by rewrite ref_parts_pointer.
    + by rewrite ref_parts_pointer.
    + intros Heq. apply Hne.
      rewrite <- (ref_parts_pointer placeA), <- (ref_parts_pointer placeB) by done.
      by rewrite Heq.
Qed.

Lemma resolveRefs_terminates_witness :
  resolveRefs 3 (VObj [("$ref", VStr "#/components/schemas/A")]) cyclic_components []
    = Some (VObj [("$circular", VStr (pointer ["components"; "schemas"; "A"]))],
            [pointer ["components"; "schemas"; "A"]; pointer ["components"; "schemas"; "B"]]).
Proof.
  apply (proj1 (proj2 (proj2 resolveRefs_terminates)) 3 cyclic_components
           ["components"; "schemas"; "A"] ["components"; "schemas"; "B"]
           [("$ref", VStr "#/components/schemas/A")]
           [("$ref", VStr "#/components/schemas/B")]
           [("$ref", VStr "#/components/schemas/A")]).
  - discriminate.
  - repeat constructor; apply (bool_decide_unpack _); vm_compute; exact I.
  - discriminate.
  - repeat constructor; apply (bool_decide_unpack _); vm_compute; exact I.
  - discriminate.
  - reflexivity.
  - cbn. eexists _, _. split; [done|]. split; [reflexivity|].
    eexists _, _. split; [done|]. split; [reflexivity|].
    eexists _, _. split; [done|]. split; [reflexivity|]. done.
  - reflexivity.
  - cbn. eexists _, _. split; [done|]. split; [reflexivity|].
    eexists _, _. split; [done|]. split; [reflexivity|].
    eexists _, _. split; [done|]. split; [reflexivity|]. done.
  - reflexivity.
  - lia.
Defined.

(** ** The loops, element by element *)

Lemma array_map_seen_mono (f : value → M value) items seen r s' :
  (∀ x s y t, x ∈ items → f x s = Some (y, t) → s ⊆ t) →
  array_map f items seen = Some (r, s') → seen ⊆ s'.
Proof.
  revert seen r. induction items as [|x xs IH]; intros seen r Hf; simpl.
  - by intros [= _ <-].
  - unfold bind, ret. destruct (f x seen) as [[y s1]|] eqn:Hy; [|done].
    destruct (array_map f xs s1) as [[ys s2]|] eqn:Hys; [|done]. intros [= _ <-].
    etrans; [eapply Hf; [left|done]|].
    eapply IH; [|done]. intros x' s y' t Hx'. apply Hf. by right.
Qed.

Lemma array_map_length (f : value → M value) xs seen ys s' :
  array_map f xs seen = Some (ys, s') → length ys = length xs.
Proof.
  revert seen ys. induction xs as [|x xs IH]; intros seen ys; simpl.
  - by intros [= <- _].
  - unfold bind, ret. destruct (f x seen) as [[y s1]|]; [|done].
    destruct (array_map f xs s1) as [[ys' s2]|] eqn:E; [|done].
    intros [= <- <-]. simpl. f_equal. by eapply IH.
Qed.

(** The element at index [i] of the result is [f] of the element at index [i]
    of the input, run in the state left by the first [i] elements. *)
Lemma array_map_lookup (f : value → M value) xs seen ys s' i x :
  array_map f xs seen = Some (ys, s') → xs !! i = Some x →
  ∃ y si si', ys !! i = Some y ∧
    array_map f (take i xs) seen = Some (take i ys, si) ∧ f x si = Some (y, si').
Proof.
  revert seen ys i. induction xs as [|x0 xs IH]; intros seen ys i; simpl; [done|].
  unfold bind, ret. destruct (f x0 seen) as [[y0 s1]|] eqn:Hy0; [|done].
  destruct (array_map f xs s1) as [[ys' s2]|] eqn:E; [|done].
  intros [= <- <-]. destruct i as [|i]; simpl.
  - intros [= <-]. exists y0, seen, s1. done.
  - intros Hx. destruct (IH _ _ _ E Hx) as (y & si & si' & Hy & Htake & Hf).
    exists y, si, si'. unfold bind, ret. by rewrite Hy0, Htake.
Qed.

Lemma array_map_id (f : value → M value) xs seen :
  (∀ x, x ∈ xs → f x seen = Some (x, seen)) → array_map f xs seen = Some (xs, seen).
Proof.
  induction xs as [|x xs IH]; intros Hf; simpl; [done|].
  unfold bind, ret. rewrite Hf by left. rewrite IH; [done|].
  intros x' Hx'. apply Hf. by right.
Qed.

Lemma keys_cons k v props : keys ((k, v) :: props) = k :: keys props.
Proof. done. Qed.

Lemma keys_app props1 props2 : keys (props1 ++ props2) = keys props1 ++ keys props2.
Proof. apply fmap_app. Qed.

Lemma vals_cons k v props : vals ((k, v) :: props) = v :: vals props.
Proof. done. Qed.

#[global] Arguments keys : simpl never.
#[global] Arguments vals : simpl never.

Lemma set_prop_keys props k v k' :
  k' ∈ keys (set_prop props k v) ↔ k' = k ∨ k' ∈ keys props.
Proof.
  induction props as [|[k0 v0] rest IH]; simpl.
  - rewrite keys_cons, elem_of_cons, elem_of_nil. tauto.
  - case_decide as Hk; rewrite !keys_cons, !elem_of_cons.
    + subst. tauto.
    + rewrite IH. tauto.
Qed.

Lemma set_prop_fresh props k v : k ∉ keys props → set_prop props k v = props ++ [(k, v)].
Proof.
  induction props as [|[k0 v0] rest IH]; simpl; [done|].
  rewrite keys_cons, not_elem_of_cons. intros [Hne Hnot].
  case_decide; [congruence|]. by rewrite IH.
Qed.

Lemma own_prop_None props k : own_prop props k = None ↔ k ∉ keys props.
Proof.
  induction props as [|[k' v] rest IH]; simpl.
  - split; [intros _; apply not_elem_of_nil|done].
  - rewrite keys_cons, not_elem_of_cons. case_decide as Hk.
    + split; [done|]. intros [Hne _]. congruence.
    + rewrite IH. split; [intros ?; split; [congruence|done]|tauto].
Qed.

Lemma assign_proto props v : assign props "__proto__" v = props.
Proof. done. Qed.

Lemma assign_plain props k v : k ≠ "__proto__" → assign props k v = set_prop props k v.
Proof. intros Hk. unfold assign. by rewrite decide_False. Qed.

Lemma assign_keys props k v k' :
  k' ∈ keys (assign props k v) ↔ (k' = k ∧ k ≠ "__proto__") ∨ k' ∈ keys props.
Proof.
  unfold assign. case_decide as Hk; [tauto|]. rewrite set_prop_keys.
  split; [intros [->|?]; auto|tauto].
Qed.

Lemma written_cons_proto v entries :
  written (("__proto__", v) :: entries) = written entries.
Proof. done. Qed.

Lemma written_cons_plain k v entries :
  k ≠ "__proto__" → written ((k, v) :: entries) = (k, v) :: written entries.
Proof.
  intros Hk. unfold written. cbn [List.filter fst]. by rewrite bool_decide_false.
Qed.

Lemma elem_of_written k v entries :
  (k, v) ∈ written entries ↔ (k, v) ∈ entries ∧ k ≠ "__proto__".
Proof.
  unfold written. rewrite !list_elem_of_In, List.filter_In. cbn [fst].
  by rewrite negb_true_iff, bool_decide_eq_false.
Qed.

Lemma elem_of_keys_written k entries :
  k ∈ keys (written entries) ↔ k ∈ keys entries ∧ k ≠ "__proto__".
Proof.
  unfold keys. rewrite !list_elem_of_fmap. split.
  - intros ([k' v] & -> & [Hin Hk]%elem_of_written). split; [|done]. by exists (k', v).
  - intros [([k' v] & -> & Hin) Hk]. exists (k', v). split; [done|].
    by apply elem_of_written.
Qed.

Lemma written_id entries : "__proto__" ∉ keys entries → written entries = entries.
Proof.
  induction entries as [|[k v] rest IH]; [done|].
  rewrite keys_cons, not_elem_of_cons. intros [Hk Hrest].
  rewrite written_cons_plain by done. by rewrite IH.
Qed.

Lemma written_no_proto entries : "__proto__" ∉ keys (written entries).
Proof. rewrite elem_of_keys_written. tauto. Qed.

Lemma entries_loop_keys (f : value → M value) entries result seen r s' :
  entries_loop f entries result seen = Some (r, s') →
  ∀ k, k ∈ keys r ↔ k ∈ keys result ∨ (k ∈ keys entries ∧ k ≠ "__proto__").
Proof.
  revert result seen. induction entries as [|[k0 x] rest IH]; intros result seen; simpl.
  - intros [= <- _] k. rewrite (elem_of_nil k). tauto.
  - unfold bind. destruct (f x seen) as [[y s1]|]; [|done].
    intros H k. rewrite (IH _ _ H k), assign_keys, keys_cons, elem_of_cons.
    split; [intros [[[-> ?]|?]|[? ?]]; auto|intros [?|[[->|?] ?]]; auto].
Qed.

(** On distinct property names the entries loop is a map over the property
    values that keeps the names in place, [__proto__] apart, which gets no
    property. *)
Lemma entries_loop_nodup (f : value → M value) entries result seen :
  NoDup (keys result ++ keys entries) →
  entries_loop f entries result seen =
    match array_map f (vals entries) seen with
    | Some (ys, s') => Some (result ++ written (zip (keys entries) ys), s')
    | None => None
    end.
Proof.
  revert result seen. induction entries as [|[k x] rest IH]; intros result seen Hnd.
  - simpl. unfold ret. by rewrite app_nil_r.
  - rewrite keys_cons in Hnd. rewrite vals_cons, keys_cons. simpl.
    unfold bind, ret. destruct (f x seen) as [[y s1]|]; [|done].
    apply NoDup_app in Hnd as (Hres & Hdisj & Hrest).
    apply NoDup_cons in Hrest as [Hk Hrest].
    destruct (decide (k = "__proto__")) as [->|Hne].
    + rewrite assign_proto, IH.
      * destruct (array_map f (vals rest) s1) as [[ys s2]|]; [|done].
        by rewrite written_cons_proto.
      * apply NoDup_app. split_and!; [done| |done].
        intros k' Hin Hin'. apply (Hdisj _ Hin). by right.
    + rewrite assign_plain by done.
      rewrite set_prop_fresh by (intros Hin; apply (Hdisj _ Hin); left).
      rewrite IH.
      * destruct (array_map f (vals rest) s1) as [[ys s2]|]; [|done].
        rewrite written_cons_plain by done. simpl. by rewrite <- app_assoc.
      * rewrite keys_app, <- app_assoc. simpl.
        apply NoDup_app. split_and!; [done| |by apply NoDup_cons].
        intros k' Hin. rewrite not_elem_of_cons. split.
        -- intros ->. apply (Hdisj _ Hin). left.
        -- intros Hin'. apply (Hdisj _ Hin). by right.
Qed.

Lemma entries_loop_seen_mono (f : value → M value) entries result seen r s' :
  (∀ k x s y t, (k, x) ∈ entries → f x s = Some (y, t) → s ⊆ t) →
  entries_loop f entries result seen = Some (r, s') → seen ⊆ s'.
Proof.
  revert result seen. induction entries as [|[k x] rest IH]; intros result seen Hf; simpl.
  - by intros [= _ <-].
  - unfold bind. destruct (f x seen) as [[y s1]|] eqn:Hy; [|done]. intros H.
    etrans; [eapply Hf; [left|done]|].
    eapply IH; [|done]. intros k' x' s y' t Hx'. eapply Hf. by right.
Qed.

Lemma array_map_elem_states (f : value → M value) xs seen ys s' i x :
  (∀ x s y t, x ∈ xs → f x s = Some (y, t) → s ⊆ t) →
  array_map f xs seen = Some (ys, s') → xs !! i = Some x →
  ∃ y si si', ys !! i = Some y ∧ f x si = Some (y, si') ∧ seen ⊆ si ∧ si' ⊆ s'.
Proof.
  revert seen ys i. induction xs as [|x0 xs IH]; intros seen ys i Hmono; simpl; [done|].
  unfold bind, ret. destruct (f x0 seen) as [[y0 s1]|] eqn:Hy0; [|done].
  destruct (array_map f xs s1) as [[ys' s2]|] eqn:E; [|done].
  intros [= <- <-]. destruct i as [|i]; simpl.
  - intros [= <-]. exists y0, seen, s1. split_and!; [done|done|done|].
    eapply array_map_seen_mono; [|exact E]. intros x' s y' t Hx'. apply Hmono. by right.
  - intros Hx. destruct (IH s1 ys' i) as (y & si & si' & Hy & Hf & Hsi & Hsi');
      [intros x' s y' t Hx'; apply Hmono; by right|done|done|].
    exists y, si, si'. split_and!; [done|done| |done].
    etrans; [|exact Hsi]. eapply Hmono; [left|done].
Qed.


Lemma resolveRefs_seen_mono fuel : ∀ obj spec seen r s',
  resolveRefs fuel obj spec seen = Some (r, s') → seen ⊆ s'.
Proof.
  induction fuel as [|fuel IH]; intros obj spec seen r s'; [done|]. simpl.
  destruct obj; try by intros [= _ <-].
  - unfold bind, ret.
    destruct (array_map _ items seen) as [[ys s1]|] eqn:E; [|done]. intros [= _ <-].
    eapply array_map_seen_mono; [|done]. intros x s y t _. apply IH.
  - destruct (ref_of props) as [ref|].
    + destruct (has seen ref); [by intros [= _ <-]|]. intros H%IH.
      etrans; [apply add_subseteq|done].
    + unfold bind, ret.
      destruct (entries_loop _ props [] seen) as [[ys s1]|] eqn:E; [|done]. intros [= _ <-].
      eapply entries_loop_seen_mono; [|done]. intros k x s y t _. apply IH.
Qed.

(** ** Well-formed and marker-free values *)

Lemma wf_arr_elem items x : wf_value (VArr items) → x ∈ items → wf_value x.
Proof.
  simpl. intros Hwf Hin. induction Hin as [x l|x y l _ IH]; destruct Hwf; auto.
Qed.

Lemma wf_obj_elem props k x : wf_value (VObj props) → (k, x) ∈ props → wf_value x.
Proof.
  simpl. intros [_ Hwf]. induction props as [|[k' y] l IH]; intros Hin.
  - by apply elem_of_nil in Hin.
  - destruct Hwf as [Hy Hl]. apply elem_of_cons in Hin as [[= <- <-]|Hin]; auto.
Qed.

Lemma wf_obj_nodup props : wf_value (VObj props) → NoDup (keys props).
Proof. by intros [? _]. Qed.

Lemma subseteq_nil_eq (l : list string) : l ⊆ [] → l = [].
Proof.
  destruct l as [|r l]; [done|]. intros H. exfalso.
  eapply not_elem_of_nil, (H r). left.
Qed.

Lemma no_marker_arr_elem items x : no_marker (VArr items) → x ∈ items → no_marker x.
Proof.
  unfold no_marker. intros H Hin. apply subseteq_nil_eq. rewrite <- H.
  by apply refs_arr_elem.
Qed.

Lemma no_marker_obj_elem props k x : no_marker (VObj props) → (k, x) ∈ props → no_marker x.
Proof.
  unfold no_marker. intros H Hin. apply subseteq_nil_eq. rewrite <- H.
  by eapply refs_obj_elem.
Qed.

Lemma no_marker_obj_ref props : no_marker (VObj props) → ref_of props = None.
Proof.
  unfold no_marker. destruct (ref_of props) as [ref|] eqn:E; [|done].
  intros H. apply refs_obj_ref in E. rewrite H in E. by apply elem_of_nil in E.
Qed.

Lemma elem_of_vals props x : x ∈ vals props → ∃ k, (k, x) ∈ props.
Proof.
  unfold vals. intros ([k y] & -> & Hin)%list_elem_of_fmap. by exists k.
Qed.

Lemma zip_keys_vals props : zip (keys props) (vals props) = props.
Proof. apply zip_fst_snd. Qed.

Lemma no_proto_arr_elem items x : no_proto_key (VArr items) → x ∈ items → no_proto_key x.
Proof.
  simpl. intros Hnp Hin. induction Hin as [x l|x y l _ IH]; destruct Hnp; auto.
Qed.

Lemma no_proto_obj_elem props k x :
  no_proto_key (VObj props) → (k, x) ∈ props → no_proto_key x.
Proof.
  simpl. intros [_ Hnp]. induction props as [|[k' y] l IH]; intros Hin.
  - by apply elem_of_nil in Hin.
  - destruct Hnp as [Hy Hl]. apply elem_of_cons in Hin as [[= <- <-]|Hin]; auto.
Qed.

Lemma no_proto_obj_keys props : no_proto_key (VObj props) → "__proto__" ∉ keys props.
Proof. by intros [? _]. Qed.

(** A value with no marker and no property named [__proto__] is returned as
    it is, and [seen] stays as it was. *)
Lemma resolveRefs_no_marker spec fuel : ∀ v seen,
  wf_value v → no_proto_key v → no_marker v → height v ≤ fuel →
  resolveRefs fuel v spec seen = Some (v, seen).
Proof.
  induction fuel as [|fuel IH]; intros v seen Hwf Hnp Hnm Hh.
  { pose proof (height_pos v). lia. }
  destruct v; try done.
  - simpl. unfold bind, ret. rewrite array_map_id; [done|].
    intros x Hx. apply IH.
    + by eapply wf_arr_elem.
    + by eapply no_proto_arr_elem.
    + by eapply no_marker_arr_elem.
    + pose proof (height_arr_elem _ _ Hx). lia.
  - simpl. rewrite (no_marker_obj_ref _ Hnm). unfold bind, ret.
    rewrite entries_loop_nodup by (simpl; apply (wf_obj_nodup _ Hwf)).
    rewrite array_map_id.
    + simpl. rewrite zip_keys_vals. by rewrite written_id by by apply no_proto_obj_keys.
    + intros x [k Hx]%elem_of_vals. apply IH.
      * by eapply wf_obj_elem.
      * by eapply no_proto_obj_elem.
      * by eapply no_marker_obj_elem.
      * pose proof (height_obj_elem _ _ _ Hx). lia.
Qed.

(** C4. The value [{a: 1, __proto__: 5, c: 3}], as [JSON.parse] gives it,
    holds no marker and has distinct property names, and the resolver does
    not return it as it is: whatever the document and [seen], the result is
    [{a: 1, c: 3}], since the assignment [result[key] = ...] creates no
    property for the key [__proto__]. *)
Theorem resolveRefs_changes_marker_free_value :
  no_marker proto_sample ∧ wf_value proto_sample ∧
  ∀ spec seen,
    resolveRefs 2 proto_sample spec seen = Some (VObj [("a", VNum 1); ("c", VNum 3)], seen) ∧
    VObj [("a", VNum 1); ("c", VNum 3)] ≠ proto_sample.
Proof.
  split_and!.
  - reflexivity.
  - simpl. split; [|done]. apply (bool_decide_unpack _). vm_compute. exact I.
  - intros spec seen. split; [reflexivity|discriminate].
Qed.


(** ** The resolver case by case *)

Lemma resolveRefs_scalar fuel v spec seen :
  is_scalar v = true → resolveRefs (S fuel) v spec seen = Some (v, seen).
Proof. by destruct v. Qed.

Lemma resolveRefs_array fuel items spec seen r s' :
  resolveRefs fuel (VArr items) spec seen = Some (r, s') →
  ∃ fuel' items', fuel = S fuel' ∧ r = VArr items' ∧
    array_map (λ item, resolveRefs fuel' item spec) items seen = Some (items', s').
Proof.
  destruct fuel as [|fuel']; [done|]. simpl. unfold bind, ret.
  destruct (array_map _ items seen) as [[ys s1]|] eqn:E; [|done].
  intros [= <- <-]. by exists fuel', ys.
Qed.

Lemma resolveRefs_object fuel record spec seen r s' :
  ref_of record = None →
  resolveRefs fuel (VObj record) spec seen = Some (r, s') →
  ∃ fuel' props', fuel = S fuel' ∧ r = VObj props' ∧
    entries_loop (λ val, resolveRefs fuel' val spec) record [] seen = Some (props', s').
Proof.
  intros Href. destruct fuel as [|fuel']; [done|]. simpl. rewrite Href. unfold bind, ret.
  destruct (entries_loop _ record [] seen) as [[ys s1]|] eqn:E; [|done].
  intros [= <- <-]. by exists fuel', ys.
Qed.

(** An array is resolved to an array of the same length whose element at
    each index is the resolution of the input's element at that index, in
    the state left by the elements before it. *)
Lemma resolveRefs_array_elementwise fuel items spec seen r seen' :
  resolveRefs fuel (VArr items) spec seen = Some (r, seen') →
  ∃ items', r = VArr items' ∧ length items' = length items ∧
    ∀ i x, items !! i = Some x →
      ∃ y si si', items' !! i = Some y ∧
        resolveRefs fuel (VArr (take i items)) spec seen = Some (VArr (take i items'), si) ∧
        resolveRefs fuel x spec si = Some (y, si').
Proof.
  intros Hr.
  destruct (resolveRefs_array _ _ _ _ _ _ Hr) as (fuel' & items' & -> & -> & Hmap).
  exists items'. split_and!; [done|by eapply array_map_length|].
  intros i x Hx.
  destruct (array_map_lookup _ _ _ _ _ _ _ Hmap Hx) as (y & si & si' & Hy & Htake & Hf).
  exists y, si, si'. split_and!; [done| |].
  - simpl. unfold bind, ret. by rewrite Htake.
  - eapply resolveRefs_fuel_mono; [|exact Hf]. lia.
Qed.

Lemma keys_written_zip (ks : list string) (ys : list value) :
  length ys = length ks →
  keys (written (zip ks ys)) = List.filter (λ k, negb (bool_decide (k = "__proto__"))) ks.
Proof.
  revert ys. induction ks as [|k ks IH]; intros [|y ys] Hlen; try done.
  injection Hlen as Hlen. cbn [zip zip_with].
  destruct (decide (k = "__proto__")) as [->|Hne].
  - rewrite written_cons_proto. cbn [List.filter]. rewrite bool_decide_true by done.
    by apply IH.
  - rewrite written_cons_plain by done. cbn [List.filter]. rewrite bool_decide_false by done.
    cbn [negb]. rewrite keys_cons. f_equal. by apply IH.
Qed.

Lemma own_prop_zip (ks : list string) (ys : list value) i k y :
  NoDup ks → ks !! i = Some k → ys !! i = Some y → own_prop (zip ks ys) k = Some y.
Proof.
  revert ys i. induction ks as [|k0 ks IH]; intros [|y0 ys] [|i] Hnd; try done.
  - intros [= ->] [= ->]. cbn [zip zip_with own_prop]. by rewrite decide_True.
  - intros Hk Hy. apply NoDup_cons in Hnd as [Hk0 Hnd]. cbn [zip zip_with own_prop].
    rewrite decide_False; [by eapply IH|].
    intros ->. apply Hk0. by eapply list_elem_of_lookup_2.
Qed.

Lemma own_prop_written props k :
  k ≠ "__proto__" → own_prop (written props) k = own_prop props k.
Proof.
  intros Hk. induction props as [|[k' v] rest IH]; [done|].
  destruct (decide (k' = "__proto__")) as [->|Hne].
  - rewrite written_cons_proto. cbn [own_prop]. by rewrite decide_False.
  - rewrite written_cons_plain by done. cbn [own_prop]. by rewrite IH.
Qed.

(** A mapping that is no marker is rebuilt property by property: the result
    has the names of the input other than [__proto__], in the input's order,
    and under each the resolution of the input's value. *)
Lemma resolveRefs_object_valuewise fuel record spec seen r seen' :
  ref_of record = None →
  resolveRefs fuel (VObj record) spec seen = Some (r, seen') →
  ∃ props', r = VObj props' ∧
    (∀ k, k ∈ keys props' ↔ k ∈ keys record ∧ k ≠ "__proto__") ∧
    (NoDup (keys record) →
       keys props' = List.filter (λ k, negb (bool_decide (k = "__proto__"))) (keys record) ∧
       ∀ i k x, record !! i = Some (k, x) →
         ∃ y si si', seen ⊆ si ∧ si' ⊆ seen' ∧ resolveRefs fuel x spec si = Some (y, si') ∧
           (k ≠ "__proto__" → own_prop props' k = Some y)).
Proof.
  intros Href Hr.
  destruct (resolveRefs_object _ _ _ _ _ _ Href Hr) as (fuel' & props' & -> & -> & Hloop).
  exists props'. split_and!; [done| |].
  - intros k. rewrite (entries_loop_keys _ _ _ _ _ _ Hloop k).
    rewrite (elem_of_nil k). tauto.
  - intros Hnd. rewrite entries_loop_nodup in Hloop by done.
    destruct (array_map _ (vals record) seen) as [[ys s1]|] eqn:Hmap; [|done].
    simpl in Hloop. injection Hloop as <- <-.
    pose proof (array_map_length _ _ _ _ _ Hmap) as Hlen.
    assert (length (vals record) = length (keys record)) as Hkv
      by (unfold vals, keys; by rewrite !length_fmap).
    split; [apply keys_written_zip; lia|].
    intros i k x Hi.
    assert (vals record !! i = Some x) as Hvi
      by (unfold vals; by rewrite list_lookup_fmap, Hi).
    assert (keys record !! i = Some k) as Hki
      by (unfold keys; by rewrite list_lookup_fmap, Hi).
    destruct (array_map_elem_states _ _ _ _ _ _ _
                (λ x s y t _, resolveRefs_seen_mono fuel' x spec s y t) Hmap Hvi)
      as (y & si & si' & Hy & Hf & Hsi & Hsi').
    exists y, si, si'. split_and!; [done|done| |].
    + eapply resolveRefs_fuel_mono; [|exact Hf]. lia.
    + intros Hk. rewrite own_prop_written by done. by apply (own_prop_zip _ _ i).
Qed.

(** C3. A mapping that is no marker is rebuilt by assigning each of its
    properties to a fresh object, and the assignment to the name [__proto__]
    creates no property: of [{type, __proto__, title}] the resolver returns
    [{type, title}]. The value under [__proto__] is resolved all the same:
    its reference string is in [seen] afterwards. *)
Theorem resolveRefs_loses_a_key :
  ref_of proto_record = None ∧
  NoDup (keys proto_record) ∧
  resolveRefs 3 (VObj proto_record) chain_doc []
    = Some (VObj [("type", VStr "object"); ("title", VStr "t")], ["#/b"]) ∧
  keys [("type", VStr "object"); ("title", VStr "t")] ≠ keys proto_record.
Proof.
  split_and!; [reflexivity| |reflexivity|discriminate].
  apply (bool_decide_unpack _). vm_compute. exact I.
Qed.

(** ** Targets that do not exist *)

Lemma lookup_path_app spec parts1 parts2 :
  lookup_path spec (parts1 ++ parts2) = lookup_path (lookup_path spec parts1) parts2.
Proof. apply fold_left_app. Qed.

Lemma lookup_path_undefined parts : lookup_path VUndefined parts = VUndefined.
Proof. induction parts as [|p ps IH]; [done|]. exact IH. Qed.

Lemma lookup_path_miss spec parts n :
  lookup_path spec (take n parts) = VUndefined → lookup_path spec parts = VUndefined.
Proof.
  intros H. rewrite <- (take_drop n parts), lookup_path_app, H.
  apply lookup_path_undefined.
Qed.

(** ** What makes a marker *)

(** C10. A mapping whose [$ref] holds a number is resolved as an ordinary
    mapping, and an ordinary mapping does not keep all its keys: of
    [{$ref: 7, __proto__: "x", b: 2}] the resolver returns
    [{$ref: 7, b: 2}], whatever the document and [seen]. *)
Theorem untyped_ref_mapping_loses_a_key :
  ref_of untyped_proto_record = None ∧
  (∀ spec seen,
      resolveRefs 3 (VObj untyped_proto_record) spec seen
        = Some (VObj [("$ref", VNum 7); ("b", VNum 2)], seen)) ∧
  "__proto__" ∈ keys untyped_proto_record ∧
  "__proto__" ∉ keys [("$ref", VNum 7); ("b", VNum 2)].
Proof.
  split_and!; [reflexivity|reflexivity| |];
    apply (bool_decide_unpack _); vm_compute; exact I.
Qed.

(** ** One [seen] set for all the branches of a call *)






Lemma resolveRefs_chain fuel spec recA recB refA refB c :
  ref_of recA = Some refA → lookup_path spec (ref_parts refA) = VObj recB →
  ref_of recB = Some refB → lookup_path spec (ref_parts refB) = c →
  is_scalar c = true → 3 ≤ fuel →
  resolveRefs fuel (VObj recA) spec [] = Some (c, [refA; refB]).
Proof.
  intros HA HtA HB HtB Hc Hfuel.
  assert (refA ≠ refB) as Hne.
  { intros ->. rewrite HtA in HtB. by subst c. }
  destruct fuel as [|[|[|fuel]]]; try lia.
  rewrite (resolveRefs_marker _ _ _ _ _ HA).
  assert (has [] refA = false) as -> by (apply has_false, not_elem_of_nil).
  rewrite HtA, (resolveRefs_marker _ _ _ _ _ HB).
  assert (add [] refA = [refA]) as -> by (apply add_fresh, not_elem_of_nil).
  assert (has [refA] refB = false) as ->.
  { apply has_false. rewrite list_elem_of_singleton. congruence. }
  assert (add [refA] refB = [refA; refB]) as ->.
  { apply add_fresh. rewrite list_elem_of_singleton. congruence. }
  rewrite HtB. by apply resolveRefs_scalar.
Qed.


(** ** The matcher against the description of the patterns *)

Lemma run_after d s : run_of d s ++ after_run d s = s.
Proof.
  induction s as [|c s IH]; simpl; [done|]. case_decide; simpl; [done|]. by rewrite IH.
Qed.

Lemma run_of_not_in d s : d ∉ run_of d s.
Proof.
  induction s as [|c s IH]; simpl; [apply not_elem_of_nil|].
  case_decide; [apply not_elem_of_nil|]. rewrite not_elem_of_cons. split; [congruence|done].
Qed.

Lemma after_run_head d s c rest : after_run d s = c :: rest → c = d.
Proof.
  induction s as [|c0 s IH]; simpl; [done|]. case_decide; [|done]. congruence.
Qed.

(** A run that is followed by the end or by [d] is the longest one. *)
Lemma run_of_app d x rest :
  d ∉ x → (∀ c rest', rest = c :: rest' → c = d) →
  run_of d (x ++ rest) = x ∧ after_run d (x ++ rest) = rest.
Proof.
  intros Hx Hrest. induction x as [|c x IH]; simpl.
  - destruct rest as [|c rest']; [done|]. rewrite (Hrest c rest' eq_refl).
    simpl. by rewrite !decide_True.
  - apply not_elem_of_cons in Hx as [Hc Hx]. rewrite !decide_False by congruence.
    destruct (IH Hx) as [-> ->]. done.
Qed.

Lemma accepts_Not d c : accepts (Not d) c = bool_decide (c ≠ d).
Proof. simpl. by destruct (decide (c = d)); [rewrite bool_decide_true, bool_decide_false by tauto | rewrite bool_decide_false, bool_decide_true]. Qed.

(** A [+] over [[^d]] whose continuation fails unless [d] comes next takes
    the whole run. *)
Lemma plus_match_then {R} d (cont : list ascii → list ascii → option R) taken s :
  (∀ txt, cont txt [] = None) →
  (∀ txt c rest, c ≠ d → cont txt (c :: rest) = None) →
  plus_match (Not d) cont taken s =
    if decide (run_of d s = []) then None else cont (taken ++ run_of d s) (after_run d s).
Proof.
  intros Hnil Hcons. revert taken. induction s as [|c s IH]; intros taken; [done|].
  cbn [plus_match run_of after_run]. rewrite accepts_Not.
  destruct (decide (c = d)) as [->|Hc].
  - by rewrite bool_decide_false by tauto.
  - rewrite bool_decide_true by done. rewrite IH.
    rewrite (decide_False (P := c :: run_of d s = [])) by done.
    rewrite <- app_assoc. simpl.
    destruct (decide (run_of d s = [])) as [Hrun|Hrun].
    + rewrite Hrun. pose proof (run_after d s) as Hs. rewrite Hrun in Hs. simpl in Hs.
      by rewrite Hs.
    + destruct (cont (taken ++ c :: run_of d s) (after_run d s)); [done|].
      destruct s as [|c' s']; [done|]. apply Hcons.
      simpl in Hrun. by case_decide.
Qed.

(** A [+] over [[^d]] whose continuation always succeeds takes the whole run. *)
Lemma plus_match_last d taken s :
  plus_match (Not d) (λ txt _, Some (Some txt)) taken s =
    if decide (run_of d s = []) then None else Some (Some (taken ++ run_of d s)).
Proof.
  revert taken. induction s as [|c s IH]; intros taken; [done|].
  cbn [plus_match run_of]. rewrite accepts_Not.
  destruct (decide (c = d)) as [->|Hc].
  - by rewrite bool_decide_false by tauto.
  - rewrite bool_decide_true by done. rewrite IH.
    rewrite (decide_False (P := c :: run_of d s = [])) by done.
    rewrite <- app_assoc. simpl.
    destruct (decide (run_of d s = [])) as [Hrun|Hrun]; [by rewrite Hrun|done].
Qed.

Lemma match_here_literal l p cap s :
  match_here (map (λ c, One (Lit c)) l ++ p) cap s =
    match strip_prefix l s with
    | Some s' => match_here p cap s'
    | None => None
    end.
Proof.
  revert s. induction l as [|c l IH]; intros s; simpl; [done|].
  destruct s as [|d s]; [done|].
  destruct (decide (d = c)) as [->|Hd].
  - by rewrite bool_decide_true.
  - by rewrite bool_decide_false.
Qed.

Lemma strip_prefix_Some l s s' : strip_prefix l s = Some s' ↔ s = l ++ s'.
Proof.
  revert s. induction l as [|c l IH]; intros s; simpl.
  - split; congruence.
  - destruct s as [|d s]; [done|]. case_decide as Hd.
    + subst. rewrite IH. split; congruence.
    + split; [done|]. congruence.
Qed.

(** The pattern at the start of [s], computed without backtracking. *)
Lemma match_here_placeholder root s :
  match_here (placeholder_pattern root) None s =
    match strip_prefix (chars ("/" +:+ root +:+ "/{")) s with
    | Some s1 =>
        if decide (run_of "}" s1 = []) then None
        else match strip_prefix (chars "}/") (after_run "}" s1) with
             | Some s2 =>
                 if decide (run_of "/" s2 = []) then None else Some (Some (run_of "/" s2))
             | None => None
             end
    | None => None
    end.
Proof.
  unfold placeholder_pattern, literal. rewrite match_here_literal.
  destruct (strip_prefix _ s) as [s1|]; [|done].
  cbn [app match_here]. rewrite plus_match_then.
  - destruct (decide (run_of "}" s1 = [])); [done|].
    change (match_here (map (λ c, One (Lit c)) (chars "}/") ++ [Group (Not "/"%char)]) None
              (after_run "}" s1) = 
            match strip_prefix (chars "}/") (after_run "}" s1) with
            | Some s2 =>
                if decide (run_of "/" s2 = []) then None else Some (Some (run_of "/" s2))
            | None => None
            end).
    rewrite match_here_literal. destruct (strip_prefix _ (after_run "}" s1)) as [s2|]; [|done].
    cbn [match_here]. by rewrite plus_match_last.
  - done.
  - intros txt c rest Hc. simpl. by rewrite bool_decide_false.
Qed.

Lemma match_here_occurs root s seg :
  match_here (placeholder_pattern root) None s = Some (Some seg) ↔ occurs_at root s [] seg.
Proof.
  rewrite match_here_placeholder. split.
  - destruct (strip_prefix _ s) as [s1|] eqn:H1; [|done].
    apply strip_prefix_Some in H1.
    destruct (decide (run_of "}" s1 = [])) as [|Hx]; [done|].
    destruct (strip_prefix _ (after_run "}" s1)) as [s2|] eqn:H2; [|done].
    apply strip_prefix_Some in H2.
    destruct (decide (run_of "/" s2 = [])) as [|Hseg]; [done|]. intros [= <-].
    exists (run_of "}" s1), (after_run "/" s2). split_and!.
    + by rewrite app_nil_l, (run_after "/" s2), <- H2, run_after.
    + done.
    + apply run_of_not_in.
    + done.
    + apply run_of_not_in.
    + intros c rest'. apply after_run_head.
  - intros (x & rest & Hs & Hx & Hx' & Hseg & Hseg' & Hrest). rewrite app_nil_l in Hs.
    rewrite (proj2 (strip_prefix_Some _ s (x ++ chars "}/" ++ seg ++ rest))) by done.
    destruct (run_of_app "}" x (chars "}/" ++ seg ++ rest) Hx') as [-> ->].
    { by intros c rest' [= <- _]. }
    rewrite decide_False by done.
    rewrite (proj2 (strip_prefix_Some _ _ (seg ++ rest))) by done.
    destruct (run_of_app "/" seg rest Hseg' Hrest) as [-> _].
    by rewrite decide_False.
Qed.

Lemma match_here_group root s : match_here (placeholder_pattern root) None s ≠ Some None.
Proof.
  rewrite match_here_placeholder. repeat case_match; congruence.
Qed.

Lemma occurs_at_shift root pre suf seg :
  occurs_at root (pre ++ suf) pre seg ↔ occurs_at root suf [] seg.
Proof.
  unfold occurs_at. split; intros (x & rest & Hs & H); exists x, rest; (split; [|done]).
  - by apply app_inv_head in Hs.
  - by rewrite Hs.
Qed.

Lemma occurs_at_split root path pre seg :
  occurs_at root path pre seg → ∃ suf, path = pre ++ suf.
Proof. intros (x & rest & -> & _). eauto. Qed.

Lemma re_search_Some p s cap :
  re_search p s = Some cap →
  ∃ pre suf, s = pre ++ suf ∧ match_here p None suf = Some cap ∧
    ∀ pre' suf', s = pre' ++ suf' → length pre' < length pre → match_here p None suf' = None.
Proof.
  induction s as [|c s IH]; simpl.
  - destruct (match_here p None []) as [cap'|] eqn:E; [|done]. intros [= <-].
    exists [], []. split_and!; [done|done|]. simpl; lia.
  - destruct (match_here p None (c :: s)) as [cap'|] eqn:E.
    + intros [= <-]. exists [], (c :: s). split_and!; [done|done|]. simpl; lia.
    + intros (pre & suf & -> & Hm & Hmin)%IH. exists (c :: pre), suf.
      split_and!; [done|done|]. intros [|c' pre'] suf'; simpl.
      * intros <- _. done.
      * intros [= <- Hs] Hlen. apply (Hmin pre' suf'); [done|lia].
Qed.

Lemma re_search_None p s :
  re_search p s = None → ∀ pre suf, s = pre ++ suf → match_here p None suf = None.
Proof.
  induction s as [|c s IH]; simpl.
  - destruct (match_here p None []) eqn:E; [done|]. intros _ [|] suf; [|done].
    simpl. by intros <-.
  - destruct (match_here p None (c :: s)) eqn:E; [done|]. intros H [|c' pre] suf; simpl.
    + by intros <-.
    + intros [= <- Hs]. by apply (IH H pre suf).
Qed.

Lemma re_search_first root path seg :
  first_segment root path seg → re_search (placeholder_pattern root) path = Some (Some seg).
Proof.
  intros (pre & Hocc & Hmin).
  destruct (occurs_at_split _ _ _ _ Hocc) as [suf ->].
  pose proof (proj2 (match_here_occurs root suf seg) (proj1 (occurs_at_shift _ _ _ _) Hocc))
    as Hsuf.
  destruct (re_search _ (pre ++ suf)) as [cap|] eqn:E.
  - destruct (re_search_Some _ _ _ E) as (pre0 & suf0 & Hs & Hm & Hmin0).
    destruct (decide (length pre0 = length pre)) as [Hlen|Hlen].
    + apply app_inj_1 in Hs as [-> ->]; [|done]. congruence.
    + exfalso. destruct cap as [seg0|]; [|by eapply match_here_group].
      apply match_here_occurs, (occurs_at_shift root pre0) in Hm. rewrite <- Hs in Hm.
      apply Hmin in Hm.
      assert (length pre < length pre0) as Hlt by lia.
      specialize (Hmin0 pre suf eq_refl Hlt). congruence.
  - pose proof (re_search_None _ _ E pre suf eq_refl). congruence.
Qed.

Lemma re_search_absent root path :
  ¬ occurs root path → re_search (placeholder_pattern root) path = None.
Proof.
  intros Hno. destruct (re_search _ path) as [cap|] eqn:E; [|done]. exfalso.
  destruct (re_search_Some _ _ _ E) as (pre & suf & -> & Hm & _).
  destruct cap as [seg|]; [|by eapply match_here_group].
  apply Hno. exists pre, seg. by apply occurs_at_shift, match_here_occurs.
Qed.

Lemma re_search_occurs root path seg :
  re_search (placeholder_pattern root) path = Some (Some seg) → first_segment root path seg.
Proof.
  intros (pre & suf & -> & Hm & Hmin)%re_search_Some. exists pre. split.
  - by apply occurs_at_shift, match_here_occurs.
  - intros pre' seg' Hocc. destruct (decide (length pre ≤ length pre')); [done|]. exfalso.
    destruct (occurs_at_split _ _ _ _ Hocc) as [suf' Hs]. rewrite Hs in Hocc.
    apply occurs_at_shift, match_here_occurs in Hocc.
    rewrite (Hmin pre' suf' Hs) in Hocc; [done|lia].
Qed.

(** C6. [extractProduct] tries the accounts pattern first and the zones
    pattern second. When [/accounts/{x}/seg] occurs in the path, the result is
    the segment of its leftmost occurrence; when it does not occur and
    [/zones/{x}/seg] does, the result is the segment of the leftmost
    occurrence of that; when neither occurs there is no product. Every
    product comes from one of the two. The three paths of the
    specification give [workers], [dns_records] and no product. *)
Theorem extractProduct_patterns :
  (∀ path seg,
      first_segment "accounts" (chars path) seg → extractProduct path = Some (text seg))
  ∧ (∀ path seg,
      ¬ occurs "accounts" (chars path) → first_segment "zones" (chars path) seg →
      extractProduct path = Some (text seg))
  ∧ (∀ path,
      ¬ occurs "accounts" (chars path) → ¬ occurs "zones" (chars path) →
      extractProduct path = None)
  ∧ (∀ path product,
      extractProduct path = Some product →
      ∃ seg, product = text seg ∧
        (first_segment "accounts" (chars path) seg ∨
         ¬ occurs "accounts" (chars path) ∧ first_segment "zones" (chars path) seg))
  ∧ extractProduct "/accounts/{account_id}/workers/scripts" = Some "workers"
  ∧ extractProduct "/zones/{zone_id}/dns_records" = Some "dns_records"
  ∧ extractProduct "/user/tokens" = None.
Proof.
  unfold extractProduct, re_accounts, re_zones. split_and!; try reflexivity.
  - intros path seg H. by rewrite (re_search_first _ _ _ H).
  - intros path seg Hno H. by rewrite (re_search_absent _ _ Hno), (re_search_first _ _ _ H).
  - intros path Hno Hno'. by rewrite (re_search_absent _ _ Hno), (re_search_absent _ _ Hno').
  - intros path product.
    destruct (re_search (placeholder_pattern "accounts") (chars path)) as [[seg|]|] eqn:Ea.
    + intros [= <-]. exists seg. split; [done|]. left. by apply re_search_occurs.
    + done.
    + destruct (re_search (placeholder_pattern "zones") (chars path)) as [[seg|]|] eqn:Ez;
        [|done|done].
      intros [= <-]. exists seg. split; [done|]. right. split.
      * intros (pre & seg' & Hocc). destruct (occurs_at_split _ _ _ _ Hocc) as [suf Hs].
        rewrite Hs in Hocc. apply occurs_at_shift, match_here_occurs in Hocc.
        by rewrite (re_search_None _ _ Ea pre suf Hs) in Hocc.
      * by apply re_search_occurs.
Qed.

Lemma extractProduct_patterns_witness :
  extractProduct "/accounts/{account_id}/workers/scripts" = Some (text (chars "workers")).
Proof.
  apply (proj1 extractProduct_patterns "/accounts/{account_id}/workers/scripts"
           (chars "workers")).
  exists []. split.
  - exists (chars "account_id"), (chars "/scripts"). split_and!.
    + reflexivity.
    + discriminate.
    + apply (bool_decide_unpack _). vm_compute. exact I.
    + discriminate.
    + apply (bool_decide_unpack _). vm_compute. exact I.
    + intros c rest' [= <- _]. reflexivity.
  - intros pre' seg' _. simpl. lia.
Defined.

(** ** A later property of an object sees the earlier ones' references *)


(** ** Tags *)

Lemma text_nonempty seg : seg ≠ [] → text seg ≠ "".
Proof. by destruct seg. Qed.

Lemma extractProduct_nonempty path product :
  extractProduct path = Some product → product ≠ "".
Proof.
  unfold extractProduct, re_accounts, re_zones.
  destruct (re_search (placeholder_pattern "accounts") (chars path)) as [[seg|]|] eqn:Ea.
  - intros [= <-]. apply re_search_occurs in Ea as (pre & (x & rest & _ & _ & _ & Hseg & _) & _).
    by apply text_nonempty.
  - done.
  - destruct (re_search (placeholder_pattern "zones") (chars path)) as [[seg|]|] eqn:Ez;
      [|done|done].
    intros [= <-]. apply re_search_occurs in Ez as (pre & (x & rest & _ & _ & _ & Hseg & _) & _).
    by apply text_nonempty.
Qed.

Lemma extractProduct_truthy path product :
  extractProduct path = Some product → truthy (VStr product) = true.
Proof.
  intros H%extractProduct_nonempty. simpl. apply negb_true_iff. by apply String.eqb_neq.
Qed.

Lemma some_tag_matches_strings product ts :
  some_tag_matches product (VStr <$> ts) =
    Normal (bool_decide (Exists (λ t, same_ignoring_case t product) ts)).
Proof.
  induction ts as [|t ts IH].
  - by rewrite bool_decide_false by (by intros ?%Exists_nil).
  - change (some_tag_matches product (VStr <$> t :: ts))
      with (if decide (toLowerCase t = toLowerCase product) then Normal true
            else some_tag_matches product (VStr <$> ts)).
    case_decide as Ht.
    + by rewrite bool_decide_true by (by left).
    + rewrite IH. f_equal. apply bool_decide_ext. rewrite Exists_cons.
      unfold same_ignoring_case at 2. tauto.
Qed.

Lemma operation_tags_strings path op ts :
  has_tags op ts →
  operation_tags path op =
    Normal (VStr <$>
      match extractProduct path with
      | Some p =>
          if bool_decide (Exists (λ t, same_ignoring_case t p) ts) then ts else p :: ts
      | None => ts
      end).
Proof.
  intros Htags. unfold operation_tags.
  assert ((if truthy (get_prop op "tags") then spread (get_prop op "tags") else Normal [])
          = Normal (VStr <$> ts)) as ->.
  { destruct Htags as [->|[-> ->]]; done. }
  simpl. destruct (extractProduct path) as [p|] eqn:Ep; [|done].
  pose proof (extractProduct_truthy _ _ Ep) as Htruthy. simpl in Htruthy. rewrite Htruthy.
  rewrite some_tag_matches_strings. simpl. by case_bool_decide.
Qed.

(** The lower-casing of the code against the description of equality up to
    case. *)
Lemma lower_char_code c :
  N_of_ascii (lower_char c) =
    if ((65 <=? N_of_ascii c) && (N_of_ascii c <=? 90)
        || (192 <=? N_of_ascii c) && (N_of_ascii c <=? 222) && negb (N_of_ascii c =? 215))%N
    then (N_of_ascii c + 32)%N else N_of_ascii c.
Proof.
  unfold lower_char. pose proof (N_ascii_bounded c) as Hc.
  destruct ((65 <=? N_of_ascii c) && (N_of_ascii c <=? 90)
            || (192 <=? N_of_ascii c) && (N_of_ascii c <=? 222)
               && negb (N_of_ascii c =? 215))%N eqn:E; [|done].
  apply N_ascii_embedding.
  apply orb_true_iff in E as [E|E].
  - apply andb_true_iff in E as [_ E%N.leb_le]. lia.
  - apply andb_true_iff in E as [E _]. apply andb_true_iff in E as [_ E%N.leb_le]. lia.
Qed.

Lemma capital_code c :
  capital c ↔
  ((65 <=? N_of_ascii c) && (N_of_ascii c <=? 90)
   || (192 <=? N_of_ascii c) && (N_of_ascii c <=? 222) && negb (N_of_ascii c =? 215))%N = true.
Proof.
  unfold capital. cbv zeta.
  rewrite orb_true_iff, !andb_true_iff, negb_true_iff, !N.leb_le, N.eqb_neq. tauto.
Qed.

Lemma N_of_ascii_inj a b : N_of_ascii a = N_of_ascii b → a = b.
Proof. intros H. by rewrite <- (ascii_N_embedding a), <- (ascii_N_embedding b), H. Qed.

Lemma lower_char_same_letter a b : lower_char a = lower_char b ↔ same_letter a b.
Proof.
  unfold same_letter, small_of. rewrite !capital_code.
  split.
  - intros H%(f_equal N_of_ascii). rewrite !lower_char_code in H.
    destruct ((65 <=? N_of_ascii a) && (N_of_ascii a <=? 90)
              || (192 <=? N_of_ascii a) && (N_of_ascii a <=? 222)
                 && negb (N_of_ascii a =? 215))%N eqn:Ea;
      destruct ((65 <=? N_of_ascii b) && (N_of_ascii b <=? 90)
                || (192 <=? N_of_ascii b) && (N_of_ascii b <=? 222)
                   && negb (N_of_ascii b =? 215))%N eqn:Eb.
    + left. apply N_of_ascii_inj. lia.
    + right. left. split; [done|]. lia.
    + right. right. split; [done|]. lia.
    + left. by apply N_of_ascii_inj.
  - intros [->|[[Ha Hab]|[Hb Hba]]]; [done| |]; apply N_of_ascii_inj;
      rewrite !lower_char_code.
    + rewrite Ha.
      destruct ((65 <=? N_of_ascii b) && (N_of_ascii b <=? 90)
                || (192 <=? N_of_ascii b) && (N_of_ascii b <=? 222)
                   && negb (N_of_ascii b =? 215))%N eqn:Eb; [|lia].
      exfalso. apply capital_code in Ha, Eb. unfold capital in Ha, Eb. cbv zeta in Ha, Eb. lia.
    + rewrite Hb.
      destruct ((65 <=? N_of_ascii a) && (N_of_ascii a <=? 90)
                || (192 <=? N_of_ascii a) && (N_of_ascii a <=? 222)
                   && negb (N_of_ascii a =? 215))%N eqn:Ea; [|lia].
      exfalso. apply capital_code in Hb, Ea. unfold capital in Hb, Ea. cbv zeta in Hb, Ea. lia.
Qed.

Lemma toLowerCase_equal_up_to_case s t :
  toLowerCase s = toLowerCase t ↔ equal_up_to_case s t.
Proof.
  revert t. induction s as [|a s IH]; intros [|b t]; cbn [toLowerCase equal_up_to_case];
    try (split; [discriminate|done]); [done|].
  rewrite <- IH, <- lower_char_same_letter. split; [by intros [= -> ->]|by intros [-> ->]].
Qed.

(** C7. For an operation whose tags are the strings [ts] (or are missing),
    the tags written are [p :: ts] when the path has a product [p] and no tag
    of [ts] equals [p] up to case, and [ts] itself when the path has no
    product or some tag equals the product up to case. Equality up to case
    is that of [equal_up_to_case]: the same length and, at each position,
    the same letter in either case; it is what the comparison of the
    lower-cased strings decides. The record of the operation carries these
    tags. For [/zones/{zone_id}/dns_records] and the tag [DNS Records] the
    tags written are [dns_records] and [DNS Records]; with the tag
    [DNS_Records], which differs from the product in case only, nothing is
    put in front. *)
Theorem tags_enriched :
  (∀ path op ts,
      has_tags op ts →
      ∃ tags', operation_tags path op = Normal (VStr <$> tags') ∧
        ((∃ p, extractProduct path = Some p ∧
               (∀ t, t ∈ ts → ¬ equal_up_to_case t p) ∧ tags' = p :: ts) ∨
         ((extractProduct path = None ∨
           ∃ p t, extractProduct path = Some p ∧ t ∈ ts ∧ equal_up_to_case t p) ∧
          tags' = ts)))
  ∧ (∀ path op spec entry,
      operation_entry path op spec = Normal entry →
      ∃ tags, operation_tags path op = Normal tags ∧ get_prop entry "tags" = VArr tags)
  ∧ (∀ s t, toLowerCase s = toLowerCase t ↔ equal_up_to_case s t)
  ∧ operation_tags "/zones/{zone_id}/dns_records" (VObj [("tags", VArr [VStr "DNS Records"])])
      = Normal [VStr "dns_records"; VStr "DNS Records"]
  ∧ operation_tags "/zones/{zone_id}/dns_records"
      (VObj [("tags", VArr [VStr "zone"; VStr "DNS_Records"])])
      = Normal [VStr "zone"; VStr "DNS_Records"].
Proof.
  split_and!; [| |apply toLowerCase_equal_up_to_case|reflexivity|reflexivity].
  - intros path op ts Htags. rewrite (operation_tags_strings _ _ _ Htags).
    destruct (extractProduct path) as [p|] eqn:Ep.
    + case_bool_decide as Hex.
      * exists ts. split; [done|]. right. split; [|done]. right.
        apply Exists_exists in Hex as (t & Ht & Hsame). exists p, t.
        split_and!; [done|done|]. by apply toLowerCase_equal_up_to_case.
      * exists (p :: ts). split; [done|]. left. exists p. split_and!; [done| |done].
        intros t Ht Hsame. apply Hex, Exists_exists. exists t. split; [done|].
        by apply toLowerCase_equal_up_to_case.
    + exists ts. split; [done|]. right. split; [by left|done].
  - intros path op spec entry. unfold operation_entry.
    destruct (operation_tags path op) as [tags|]; [|done]. cbn [cbind].
    intros [= <-]. by exists tags.
Qed.

Lemma tags_enriched_witness :
  ∃ tags', operation_tags "/zones/{zone_id}/dns_records"
             (VObj [("tags", VArr [VStr "zone"; VStr "DNS_Records"])])
           = Normal (VStr <$> tags') ∧
    ((∃ p, extractProduct "/zones/{zone_id}/dns_records" = Some p ∧
           (∀ t, t ∈ ["zone"; "DNS_Records"] → ¬ equal_up_to_case t p) ∧
           tags' = p :: ["zone"; "DNS_Records"]) ∨
     ((extractProduct "/zones/{zone_id}/dns_records" = None ∨
       ∃ p t, extractProduct "/zones/{zone_id}/dns_records" = Some p ∧
              t ∈ ["zone"; "DNS_Records"] ∧ equal_up_to_case t p) ∧
      tags' = ["zone"; "DNS_Records"])).
Proof.
  apply (proj1 tags_enriched "/zones/{zone_id}/dns_records"
           (VObj [("tags", VArr [VStr "zone"; VStr "DNS_Records"])]) ["zone"; "DNS_Records"]).
  left. reflexivity.
Defined.

(** ** Methods *)

Lemma own_prop_set_eq props k v : own_prop (set_prop props k v) k = Some v.
Proof.
  induction props as [|[k' v'] rest IH]; simpl.
  - by rewrite decide_True.
  - case_decide as Hk; simpl; [by rewrite decide_True|]. by rewrite decide_False.
Qed.

Lemma own_prop_set_ne props k v k' : k ≠ k' → own_prop (set_prop props k v) k' = own_prop props k'.
Proof.
  intros Hne. induction props as [|[k0 v0] rest IH]; simpl.
  - by rewrite decide_False.
  - case_decide as Hk; simpl.
    + subst. by rewrite !decide_False.
    + case_decide; [done|]. exact IH.
Qed.

Lemma operation_entry_typed path op spec ts :
  has_tags op ts → ∃ entry, operation_entry path op spec = Normal entry.
Proof.
  intros Htags. unfold operation_entry. rewrite (operation_tags_strings _ _ _ Htags).
  simpl. eauto.
Qed.

Lemma methods_loop_keys methods path pathItem spec record record' :
  NoDup (keys record ++ methods) →
  methods_loop methods path pathItem spec record = Normal record' →
  keys record' = keys record ++ List.filter (present pathItem) methods ∧
  ∀ m entry, (m, entry) ∈ record' →
    (m, entry) ∈ record ∨ operation_entry path (get_prop pathItem m) spec = Normal entry.
Proof.
  revert record. induction methods as [|m rest IH]; intros record Hnd; simpl.
  - intros [= <-]. rewrite app_nil_r. split; [done|]. intros m entry ?. by left.
  - apply NoDup_app in Hnd as (Hrec & Hdisj & [Hm Hrest]%NoDup_cons).
    unfold present at 1. destruct (truthy (get_prop pathItem m)) eqn:Hop.
    + destruct (operation_entry path (get_prop pathItem m) spec) as [entry|] eqn:He; [|done].
      simpl. intros Hloop.
      assert (m ∉ keys record) as Hfresh by (intros Hin; apply (Hdisj _ Hin); left).
      rewrite set_prop_fresh in Hloop by done.
      destruct (IH (record ++ [(m, entry)])) as [Hkeys Hentries]; [|done|].
      { rewrite keys_app, <- app_assoc. simpl. apply NoDup_app. split_and!; [done| |].
        - intros k Hk. by apply Hdisj.
        - by apply NoDup_cons. }
      split.
      * rewrite Hkeys, keys_app, <- app_assoc. done.
      * intros m' entry' Hin. destruct (Hentries _ _ Hin) as [Hold|?]; [|by right].
        apply elem_of_app in Hold as [?|Hnew]; [by left|].
        apply list_elem_of_singleton in Hnew as [= -> ->]. by right.
    + intros Hloop. destruct (IH record) as [Hkeys Hentries]; [|done|done].
      apply NoDup_app. split_and!; [done| |done].
      intros k Hk Hin. apply (Hdisj _ Hk). by right.
Qed.

Lemma own_prop_assign_ne props k v k' :
  k ≠ k' → own_prop (assign props k v) k' = own_prop props k'.
Proof. intros Hne. unfold assign. case_decide; [done|]. by apply own_prop_set_ne. Qed.

Lemma own_prop_assign_eq props k v :
  k ≠ "__proto__" → own_prop (assign props k v) k = Some v.
Proof. intros Hk. rewrite assign_plain by done. apply own_prop_set_eq. Qed.

Lemma own_prop_assign_proto props k v :
  own_prop (assign props k v) "__proto__" = own_prop props "__proto__".
Proof.
  destruct (decide (k = "__proto__")) as [->|Hne]; [done|]. by apply own_prop_assign_ne.
Qed.

Lemma paths_loop_preserves entries spec paths paths' k :
  paths_loop entries spec paths = Normal paths' → k ∉ keys entries →
  own_prop paths' k = own_prop paths k.
Proof.
  revert paths. induction entries as [|[path pathItem] rest IH]; intros paths;
    cbn [paths_loop].
  - by intros [= <-].
  - rewrite keys_cons, not_elem_of_cons. intros Hloop [Hne Hnot].
    destruct (truthy pathItem).
    + destruct (methods_loop HTTP_METHODS path pathItem spec []) as [record|];
        [|discriminate Hloop].
      cbn [cbind] in Hloop. rewrite (IH _ Hloop Hnot). apply own_prop_assign_ne. congruence.
    + by apply IH.
Qed.

(** No record is written under the name [__proto__]. *)
Lemma paths_loop_proto entries spec paths paths' :
  paths_loop entries spec paths = Normal paths' →
  own_prop paths' "__proto__" = own_prop paths "__proto__".
Proof.
  revert paths. induction entries as [|[path pathItem] rest IH]; intros paths;
    cbn [paths_loop].
  - by intros [= <-].
  - destruct (truthy pathItem); [|by apply IH].
    destruct (methods_loop HTTP_METHODS path pathItem spec []) as [record|]; [|done].
    cbn [cbind]. intros Hloop. rewrite (IH _ Hloop). apply own_prop_assign_proto.
Qed.

Lemma paths_loop_entry entries spec paths paths' path pathItem :
  NoDup (keys entries) → paths_loop entries spec paths = Normal paths' →
  (path, pathItem) ∈ entries → truthy pathItem = true → path ≠ "__proto__" →
  ∃ record, own_prop paths' path = Some (VObj record) ∧
    methods_loop HTTP_METHODS path pathItem spec [] = Normal record.
Proof.
  revert paths. induction entries as [|[path0 item0] rest IH];
    intros paths Hnd Hloop Hin Hitem Hplain.
  - by apply elem_of_nil in Hin.
  - rewrite keys_cons in Hnd. apply NoDup_cons in Hnd as [Hfresh Hnd].
    cbn [paths_loop] in Hloop.
    apply elem_of_cons in Hin as [[= <- <-]|Hin].
    + rewrite Hitem in Hloop.
      destruct (methods_loop HTTP_METHODS path pathItem spec []) as [record|];
        [|discriminate Hloop].
      cbn [cbind] in Hloop. exists record. split; [|done].
      rewrite (paths_loop_preserves _ _ _ _ _ Hloop Hfresh). by apply own_prop_assign_eq.
    + destruct (truthy item0).
      * destruct (methods_loop HTTP_METHODS path0 item0 spec []) as [record0|];
          [|discriminate Hloop].
        cbn [cbind] in Hloop. by eapply IH.
      * by eapply IH.
Qed.

Lemma HTTP_METHODS_NoDup : NoDup (keys [] ++ HTTP_METHODS).
Proof. apply (bool_decide_unpack _). vm_compute. exact I. Qed.

Lemma present_object props m :
  (∀ v, own_prop props m = Some v → ∃ o, v = VObj o) →
  present (VObj props) m = true ↔ m ∈ keys props.
Proof.
  intros Hobj. unfold present. simpl.
  destruct (own_prop props m) as [v|] eqn:Hv; simpl.
  - destruct (Hobj v eq_refl) as [o ->]. simpl. split; [intros _|done].
    apply own_prop_elem in Hv. unfold keys. apply list_elem_of_fmap. by exists (m, VObj o).
  - split; [done|]. intros Hin. by apply own_prop_None in Hv.
Qed.

(** The record of one path: its property names are those of the five
    methods that hold an operation, in the order of [HTTP_METHODS], and each
    holds the record of its operation. *)
Lemma methods_loop_record path pathItem spec record :
  methods_loop HTTP_METHODS path pathItem spec [] = Normal record →
  keys record = List.filter (present pathItem) HTTP_METHODS ∧
  (∀ m, m ∈ keys record ↔ m ∈ HTTP_METHODS ∧ present pathItem m = true) ∧
  (∀ m entry, (m, entry) ∈ record →
     operation_entry path (get_prop pathItem m) spec = Normal entry).
Proof.
  intros Hloop.
  destruct (methods_loop_keys _ _ _ _ _ _ HTTP_METHODS_NoDup Hloop) as [Hkeys Hentries].
  split_and!; [done| |].
  - intros m. rewrite Hkeys.
    change (keys [] ++ List.filter (present pathItem) HTTP_METHODS)
      with (List.filter (present pathItem) HTTP_METHODS).
    rewrite list_elem_of_In, filter_In, <- list_elem_of_In. done.
  - intros m entry Hin. destruct (Hentries _ _ Hin) as [Hnil|?]; [|done].
    by apply elem_of_nil in Hnil.
Qed.


(** ** Fresh sets for the three fields of an operation *)

Lemma resolve_spec obj spec :
  ∃ seen', ∀ fuel, fuel_bound obj spec ≤ fuel →
    resolveRefs fuel obj spec [] = Some (resolve obj spec, seen').
Proof.
  destruct (resolveRefs_fuel_bound obj spec []) as (r & seen' & Hr & _).
  exists seen'. intros fuel Hle. unfold resolve, resolveRefs_fresh. rewrite Hr. simpl.
  by eapply resolveRefs_fuel_mono.
Qed.



(** ** The product list *)

Lemma insert_sorted_perm x l : insert_sorted x l ≡ₚ x :: l.
Proof.
  induction l as [|y l IH]; simpl; [done|]. destruct (String.leb x y); [done|].
  rewrite IH. apply Permutation_swap.
Qed.

Lemma js_sort_perm l : js_sort l ≡ₚ l.
Proof.
  induction l as [|x l IH]; simpl; [done|]. by rewrite insert_sorted_perm, IH.
Qed.

Lemma insert_sorted_sorted x l :
  Sorted (λ a b, String.leb a b = true) l → Sorted (λ a b, String.leb a b = true) (insert_sorted x l).
Proof.
  induction 1 as [|y l Hl IH Hhd]; simpl; [by repeat constructor|].
  destruct (String.leb x y) eqn:Hxy; [by repeat constructor|].
  constructor; [done|].
  assert (String.leb y x = true) as Hyx by (destruct (String.leb_total x y); congruence).
  destruct Hhd as [|z l Hyz]; simpl; [by constructor|].
  destruct (String.leb x z); by constructor.
Qed.

Lemma js_sort_sorted l : Sorted (λ a b, String.leb a b = true) (js_sort l).
Proof.
  induction l as [|x l IH]; simpl; [constructor|]. by apply insert_sorted_sorted.
Qed.

Lemma insert_by_perm {A} (cmp : A → A → Z) a l : insert_by cmp a l ≡ₚ a :: l.
Proof.
  induction l as [|b l IH]; simpl; [done|]. destruct (cmp a b <=? 0)%Z; [done|].
  rewrite IH. apply Permutation_swap.
Qed.

Lemma js_sort_by_perm {A} (cmp : A → A → Z) l : js_sort_by cmp l ≡ₚ l.
Proof.
  induction l as [|x l IH]; simpl; [done|]. by rewrite insert_by_perm, IH.
Qed.

(** A stable sort of a list that is in the order of [idx] leaves it in the
    order "first by [cmp], then by [idx]". *)
Section stable.
Variable idx : string → nat.

Let by_count_then_idx (a b : string * nat) : Prop :=
  b.2 < a.2 ∨ (a.2 = b.2 ∧ idx a.1 < idx b.1).

Lemma insert_by_count_sorted a l :
  StronglySorted by_count_then_idx l → Forall (λ b, idx a.1 < idx b.1) l →
  StronglySorted by_count_then_idx (insert_by by_count_desc a l).
Proof.
  induction 1 as [|b l Hl IH Hb]; intros Hidx; simpl; [by repeat constructor|].
  apply Forall_cons in Hidx as [Hab Hidx]. unfold by_count_desc at 1.
  destruct (Z.leb_spec (Z.of_nat b.2 - Z.of_nat a.2) 0) as [Hle|Hgt].
  - constructor; [by constructor|]. constructor.
    + unfold by_count_then_idx. lia.
    + rewrite Forall_forall in Hb, Hidx |- *. intros c Hc.
      specialize (Hb c Hc). specialize (Hidx c Hc). unfold by_count_then_idx in *. lia.
  - constructor; [by apply IH|].
    rewrite Forall_forall in Hb |- *. intros c Hc.
    rewrite (insert_by_perm by_count_desc a l) in Hc.
    apply elem_of_cons in Hc as [->|Hc]; [|by apply Hb].
    unfold by_count_then_idx. lia.
Qed.

Lemma js_sort_by_count_sorted l :
  StronglySorted (λ a b, idx a.1 < idx b.1) l →
  StronglySorted by_count_then_idx (js_sort_by by_count_desc l).
Proof.
  induction 1 as [|a l Hl IH Ha]; simpl; [constructor|].
  apply insert_by_count_sorted; [done|].
  rewrite Forall_forall in Ha |- *. intros b Hb. apply Ha.
  by rewrite <- (js_sort_by_perm by_count_desc l).
Qed.
End stable.

Lemma StronglySorted_lookup_lt {A} (R : relation A) l i j a b :
  StronglySorted R l → l !! i = Some a → l !! j = Some b → i < j → R a b.
Proof.
  intros Hl. revert i j. induction Hl as [|x l Hl IH Hx]; intros i j; [done|].
  destruct i as [|i], j as [|j]; simpl; try lia.
  - intros [= <-] Hb _. rewrite Forall_forall in Hx. apply Hx. by eapply list_elem_of_lookup_2.
  - intros Ha Hb Hij. apply (IH i j); [done|done|lia].
Qed.

Lemma map_get_set m k v p :
  map_get (map_set m k v) p = if decide (k = p) then Some v else map_get m p.
Proof.
  induction m as [|[k' n] rest IH]; simpl.
  - by destruct (decide (k = p)).
  - destruct (decide (k' = k)) as [->|Hk]; simpl.
    + by destruct (decide (k = p)).
    + rewrite IH. destruct (decide (k' = p)) as [->|]; [|done]. by rewrite decide_False.
Qed.

Lemma map_set_keys m k v :
  (map_set m k v).*1 = if decide (k ∈ m.*1) then m.*1 else m.*1 ++ [k].
Proof.
  induction m as [|[k' n] rest IH]; [done|]. cbn [map_set].
  destruct (decide (k' = k)) as [->|Hk].
  - rewrite decide_True by left. done.
  - csimpl. rewrite IH.
    destruct (decide (k ∈ rest.*1)) as [Hin|Hin].
    + rewrite decide_True by (by right). done.
    + rewrite decide_False; [done|]. rewrite not_elem_of_cons. split; [congruence|done].
Qed.

Lemma map_get_None m p : map_get m p = None ↔ p ∉ m.*1.
Proof.
  induction m as [|[k n] rest IH]; simpl.
  - split; [intros _; apply not_elem_of_nil|done].
  - rewrite not_elem_of_cons. case_decide as Hk.
    + split; [done|]. intros [Hne _]. congruence.
    + rewrite IH. split; [intros ?; split; [congruence|done]|tauto].
Qed.

Lemma map_get_elem m p n : NoDup m.*1 → (p, n) ∈ m ↔ map_get m p = Some n.
Proof.
  induction m as [|[k n'] rest IH]; simpl.
  - intros _. rewrite elem_of_nil. split; [done|discriminate].
  - csimpl. rewrite NoDup_cons. intros [Hk Hnd]. rewrite elem_of_cons.
    case_decide as Hkp.
    + subst. split; [|intros [= ->]; by left].
      intros [[= ->]|Hin]; [done|]. exfalso. apply Hk.
      apply list_elem_of_fmap. by exists (p, n).
    + rewrite <- (IH Hnd). split; [|by right]. intros [[= <- <-]|?]; [done|done].
Qed.

Lemma count_of_app p l1 l2 : count_of p (l1 ++ l2) = count_of p l1 + count_of p l2.
Proof. unfold count_of. by rewrite filter_app, length_app. Qed.

Lemma count_of_perm p l1 l2 : l1 ≡ₚ l2 → count_of p l1 = count_of p l2.
Proof. intros H. unfold count_of. by rewrite H. Qed.

Lemma count_of_pos p l : 0 < count_of p l ↔ ∃ path, path ∈ l ∧ extractProduct path = Some p.
Proof.
  unfold count_of. split.
  - destruct (filter _ l) as [|path rest] eqn:E; simpl; [lia|]. intros _. exists path.
    assert (path ∈ filter (λ path, extractProduct path = Some p) l) as Hin
      by (rewrite E; left).
    apply list_elem_of_filter in Hin. tauto.
  - intros (path & Hin & Hp).
    assert (path ∈ filter (λ path, extractProduct path = Some p) l) as Hf
      by (by apply list_elem_of_filter).
    destruct (filter _ l); [by apply elem_of_nil in Hf|simpl; lia].
Qed.

Lemma count_of_single p path :
  count_of p [path] = if decide (extractProduct path = Some p) then 1 else 0.
Proof.
  unfold count_of. rewrite filter_cons, filter_nil. by case_decide.
Qed.

Lemma first_seen_lt p l : 0 < count_of p l → first_seen p l < length l.
Proof.
  induction l as [|path rest IH]; simpl.
  - unfold count_of. simpl. lia.
  - case_decide as Hp; [lia|]. intros Hc.
    change (path :: rest) with ([path] ++ rest) in Hc.
    rewrite count_of_app, count_of_single, decide_False in Hc by done.
    specialize (IH Hc). lia.
Qed.

Lemma first_seen_app_in p l1 l2 :
  0 < count_of p l1 → first_seen p (l1 ++ l2) = first_seen p l1.
Proof.
  induction l1 as [|path rest IH]; simpl.
  - unfold count_of. simpl. lia.
  - case_decide as Hp; [done|]. intros Hc.
    change (path :: rest) with ([path] ++ rest) in Hc.
    rewrite count_of_app, count_of_single, decide_False in Hc by done.
    by rewrite IH.
Qed.

Lemma first_seen_app_fresh p l1 l2 :
  count_of p l1 = 0 → first_seen p (l1 ++ l2) = length l1 + first_seen p l2.
Proof.
  induction l1 as [|path rest IH]; simpl; [done|].
  intros Hc. change (path :: rest) with ([path] ++ rest) in Hc.
  rewrite count_of_app, count_of_single in Hc.
  case_decide as Hp; [lia|]. rewrite IH by done. done.
Qed.

Lemma StronglySorted_on {A} (R R' : relation A) l :
  (∀ a b, a ∈ l → b ∈ l → R a b → R' a b) → StronglySorted R l → StronglySorted R' l.
Proof.
  intros Himpl Hl. induction Hl as [|x l Hl IH Hx]; constructor.
  - apply IH. intros a b Ha Hb. apply Himpl; by right.
  - rewrite Forall_forall in Hx |- *. intros y Hy. apply Himpl; [left|by right|by apply Hx].
Qed.

(** The [products] map after the loop over [paths]: every product that some
    path has is a key, with the number of its paths; the keys are distinct
    and stand in the order in which the products were met first. *)
Lemma tally_spec paths :
  let products := fold_left count_path paths [] in
  (∀ p, map_get products p =
          if decide (count_of p paths = 0) then None else Some (count_of p paths)) ∧
  NoDup products.*1 ∧
  StronglySorted (λ p q, first_seen p paths < first_seen q paths) products.*1.
Proof.
  induction paths as [|path paths IH] using rev_ind.
  - simpl. split_and!; [done|constructor|constructor].
  - rewrite fold_left_app. cbn [fold_left]. cbn zeta in IH.
    set (products := fold_left count_path paths []) in *.
    destruct IH as (Hget & Hnd & Hord).
    assert (∀ p, p ∈ products.*1 → 0 < count_of p paths) as Hkeys.
    { intros p Hin. destruct (decide (count_of p paths = 0)) as [Hz|]; [|lia].
      exfalso. specialize (Hget p). rewrite decide_True in Hget by done.
      by apply map_get_None in Hget. }
    assert (StronglySorted
              (λ p q, first_seen p (paths ++ [path]) < first_seen q (paths ++ [path]))
              products.*1) as Hord'.
    { eapply StronglySorted_on; [|exact Hord]. intros p q Hp Hq.
      by rewrite !first_seen_app_in by auto. }
    unfold count_path. destruct (extractProduct path) as [p0|] eqn:Hp0.
    + rewrite (extractProduct_truthy _ _ Hp0). split_and!.
      * intros p. rewrite map_get_set, count_of_app, count_of_single, Hp0.
        destruct (decide (p0 = p)) as [->|Hne].
        -- rewrite (decide_True (P := Some p = Some p)) by done.
           rewrite (decide_False (P := count_of p paths + 1 = 0)) by lia.
           rewrite Hget. case_decide as Hz; simpl; [by rewrite Hz|done].
        -- rewrite (decide_False (P := Some p0 = Some p)) by congruence.
           rewrite Hget, Nat.add_0_r. done.
      * rewrite map_set_keys. case_decide as Hin; [done|].
        apply NoDup_app. split_and!; [done| |apply NoDup_singleton].
        intros q Hq ->%list_elem_of_singleton. done.
      * rewrite map_set_keys. case_decide as Hin; [done|].
        apply StronglySorted_app_2; [|done|repeat constructor].
        intros q p Hq ->%list_elem_of_singleton.
        rewrite first_seen_app_in by auto.
        assert (count_of p0 paths = 0) as Hz.
        { specialize (Hget p0). apply map_get_None in Hin. rewrite Hin in Hget.
          by case_decide. }
        rewrite (first_seen_app_fresh _ _ _ Hz). pose proof (first_seen_lt _ _ (Hkeys _ Hq)). lia.
    + split_and!; [|done|done].
      intros p. rewrite count_of_app, count_of_single, Hp0.
      rewrite (decide_False (P := None = Some p)) by done.
      by rewrite Hget, Nat.add_0_r.
Qed.

Lemma StronglySorted_fmap_inv {A B} (f : A → B) (R : relation B) l :
  StronglySorted R (f <$> l) → StronglySorted (λ a b, R (f a) (f b)) l.
Proof.
  induction l as [|x l IH]; csimpl; [constructor|].
  intros [Hx Hl]%StronglySorted_cons. constructor; [by apply IH|].
  rewrite Forall_fmap in Hx. exact Hx.
Qed.

Lemma product_list_entries ks :
  let pathKeys := js_sort ks in
  let sortedProducts := js_sort_by by_count_desc (fold_left count_path pathKeys []) in
  product_list ks = sortedProducts.*1 ∧
  NoDup sortedProducts.*1 ∧
  (∀ p n, (p, n) ∈ sortedProducts ↔ n = count_of p ks ∧ 0 < n) ∧
  StronglySorted
    (λ a b, b.2 < a.2 ∨ (a.2 = b.2 ∧ first_seen a.1 pathKeys < first_seen b.1 pathKeys))
    sortedProducts.
Proof.
  intros pathKeys sortedProducts.
  destruct (tally_spec pathKeys) as (Hget & Hnd & Hord).
  set (products := fold_left count_path pathKeys []) in *.
  assert (sortedProducts ≡ₚ products) as Hperm by apply js_sort_by_perm.
  split_and!.
  - done.
  - by rewrite Hperm.
  - intros p n. rewrite Hperm, (map_get_elem _ _ _ Hnd), Hget.
    rewrite (count_of_perm p pathKeys ks (js_sort_perm ks)).
    case_decide as Hz; split; try (intros [= <-]); try (intros [-> ?]); try done; try lia.
  - apply (js_sort_by_count_sorted (λ p, first_seen p pathKeys) products).
    exact (StronglySorted_fmap_inv fst
             (λ p q, first_seen p pathKeys < first_seen q pathKeys) products Hord).
Qed.

(** C9. The product list has no product twice; a product is in it exactly
    when some path key has it; of two products in the list, the one that
    stands first has more paths, or as many paths and was met first when the
    path keys were walked in sorted order; the sorted path keys are the path
    keys, rearranged so that each is at most the next in the order of the
    code units, and a product has as many paths among them as among the keys
    as given. [main] writes this list for the keys of [spec.paths]. For
    three paths with product a, five with b and one with c, the list is
    b, a, c. *)
Theorem product_list_ordered :
  (∀ ks, NoDup (product_list ks))
  ∧ (∀ ks p, p ∈ product_list ks ↔ ∃ path, path ∈ ks ∧ extractProduct path = Some p)
  ∧ (∀ ks i j p q,
      product_list ks !! i = Some p → product_list ks !! j = Some q → i < j →
      listed_before (js_sort ks) p q)
  ∧ (∀ ks, js_sort ks ≡ₚ ks ∧ Sorted (λ a b, String.leb a b = true) (js_sort ks) ∧
           ∀ p, count_of p (js_sort ks) = count_of p ks)
  ∧ (∀ spec props,
      member spec "paths" = Normal (VObj props) →
      main_products spec = Normal (product_list (keys props)))
  ∧ product_list counted_paths = ["b"; "a"; "c"].
Proof.
  split_and!; [| | | | |reflexivity].
  - intros ks. destruct (product_list_entries ks) as (-> & Hnd & _). done.
  - intros ks p. destruct (product_list_entries ks) as (-> & _ & Hin & _).
    rewrite <- count_of_pos. split.
    + intros ([p' n] & -> & Hpn)%list_elem_of_fmap. apply Hin in Hpn as [-> ?]. done.
    + intros Hpos. apply list_elem_of_fmap. exists (p, count_of p ks). split; [done|].
      by apply Hin.
  - intros ks i j p q Hi Hj Hij.
    destruct (product_list_entries ks) as (Heq & _ & Hin & Hsorted).
    rewrite Heq in Hi, Hj.
    apply list_lookup_fmap_Some in Hi as ([p' n] & -> & Hi).
    apply list_lookup_fmap_Some in Hj as ([q' m] & -> & Hj).
    pose proof (StronglySorted_lookup_lt _ _ _ _ _ _ Hsorted Hi Hj Hij) as Hlt.
    apply list_elem_of_lookup_2, Hin in Hi as [-> _].
    apply list_elem_of_lookup_2, Hin in Hj as [-> _].
    unfold listed_before. rewrite !(count_of_perm _ _ _ (js_sort_perm ks)).
    simpl in Hlt. done.
  - intros ks. split_and!; [apply js_sort_perm|apply js_sort_sorted|].
    intros p. apply count_of_perm, js_sort_perm.
  - intros spec props Hpaths. unfold main_products. rewrite Hpaths. done.
Qed.

Lemma product_list_ordered_witness : listed_before (js_sort counted_paths) "b" "a".
Proof.
  apply (proj1 (proj2 (proj2 product_list_ordered)) counted_paths 0 1 "b" "a");
    first [reflexivity | lia].
Defined.

(** * Further properties of the code *)

(** ** How [seen] changes over a call *)

Section steps.
Variable R : relation Seen.
Hypothesis R_refl : ∀ s, R s s.
Hypothesis R_trans : ∀ s t u, R s t → R t u → R s u.

Lemma array_map_steps (f : value → M value) items seen r s' :
  (∀ x s y t, x ∈ items → f x s = Some (y, t) → R s t) →
  array_map f items seen = Some (r, s') → R seen s'.
Proof.
  revert seen r. induction items as [|x xs IH]; intros seen r Hf; simpl.
  - by intros [= _ <-].
  - unfold bind, ret. destruct (f x seen) as [[y s1]|] eqn:Hy; [|done].
    destruct (array_map f xs s1) as [[ys s2]|] eqn:Hys; [|done]. intros [= _ <-].
    eapply R_trans; [eapply Hf; [left|done]|].
    eapply IH; [|done]. intros x' s y' t Hx'. apply Hf. by right.
Qed.

Lemma entries_loop_steps (f : value → M value) entries result seen r s' :
  (∀ k x s y t, (k, x) ∈ entries → f x s = Some (y, t) → R s t) →
  entries_loop f entries result seen = Some (r, s') → R seen s'.
Proof.
  revert result seen. induction entries as [|[k x] rest IH]; intros result seen Hf; simpl.
  - by intros [= _ <-].
  - unfold bind. destruct (f x seen) as [[y s1]|] eqn:Hy; [|done]. intros H.
    eapply R_trans; [eapply Hf; [left|done]|].
    eapply IH; [|done]. intros k' x' s y' t Hx'. eapply Hf. by right.
Qed.
End steps.

Lemma grows_within_refl universe s : grows_within universe s s.
Proof.
  exists []. rewrite app_nil_r. split_and!; [done| |constructor].
  intros z Hz. by apply elem_of_nil in Hz.
Qed.

Lemma grows_within_trans universe s t u :
  grows_within universe s t → grows_within universe t u → grows_within universe s u.
Proof.
  intros (n1 & -> & H1 & Hnd1) (n2 & -> & H2 & Hnd2). exists (n1 ++ n2).
  rewrite app_assoc. split_and!; [done| |].
  - intros z [Hz|Hz]%elem_of_app; [by apply H1|].
    destruct (H2 z Hz) as [Hu Hnot]. split; [done|].
    intros Hs. apply Hnot, elem_of_app. by left.
  - apply NoDup_app. split_and!; [done| |done].
    intros z Hz1 Hz2. destruct (H2 z Hz2) as [_ Hnot]. apply Hnot, elem_of_app. by right.
Qed.

Lemma grows_within_add universe s ref :
  ref ∈ universe → ref ∉ s → grows_within universe s (add s ref).
Proof.
  intros Hu Hs. exists [ref]. rewrite (add_fresh _ _ Hs). split_and!; [done| |].
  - by intros z ->%list_elem_of_singleton.
  - apply NoDup_singleton.
Qed.

Lemma resolveRefs_grows spec universe fuel : ∀ obj seen r s',
  refs_of spec ⊆ universe → refs_of obj ⊆ universe →
  resolveRefs fuel obj spec seen = Some (r, s') → grows_within universe seen s'.
Proof.
  induction fuel as [|fuel IH]; intros obj seen r s' Hspec Hobj; [done|]. simpl.
  destruct obj; try (intros [= _ <-]; apply grows_within_refl).
  - unfold bind, ret.
    destruct (array_map _ items seen) as [[ys s1]|] eqn:E; [|done]. intros [= _ <-].
    eapply (array_map_steps (grows_within universe));
      [apply grows_within_refl|apply grows_within_trans| |exact E].
    intros x s y t Hx. apply IH; [done|]. etrans; [by apply refs_arr_elem|done].
  - destruct (ref_of props) as [ref|] eqn:Href.
    + destruct (has seen ref) eqn:Hhas; [intros [= _ <-]; apply grows_within_refl|].
      apply has_false in Hhas. intros H%IH; [| |].
      * eapply grows_within_trans; [|exact H].
        apply grows_within_add; [|done]. apply Hobj. by apply refs_obj_ref.
      * done.
      * etrans; [apply lookup_path_refs|done].
    + unfold bind, ret.
      destruct (entries_loop _ props [] seen) as [[ys s1]|] eqn:E; [|done]. intros [= _ <-].
      eapply (entries_loop_steps (grows_within universe));
        [apply grows_within_refl|apply grows_within_trans| |exact E].
      intros k x s y t Hx. apply IH; [done|]. etrans; [by eapply refs_obj_elem|done].
Qed.

(** X1. A call of the resolver only appends to [seen]: the set it leaves is
    the set it was given followed by new members, each of them the reference
    string of a marker of the value or of the document and none of them
    in the set before or listed twice. *)
Theorem resolveRefs_seen_growth fuel obj spec seen r seen' :
  resolveRefs fuel obj spec seen = Some (r, seen') →
  ∃ new, seen' = seen ++ new ∧ NoDup new ∧
    ∀ ref, ref ∈ new → (ref ∉ seen) ∧ (ref ∈ refs_of obj ∨ ref ∈ refs_of spec).
Proof.
  intros H.
  destruct (resolveRefs_grows spec (refs_of spec ++ refs_of obj) fuel obj seen r seen')
    as (new & -> & Hnew & Hnd).
  { intros z Hz. apply elem_of_app. by left. }
  { intros z Hz. apply elem_of_app. by right. }
  { done. }
  exists new. split_and!; [done|done|].
  intros ref Href. destruct (Hnew ref Href) as [Hu Hs]. split; [done|].
  apply elem_of_app in Hu. tauto.
Qed.

Lemma resolveRefs_seen_growth_witness :
  ∃ new, ["x"; "#/a"; "#/b"] = ["x"] ++ new ∧ NoDup new ∧
    ∀ ref, ref ∈ new →
      (ref ∉ ["x"]) ∧
      (ref ∈ refs_of (VObj [("$ref", VStr "#/a")]) ∨ ref ∈ refs_of cyclic_doc).
Proof.
  apply (resolveRefs_seen_growth 3 (VObj [("$ref", VStr "#/a")]) cyclic_doc ["x"]
           (circular "#/a") ["x"; "#/a"; "#/b"]).
  reflexivity.
Defined.

(** ** What the resolver returns *)

Lemma typed_refs_arr_elem items x : typed_refs (VArr items) → x ∈ items → typed_refs x.
Proof.
  simpl. intros Ht Hin. induction Hin as [x l|x y l _ IH]; destruct Ht; auto.
Qed.

Lemma typed_refs_obj_elem props k x : typed_refs (VObj props) → (k, x) ∈ props → typed_refs x.
Proof.
  simpl. intros [_ Ht]. induction props as [|[k' y] l IH]; intros Hin.
  - by apply elem_of_nil in Hin.
  - destruct Ht as [Hy Hl]. apply elem_of_cons in Hin as [[= <- <-]|Hin]; auto.
Qed.

Lemma typed_refs_plain props :
  typed_refs (VObj props) → ref_of props = None → "$ref" ∉ keys props.
Proof.
  simpl. unfold ref_of. intros [Ht _] Href. apply own_prop_None.
  destruct (own_prop props "$ref") as [[]|]; done.
Qed.

Lemma typed_refs_get_prop v k : typed_refs v → typed_refs (get_prop v k).
Proof.
  intros Ht. destruct v; simpl; try done.
  - case_decide; [done|]. destruct (array_index k) as [i|]; [|done].
    destruct (nth_N (string_chars s) i) as [x|] eqn:E; [|done].
    apply nth_N_elem, string_chars_scalar in E as [c ->]. done.
  - case_decide; [done|]. destruct (array_index k) as [i|]; [|done].
    destruct (nth_N items i) as [x|] eqn:E; [|done].
    apply nth_N_elem in E. by eapply typed_refs_arr_elem.
  - destruct (own_prop props k) as [x|] eqn:E; [|done].
    apply own_prop_elem in E. by eapply typed_refs_obj_elem.
Qed.

Lemma typed_refs_lookup_path spec parts : typed_refs spec → typed_refs (lookup_path spec parts).
Proof.
  unfold lookup_path. revert spec. induction parts as [|p ps IH]; intros spec Ht; simpl; [done|].
  by apply IH, typed_refs_get_prop.
Qed.

Lemma no_marker_arr_intro items : Forall no_marker items → no_marker (VArr items).
Proof.
  unfold no_marker. simpl. induction 1 as [|x l Hx _ IH]; [done|]. by rewrite Hx, IH.
Qed.

Lemma no_marker_obj_intro props :
  ref_of props = None → Forall (λ kv, no_marker kv.2) props → no_marker (VObj props).
Proof.
  unfold no_marker. simpl. intros -> H. simpl.
  induction H as [|[k x] l Hx _ IH]; [done|]. simpl in Hx. by rewrite Hx, IH.
Qed.

Lemma wf_arr_intro items : Forall wf_value items → wf_value (VArr items).
Proof. simpl. induction 1; [done|]. by split. Qed.

Lemma wf_obj_intro props :
  NoDup (keys props) → Forall (λ kv, wf_value kv.2) props → wf_value (VObj props).
Proof.
  simpl. intros Hnd H. split; [done|]. clear Hnd.
  induction H as [|[k x] l Hx _ IH]; [done|]. by split.
Qed.

Lemma array_map_outputs (P : value → Prop) (f : value → M value) items seen ys s' :
  (∀ x s y t, x ∈ items → f x s = Some (y, t) → P y) →
  array_map f items seen = Some (ys, s') → Forall P ys.
Proof.
  revert seen ys. induction items as [|x xs IH]; intros seen ys Hf; simpl.
  - intros [= <- _]. constructor.
  - unfold bind, ret. destruct (f x seen) as [[y s1]|] eqn:Hy; [|done].
    destruct (array_map f xs s1) as [[ys' s2]|] eqn:Hys; [|done]. intros [= <- <-].
    constructor; [eapply Hf; [left|done]|].
    eapply IH; [|done]. intros x' s y' t Hx'. apply Hf. by right.
Qed.

Lemma set_prop_Forall (Q : string * value → Prop) props k v :
  Forall Q props → Q (k, v) → Forall Q (set_prop props k v).
Proof.
  intros H Hkv. induction H as [|[k' v'] rest Hx Hrest IH]; simpl; [by repeat constructor|].
  case_decide; by constructor.
Qed.

Lemma set_prop_NoDup props k v : NoDup (keys props) → NoDup (keys (set_prop props k v)).
Proof.
  induction props as [|[k' v'] rest IH]; simpl.
  - intros _. rewrite keys_cons. apply NoDup_singleton.
  - rewrite keys_cons, NoDup_cons. intros [Hk Hnd]. case_decide as Hkk.
    + subst. rewrite keys_cons. by apply NoDup_cons.
    + rewrite keys_cons. apply NoDup_cons. split; [|by apply IH].
      rewrite set_prop_keys. intros [->|Hin]; done.
Qed.

Lemma assign_Forall (Q : string * value → Prop) props k v :
  Forall Q props → Q (k, v) → Forall Q (assign props k v).
Proof. intros H Hkv. unfold assign. case_decide; [done|]. by apply set_prop_Forall. Qed.

Lemma assign_NoDup props k v : NoDup (keys props) → NoDup (keys (assign props k v)).
Proof. intros H. unfold assign. case_decide; [done|]. by apply set_prop_NoDup. Qed.

Lemma no_proto_arr_intro items : Forall no_proto_key items → no_proto_key (VArr items).
Proof. simpl. induction 1; [done|]. by split. Qed.

Lemma no_proto_obj_intro props :
  "__proto__" ∉ keys props → Forall (λ kv, no_proto_key kv.2) props →
  no_proto_key (VObj props).
Proof.
  simpl. intros Hk H. split; [done|]. clear Hk.
  induction H as [|[k v] rest Hx Hrest IH]; [done|]. by split.
Qed.

Lemma entries_loop_outputs (P : value → Prop) (f : value → M value) entries result seen r s' :
  (∀ k x s y t, (k, x) ∈ entries → f x s = Some (y, t) → P y) →
  Forall (λ kv, P kv.2) result → NoDup (keys result) →
  entries_loop f entries result seen = Some (r, s') →
  Forall (λ kv, P kv.2) r ∧ NoDup (keys r).
Proof.
  revert result seen. induction entries as [|[k x] rest IH]; intros result seen Hf Hres Hnd; simpl.
  - by intros [= <- _].
  - unfold bind. destruct (f x seen) as [[y s1]|] eqn:Hy; [|done]. intros H.
    eapply IH; [| | |exact H].
    + intros k' x' s y' t Hx'. eapply Hf. by right.
    + apply assign_Forall; [done|]. simpl. eapply Hf; [left|done].
    + by apply assign_NoDup.
Qed.

(** What the resolver returns has distinct property names in every object
    and no property named [__proto__]. *)
Lemma resolveRefs_plain_result spec fuel : ∀ obj seen r s',
  resolveRefs fuel obj spec seen = Some (r, s') → wf_value r ∧ no_proto_key r.
Proof.
  induction fuel as [|fuel IH]; intros obj seen r s'; [done|]. simpl.
  destruct obj; try (intros [= <- _]; by split).
  - unfold bind, ret.
    destruct (array_map _ items seen) as [[ys s1]|] eqn:E; [|done]. intros [= <- _].
    assert (Forall (λ y, wf_value y ∧ no_proto_key y) ys) as Hys.
    { eapply array_map_outputs; [|exact E]. intros x s y t Hx. apply IH. }
    apply Forall_and in Hys as [Hwf Hnp].
    split; [by apply wf_arr_intro|by apply no_proto_arr_intro].
  - destruct (ref_of props) as [ref|] eqn:Href.
    + destruct (has seen ref).
      * intros [= <- _]. split; simpl; (split; [|done]).
        -- rewrite keys_cons. apply NoDup_singleton.
        -- rewrite keys_cons, list_elem_of_singleton. discriminate.
      * apply IH.
    + unfold bind, ret.
      destruct (entries_loop _ props [] seen) as [[ys s1]|] eqn:E; [|done]. intros [= <- _].
      destruct (entries_loop_outputs (λ y, wf_value y ∧ no_proto_key y) _ _ _ _ _ _
                  (λ k x s y t Hx, IH x s y t)
                  (Forall_nil_2 _) (NoDup_nil_2) E) as [Hys Hnd].
      apply Forall_and in Hys as [Hwf Hnp].
      split; [by apply wf_obj_intro|]. apply no_proto_obj_intro; [|done].
      rewrite (entries_loop_keys _ _ _ _ _ _ E).
      intros [Hin|[_ Hne]]; [by apply elem_of_nil in Hin|done].
Qed.

(** Over a typed document, what the resolver returns for a typed value has
    no marker left, and its objects have distinct property names. *)
Lemma resolveRefs_complete spec fuel : typed_refs spec → ∀ obj seen r s',
  typed_refs obj → resolveRefs fuel obj spec seen = Some (r, s') →
  no_marker r ∧ wf_value r.
Proof.
  intros Hspec. induction fuel as [|fuel IH]; intros obj seen r s' Hobj; [done|]. simpl.
  destruct obj; try (intros [= <- _]; by split).
  - unfold bind, ret.
    destruct (array_map _ items seen) as [[ys s1]|] eqn:E; [|done]. intros [= <- _].
    assert (Forall (λ y, no_marker y ∧ wf_value y) ys) as Hys.
    { eapply array_map_outputs; [|exact E]. intros x s y t Hx. apply IH.
      by eapply typed_refs_arr_elem. }
    apply Forall_and in Hys as [Hnm Hwf].
    split; [by apply no_marker_arr_intro|by apply wf_arr_intro].
  - destruct (ref_of props) as [ref|] eqn:Href.
    + destruct (has seen ref).
      * intros [= <- _]. split; [done|]. simpl. split; [|done].
        rewrite keys_cons. apply NoDup_singleton.
      * apply IH. by apply typed_refs_lookup_path.
    + unfold bind, ret.
      destruct (entries_loop _ props [] seen) as [[ys s1]|] eqn:E; [|done]. intros [= <- _].
      destruct (entries_loop_outputs (λ y, no_marker y ∧ wf_value y) _ _ _ _ _ _
                  (λ k x s y t Hx, IH x s y t (typed_refs_obj_elem _ _ _ Hobj Hx))
                  (Forall_nil_2 _) (NoDup_nil_2) E) as [Hys Hnd].
      apply Forall_and in Hys as [Hnm Hwf].
      split; [|by apply wf_obj_intro].
      apply no_marker_obj_intro; [|done].
      unfold ref_of. assert (own_prop ys "$ref" = None) as ->; [|done].
      apply own_prop_None. rewrite (entries_loop_keys _ _ _ _ _ _ E).
      intros [Hin|[Hin _]]; [by apply elem_of_nil in Hin|].
      by apply (typed_refs_plain _ Hobj Href).
Qed.

(** X2. Over a document whose [$ref] properties all hold strings, resolving
    a value of that kind leaves no marker: nowhere in the result is there an
    object whose [$ref] holds a string. *)
Theorem resolveRefs_leaves_no_marker fuel obj spec seen r seen' :
  typed_refs obj → typed_refs spec →
  resolveRefs fuel obj spec seen = Some (r, seen') → no_marker r.
Proof.
  intros Hobj Hspec H. by destruct (resolveRefs_complete spec fuel Hspec obj seen r seen' Hobj H).
Qed.

Lemma resolveRefs_leaves_no_marker_witness :
  no_marker (VObj [("schema", VObj [("type", VStr "string")]);
                   ("items", VArr [circular "#/components/schemas/s"; VNum 1]);
                   ("title", VStr "t")]).
Proof.
  apply (resolveRefs_leaves_no_marker 5 typed_sample small_doc [] _
           ["#/components/schemas/s"]).
  - simpl. tauto.
  - simpl. tauto.
  - reflexivity.
Defined.

(** X3. Over such a document the resolver is idempotent on what it returns:
    resolving the result again, against any document and with any [seen],
    gives the result back and leaves [seen] as it is. *)
Theorem resolveRefs_twice fuel obj spec seen r seen' :
  typed_refs obj → typed_refs spec →
  resolveRefs fuel obj spec seen = Some (r, seen') →
  ∀ fuel2 spec2 seen2, height r ≤ fuel2 → resolveRefs fuel2 r spec2 seen2 = Some (r, seen2).
Proof.
  intros Hobj Hspec H fuel2 spec2 seen2 Hfuel.
  destruct (resolveRefs_complete spec fuel Hspec obj seen r seen' Hobj H) as [Hnm Hwf].
  destruct (resolveRefs_plain_result spec fuel obj seen r seen' H) as [_ Hnp].
  by apply resolveRefs_no_marker.
Qed.

Lemma resolveRefs_twice_witness :
  resolveRefs 3 (VArr [VObj [("type", VStr "string")]; circular "#/components/schemas/s"])
    chain_doc ["#/a"]
  = Some (VArr [VObj [("type", VStr "string")]; circular "#/components/schemas/s"], ["#/a"]).
Proof.
  apply (resolveRefs_twice 4 (VArr [marker_s; marker_s]) small_doc [] _
           ["#/components/schemas/s"]).
  - simpl. tauto.
  - simpl. tauto.
  - reflexivity.
  - simpl. lia.
Defined.

(** Without the typing the result can hold a marker: a [$ref] that holds a
    marker for a string is resolved to that string. *)
Example untyped_ref_becomes_a_marker :
  resolve (VObj [("$ref", VObj [("$ref", VStr "#/b")])]) chain_doc
    = VObj [("$ref", VStr "leaf")].
Proof. reflexivity. Qed.

(** ** Reference strings with and without the prefix *)

(** X4. The segments of a reference string: there is at least one; none
    contains a slash, so a property whose name contains one is never looked
    up; joined by slashes they give back the reference string without its
    first [#/]; a leading [#/] is taken off before the split; and a
    reference string in which [#/] does not occur is split, and so looked
    up, like the same string with [#/] in front. A [#/] further inside is
    taken out when none leads: [a#/b] is looked up as [ab], and [#/a#/b] as
    [a#] then [b]. *)
Theorem ref_parts_segments :
  (∀ ref, ref_parts ref ≠ [])
  ∧ (∀ ref part, part ∈ ref_parts ref → "/"%char ∉ chars part)
  ∧ (∀ ref, String.concat "/" (ref_parts ref) = js_replace "#/" "" ref)
  ∧ (∀ s, ref_parts ("#/" +:+ s) = js_split "/" s)
  ∧ (∀ s spec, contains "#/" s = false →
       ref_parts s = js_split "/" s ∧
       lookup_path spec (ref_parts ("#/" +:+ s)) = lookup_path spec (ref_parts s))
  ∧ ref_parts "a#/b" = ["ab"]
  ∧ ref_parts "#/a#/b" = ["a#"; "b"].
Proof.
  unfold ref_parts. split_and!; [| | | | |reflexivity|reflexivity].
  - intros ref. apply js_split_nonempty.
  - intros ref part Hpart.
    pose proof (js_split_no_sep "/" (js_replace "#/" "" ref)) as H.
    rewrite Forall_forall in H. by apply H.
  - intros ref. apply js_split_concat.
  - intros s. by rewrite js_replace_at_start.
  - intros s spec Hs. by rewrite js_replace_at_start, (js_replace_absent _ _ _ Hs).
Qed.

Lemma ref_parts_segments_witness :
  ref_parts "components/schemas/s" = js_split "/" "components/schemas/s" ∧
  lookup_path small_doc (ref_parts ("#/" +:+ "components/schemas/s"))
    = lookup_path small_doc (ref_parts "components/schemas/s").
Proof.
  apply (proj1 (proj2 (proj2 (proj2 (proj2 ref_parts_segments))))
           "components/schemas/s" small_doc).
  reflexivity.
Defined.

(** ** Paths that start with a placeholder prefix *)

Lemma chars_app a b : chars (a +:+ b) = chars a ++ chars b.
Proof. induction a as [|c a IH]; simpl; [done|]. by rewrite IH. Qed.

Lemma text_chars s : text (chars s) = s.
Proof. apply string_of_list_ascii_of_string. Qed.

Lemma chars_nonempty s : s ≠ "" → chars s ≠ [].
Proof. by destruct s. Qed.

Lemma occurs_at_start root x seg rest :
  x ≠ "" → "}"%char ∉ chars x → seg ≠ "" → "/"%char ∉ chars seg →
  (∀ c rest', rest = String c rest' → c = "/"%char) →
  first_segment root
    (chars (("/" +:+ root +:+ "/{") +:+ x +:+ "}/" +:+ seg +:+ rest)) (chars seg).
Proof.
  intros Hx Hx' Hseg Hseg' Hrest. exists []. split; [|intros; simpl; lia].
  exists (chars x), (chars rest). split_and!; try done; try by apply chars_nonempty.
  - by rewrite app_nil_l, (chars_app ("/" +:+ root +:+ "/{")), (chars_app x),
      (chars_app "}/"), (chars_app seg).
  - intros c rest' Hc. destruct rest as [|c0 rest0]; [done|].
    injection Hc as -> _. by apply (Hrest c rest0).
Qed.

(** X5. A path that starts with [/accounts/{x}/seg] has the product [seg],
    whatever follows the segment; a path that starts with [/zones/{x}/seg]
    has the product [seg] unless the accounts pattern occurs in it. Here
    [x] is not empty and has no closing brace, [seg] is not empty and has no
    slash, and what follows is empty or starts with a slash. *)
Theorem extractProduct_of_prefix x seg rest :
  x ≠ "" → "}"%char ∉ chars x → seg ≠ "" → "/"%char ∉ chars seg →
  (∀ c rest', rest = String c rest' → c = "/"%char) →
  extractProduct ("/accounts/{" +:+ x +:+ "}/" +:+ seg +:+ rest) = Some seg ∧
  (¬ occurs "accounts" (chars ("/zones/{" +:+ x +:+ "}/" +:+ seg +:+ rest)) →
   extractProduct ("/zones/{" +:+ x +:+ "}/" +:+ seg +:+ rest) = Some seg).
Proof.
  intros Hx Hx' Hseg Hseg' Hrest. unfold extractProduct, re_accounts, re_zones. split.
  - pose proof (re_search_first "accounts" _ (chars seg)
                 (occurs_at_start "accounts" x seg rest Hx Hx' Hseg Hseg' Hrest)) as Ha.
    change ("/" +:+ "accounts" +:+ "/{") with "/accounts/{" in Ha.
    rewrite Ha. simpl. by rewrite text_chars.
  - intros Hno. rewrite (re_search_absent _ _ Hno).
    pose proof (re_search_first "zones" _ (chars seg)
                 (occurs_at_start "zones" x seg rest Hx Hx' Hseg Hseg' Hrest)) as Hz.
    change ("/" +:+ "zones" +:+ "/{") with "/zones/{" in Hz.
    rewrite Hz. simpl. by rewrite text_chars.
Qed.

Lemma extractProduct_of_prefix_witness :
  extractProduct ("/accounts/{" +:+ "account_id" +:+ "}/" +:+ "workers" +:+ "/scripts/{name}")
    = Some "workers" ∧
  (¬ occurs "accounts"
       (chars ("/zones/{" +:+ "account_id" +:+ "}/" +:+ "workers" +:+ "/scripts/{name}")) →
   extractProduct ("/zones/{" +:+ "account_id" +:+ "}/" +:+ "workers" +:+ "/scripts/{name}")
     = Some "workers").
Proof.
  apply (extractProduct_of_prefix "account_id" "workers" "/scripts/{name}").
  - discriminate.
  - apply (bool_decide_unpack _). vm_compute. exact I.
  - discriminate.
  - apply (bool_decide_unpack _). vm_compute. exact I.
  - intros c rest' [= <- _]. reflexivity.
Defined.

(** ** The paths of the written document *)

Lemma own_prop_nodup_elem props k v :
  NoDup (keys props) → (k, v) ∈ props → own_prop props k = Some v.
Proof.
  induction props as [|[k' v'] rest IH]; intros Hnd Hin.
  - by apply elem_of_nil in Hin.
  - rewrite keys_cons in Hnd. apply NoDup_cons in Hnd as [Hk Hnd]. simpl.
    apply elem_of_cons in Hin as [[= <- <-]|Hin]; [by rewrite decide_True|].
    rewrite decide_False; [by apply IH|].
    intros ->. apply Hk. unfold keys. apply list_elem_of_fmap. by exists (k, v).
Qed.

Lemma methods_loop_none path pathItem spec record :
  methods_loop HTTP_METHODS path pathItem spec [] = Normal record →
  length record = length (List.filter (present pathItem) HTTP_METHODS).
Proof.
  intros H.
  assert (NoDup (keys [] ++ HTTP_METHODS)) as Hnd
    by (apply (bool_decide_unpack _); vm_compute; exact I).
  destruct (methods_loop_keys _ _ _ _ _ _ Hnd H) as [Hkeys _].
  change (keys [] ++ List.filter (present pathItem) HTTP_METHODS)
    with (List.filter (present pathItem) HTTP_METHODS) in Hkeys.
  rewrite <- Hkeys. unfold keys. by rewrite length_fmap.
Qed.

(** The loop over the paths, on distinct path keys: the path keys written are
    those whose path item is truthy and whose name is not [__proto__], in
    their order, and the operation records written are as many as these path
    items hold operations. *)
Lemma paths_loop_shape entries spec : ∀ paths paths',
  NoDup (keys paths ++ keys entries) →
  paths_loop entries spec paths = Normal paths' →
  keys paths' = keys paths ++ keys (List.filter (λ e, truthy e.2) (written entries)) ∧
  sum_list_with (λ kv, length (entries_of kv.2)) paths' =
    sum_list_with (λ kv, length (entries_of kv.2)) paths +
    sum_list_with path_operations (written entries).
Proof.
  induction entries as [|[path item] rest IH]; intros paths paths' Hnd; cbn [paths_loop].
  - intros [= <-]. simpl. by rewrite app_nil_r, Nat.add_0_r.
  - rewrite keys_cons in Hnd. pose proof Hnd as Hnd0.
    apply NoDup_app in Hnd0 as (Hpaths & Hdisj & [Hfresh Hrest]%NoDup_cons).
    assert (NoDup (keys paths ++ keys rest)) as Hnd'.
    { apply NoDup_app. split_and!; [done| |done].
      intros k Hk Hin. apply (Hdisj _ Hk). by right. }
    destruct (decide (path = "__proto__")) as [->|Hplain].
    + rewrite written_cons_proto.
      destruct (truthy item); [|by apply IH].
      destruct (methods_loop HTTP_METHODS "__proto__" item spec []) as [record|]; [|done].
      cbn [cbind]. rewrite assign_proto. by apply IH.
    + rewrite written_cons_plain by done.
      cbn [List.filter sum_list_with snd]. unfold path_operations at 1. cbn [snd].
      destruct (truthy item) eqn:Hitem.
      * destruct (methods_loop HTTP_METHODS path item spec []) as [record|] eqn:Hm; [|done].
        cbn [cbind]. intros Hloop.
        assert (path ∉ keys paths) as Hnew by (intros Hin; apply (Hdisj _ Hin); left).
        rewrite assign_plain, set_prop_fresh in Hloop by done.
        destruct (IH (paths ++ [(path, VObj record)]) paths') as [Hkeys Hsum]; [|done|].
        { rewrite keys_app, <- app_assoc. exact Hnd. }
        split.
        -- by rewrite Hkeys, keys_app, <- app_assoc, keys_cons.
        -- rewrite Hsum, sum_list_with_app.
           change (sum_list_with (λ kv, length (entries_of kv.2)) [(path, VObj record)])
             with (length record + 0).
           rewrite (methods_loop_none _ _ _ _ Hm). lia.
      * intros Hloop. destruct (IH paths paths') as [Hkeys Hsum]; [done|done|].
        split; [done|]. rewrite Hsum. lia.
Qed.

(** X6. Of a document whose [paths] is an object, the written document has
    one record for each path whose path item is truthy and whose name is not
    [__proto__], under the same key and in the same order; falsy path items
    leave no trace, and neither does a path named [__proto__], for which the
    assignment creates no property. A path item that holds none of the five
    methods still gets a record, an empty one. *)
Theorem generateSpecFile_paths spec props out :
  member spec "paths" = Normal (VObj props) → NoDup (keys props) →
  generateSpecFile spec = Normal out →
  ∃ paths',
    out = VObj [("paths", VObj paths')] ∧
    keys paths' =
      keys (List.filter (λ e, truthy e.2 && negb (String.eqb e.1 "__proto__")) props) ∧
    own_prop paths' "__proto__" = None ∧
    ∀ path item,
      (path, item) ∈ props → truthy item = true → path ≠ "__proto__" →
      (∀ m, m ∈ HTTP_METHODS → present item m = false) →
      own_prop paths' path = Some (VObj []).
Proof.
  intros Hpaths Hnd. unfold generateSpecFile. rewrite Hpaths. cbn [cbind truthy entries_of].
  destruct (paths_loop props spec []) as [paths'|] eqn:Hloop; [|done]. cbn [cbind].
  intros [= <-]. exists paths'. split_and!; [done| | |].
  - destruct (paths_loop_shape props spec [] paths' Hnd Hloop) as [-> _].
    change (keys [] ++ ?l) with l. f_equal. unfold written.
    clear. induction props as [|[k v] rest IH]; [done|]. cbn [List.filter fst snd].
    destruct (String.eqb_spec k "__proto__") as [->|Hne].
    + rewrite bool_decide_true by done. cbn [negb]. by rewrite andb_false_r.
    + rewrite bool_decide_false by done. cbn [negb List.filter snd]. rewrite andb_true_r.
      destruct (truthy v); [by f_equal|done].
  - by rewrite (paths_loop_proto _ _ _ _ Hloop).
  - intros path item Hin Hitem Hplain Hnone.
    destruct (paths_loop_entry _ _ _ _ _ _ Hnd Hloop Hin Hitem Hplain) as (record & Hrec & Hm).
    rewrite Hrec. do 2 f_equal.
    apply methods_loop_none in Hm. apply length_zero_iff_nil. rewrite Hm.
    destruct (List.filter (present item) HTTP_METHODS) as [|m l] eqn:E; [done|]. exfalso.
    assert (In m (List.filter (present item) HTTP_METHODS)) as Hm' by (rewrite E; left; done).
    apply filter_In in Hm' as [Hin' Hp]. apply list_elem_of_In in Hin'.
    rewrite (Hnone m Hin') in Hp. done.
Qed.

Lemma generateSpecFile_paths_witness :
  ∃ paths',
    mixed_written = VObj [("paths", VObj paths')] ∧
    keys paths' =
      keys (List.filter (λ e, truthy e.2 && negb (String.eqb e.1 "__proto__"))
              (entries_of (get_prop mixed_doc "paths"))) ∧
    own_prop paths' "__proto__" = None ∧
    ∀ path item,
      (path, item) ∈ entries_of (get_prop mixed_doc "paths") → truthy item = true →
      path ≠ "__proto__" →
      (∀ m, m ∈ HTTP_METHODS → present item m = false) →
      own_prop paths' path = Some (VObj []).
Proof.
  apply (generateSpecFile_paths mixed_doc (entries_of (get_prop mixed_doc "paths"))).
  - reflexivity.
  - apply (bool_decide_unpack _). vm_compute. exact I.
  - reflexivity.
Defined.

(** ** The endpoint count against the written document *)

Lemma count_methods_spec pathItem methods n :
  count_methods pathItem methods n = n + length (List.filter (present pathItem) methods).
Proof.
  revert n. induction methods as [|m rest IH]; intros n; simpl; [lia|].
  rewrite IH. unfold present at 2. destruct (truthy (get_prop pathItem m)); simpl; lia.
Qed.

Lemma count_endpoints_spec paths pathKeys n :
  count_endpoints paths pathKeys n =
    n + sum_list_with (λ path, path_operations (path, get_prop paths path)) pathKeys.
Proof.
  revert n. induction pathKeys as [|path rest IH]; intros n; cbn [count_endpoints].
  - simpl. lia.
  - cbn [sum_list_with]. unfold path_operations at 1. cbn [snd].
    destruct (truthy (get_prop paths path)).
    + rewrite IH, count_methods_spec. lia.
    + rewrite IH. lia.
Qed.

Lemma sum_list_with_keys (g : string → nat) (h : string * value → nat) props :
  (∀ e, e ∈ props → g e.1 = h e) → sum_list_with g (keys props) = sum_list_with h props.
Proof.
  induction props as [|[k v] rest IH]; intros Hgh; [done|].
  rewrite keys_cons. cbn [sum_list_with]. rewrite <- (Hgh (k, v)) by left.
  rewrite IH; [done|]. intros e He. apply Hgh. by right.
Qed.

Lemma sum_written (h : string * value → nat) props :
  NoDup (keys props) →
  sum_list_with h props =
    sum_list_with h (written props) +
    match own_prop props "__proto__" with Some item => h ("__proto__", item) | None => 0 end.
Proof.
  induction props as [|[k v] rest IH]; [done|].
  rewrite keys_cons, NoDup_cons. intros [Hk Hnd]. cbn [sum_list_with own_prop].
  destruct (decide (k = "__proto__")) as [->|Hne].
  - rewrite written_cons_proto, written_id by done. lia.
  - rewrite written_cons_plain by done. cbn [sum_list_with]. rewrite IH by done. lia.
Qed.

(** X7. The number of endpoints that [main] counts over the sorted path keys
    is the number of operation records in the document that
    [generateSpecFile] writes plus the number of operations of the path
    named [__proto__], if the document has one: [main] counts them and
    [generateSpecFile] writes no record for that path. The keys of [paths]
    are distinct. *)
Theorem endpoint_count_matches spec props out :
  member spec "paths" = Normal (VObj props) → NoDup (keys props) →
  generateSpecFile spec = Normal out →
  endpoint_count (VObj props) (keys props) =
    operations_in out + path_operations ("__proto__", get_prop (VObj props) "__proto__").
Proof.
  intros Hpaths Hnd Hout. unfold endpoint_count. rewrite count_endpoints_spec.
  rewrite (js_sort_perm (keys props)).
  rewrite (sum_list_with_keys _ path_operations).
  - revert Hout. unfold generateSpecFile. rewrite Hpaths. cbn [cbind truthy entries_of].
    destruct (paths_loop props spec []) as [paths'|] eqn:Hloop; [|done]. cbn [cbind].
    intros [= <-]. unfold operations_in.
    change (entries_of (get_prop (VObj [("paths", VObj paths')]) "paths")) with paths'.
    destruct (paths_loop_shape props spec [] paths' Hnd Hloop) as [_ ->].
    rewrite (sum_written path_operations props Hnd). cbn [sum_list_with get_prop].
    by destruct (own_prop props "__proto__").
  - intros [k v] He. cbn [fst]. do 2 f_equal.
    simpl. by rewrite (own_prop_nodup_elem _ _ _ Hnd He).
Qed.

Lemma endpoint_count_matches_witness :
  endpoint_count (VObj (entries_of (get_prop mixed_doc "paths")))
                 (keys (entries_of (get_prop mixed_doc "paths")))
    = operations_in mixed_written +
      path_operations ("__proto__",
                       get_prop (VObj (entries_of (get_prop mixed_doc "paths"))) "__proto__").
Proof.
  apply (endpoint_count_matches mixed_doc (entries_of (get_prop mixed_doc "paths"))).
  - reflexivity.
  - apply (bool_decide_unpack _). vm_compute. exact I.
  - reflexivity.
Defined.

Example endpoint_count_of_mixed_doc :
  endpoint_count (get_prop mixed_doc "paths") (keys (entries_of (get_prop mixed_doc "paths")))
    = 3 ∧ operations_in mixed_written = 2.
Proof. split; reflexivity. Qed.

(** ** When the projector throws *)

Lemma some_tag_matches_app product ts rest :
  some_tag_matches product ((VStr <$> ts) ++ rest) =
    if bool_decide (Exists (λ t, same_ignoring_case t product) ts)
    then Normal true else some_tag_matches product rest.
Proof.
  induction ts as [|t ts IH].
  - by rewrite bool_decide_false by (by intros ?%Exists_nil).
  - change (some_tag_matches product ((VStr <$> t :: ts) ++ rest))
      with (if decide (toLowerCase t = toLowerCase product) then Normal true
            else some_tag_matches product ((VStr <$> ts) ++ rest)).
    case_decide as Ht.
    + by rewrite bool_decide_true by (by left).
    + rewrite IH. apply (f_equal (λ b : bool, if b then _ else _)).
      apply bool_decide_ext. rewrite Exists_cons. unfold same_ignoring_case at 2. tauto.
Qed.

(** X8. What a tag that is no string does. On a path without a product the
    tags are copied as they are, whatever they hold. On a path with a
    product a tag that is no string throws when no tag before it equals the
    product up to case, and is never looked at when one does: the tags are
    then written as they are. Tags that are truthy and neither an array nor
    a string throw on every path. *)
Theorem operation_tags_faults :
  (∀ path op items,
      extractProduct path = None → get_prop op "tags" = VArr items →
      operation_tags path op = Normal items)
  ∧ (∀ path op p ts bad rest,
      extractProduct path = Some p →
      get_prop op "tags" = VArr ((VStr <$> ts) ++ bad :: rest) →
      (∀ s, bad ≠ VStr s) → (∀ t, t ∈ ts → ¬ same_ignoring_case t p) →
      operation_tags path op = TypeError)
  ∧ (∀ path op p ts t rest,
      extractProduct path = Some p →
      get_prop op "tags" = VArr ((VStr <$> ts) ++ VStr t :: rest) →
      same_ignoring_case t p →
      operation_tags path op = Normal ((VStr <$> ts) ++ VStr t :: rest))
  ∧ (∀ path op,
      truthy (get_prop op "tags") = true →
      (∀ items, get_prop op "tags" ≠ VArr items) → (∀ s, get_prop op "tags" ≠ VStr s) →
      operation_tags path op = TypeError).
Proof.
  unfold operation_tags. split_and!.
  - intros path op items -> ->. done.
  - intros path op p ts bad rest Hp -> Hbad Hts.
    rewrite Hp, (extractProduct_truthy _ _ Hp). cbn [truthy spread cbind].
    rewrite some_tag_matches_app.
    rewrite bool_decide_false.
    + destruct bad; try done. by destruct (Hbad s).
    + intros (t & Ht & Hsame)%Exists_exists. by apply (Hts t).
  - intros path op p ts t rest Hp -> Hsame.
    rewrite Hp, (extractProduct_truthy _ _ Hp). cbn [truthy spread cbind].
    rewrite some_tag_matches_app.
    case_bool_decide; [done|]. cbn [some_tag_matches to_lower cbind].
    unfold same_ignoring_case in Hsame. by rewrite decide_True.
  - intros path op Htruthy Harr Hstr. rewrite Htruthy.
    destruct (get_prop op "tags") as [| | | | s|items|]; try done.
    + by destruct (Hstr s).
    + by destruct (Harr items).
Qed.

Lemma operation_tags_faults_witness :
  operation_tags "/zones/{zone_id}/dns_records" bad_tags_op = TypeError ∧
  operation_tags "/user/tokens" bad_tags_op = Normal [VStr "Beta"; VNum 7; VStr "x"].
Proof.
  split.
  - apply (proj1 (proj2 operation_tags_faults) "/zones/{zone_id}/dns_records" bad_tags_op
             "dns_records" ["Beta"] (VNum 7) [VStr "x"]).
    + reflexivity.
    + reflexivity.
    + discriminate.
    + intros t ->%list_elem_of_singleton. discriminate.
  - apply (proj1 operation_tags_faults "/user/tokens" bad_tags_op); reflexivity.
Defined.

Lemma operation_entry_fails path op spec :
  operation_entry path op spec = TypeError ↔ operation_tags path op = TypeError.
Proof. unfold operation_entry. by destruct (operation_tags path op). Qed.

Lemma methods_loop_fails methods path pathItem spec record :
  methods_loop methods path pathItem spec record = TypeError ↔
  ∃ m, m ∈ methods ∧ present pathItem m = true ∧
       operation_tags path (get_prop pathItem m) = TypeError.
Proof.
  revert record. induction methods as [|m rest IH]; intros record; cbn [methods_loop].
  - split; [done|]. intros (m & Hm & _). by apply elem_of_nil in Hm.
  - destruct (truthy (get_prop pathItem m)) eqn:Hop.
    + destruct (operation_entry path (get_prop pathItem m) spec) as [entry|] eqn:He;
        cbn [cbind].
      * rewrite IH. split.
        -- intros (m' & Hm' & H). exists m'. split; [by right|done].
        -- intros (m' & [->|Hm']%elem_of_cons & Hp & Ht).
           ++ apply (operation_entry_fails path _ spec) in Ht. congruence.
           ++ by exists m'.
      * split; [|done]. intros _. exists m. split_and!; [left|done|].
        by apply (operation_entry_fails path _ spec).
    + rewrite IH. split.
      * intros (m' & Hm' & H). exists m'. split; [by right|done].
      * intros (m' & [->|Hm']%elem_of_cons & Hp & Ht).
        -- unfold present in Hp. congruence.
        -- by exists m'.
Qed.

Lemma paths_loop_fails entries spec paths :
  paths_loop entries spec paths = TypeError ↔
  ∃ path item, (path, item) ∈ entries ∧ truthy item = true ∧
    methods_loop HTTP_METHODS path item spec [] = TypeError.
Proof.
  revert paths. induction entries as [|[path item] rest IH]; intros paths; cbn [paths_loop].
  - split; [done|]. intros (p & i & Hin & _). by apply elem_of_nil in Hin.
  - destruct (truthy item) eqn:Hitem.
    + destruct (methods_loop HTTP_METHODS path item spec []) as [record|] eqn:Hm; cbn [cbind].
      * rewrite IH. split.
        -- intros (p & i & Hin & H). exists p, i. split; [by right|done].
        -- intros (p & i & [[= -> ->]|Hin]%elem_of_cons & Hi & Hf).
           ++ congruence.
           ++ by exists p, i.
      * split; [|done]. intros _. exists path, item. split; [left|done].
    + rewrite IH. split.
      * intros (p & i & Hin & H). exists p, i. split; [by right|done].
      * intros (p & i & [[= -> ->]|Hin]%elem_of_cons & Hi & Hf).
        -- congruence.
        -- by exists p, i.
Qed.

(** X9. One operation whose tags throw is enough for [generateSpecFile]
    to return nothing: when it returns a document, the tags of every
    operation under one of the five methods of every truthy path item have
    been built without a fault, the path named [__proto__] included. *)
Theorem generateSpecFile_needs_tags spec paths out :
  member spec "paths" = Normal paths → generateSpecFile spec = Normal out →
  ∀ path item m,
    (path, item) ∈ entries_of paths → truthy item = true → m ∈ HTTP_METHODS →
    present item m = true →
    ∃ tags, operation_tags path (get_prop item m) = Normal tags.
Proof.
  intros Hpaths. unfold generateSpecFile. rewrite Hpaths. cbn [cbind].
  assert (entries_of (if truthy paths then paths else VObj []) = entries_of paths) as ->.
  { destruct paths as [| |b|n|s|items|props]; try done.
    - by destruct b.
    - cbn [truthy]. by destruct (n =? 0)%Z.
    - cbn [truthy]. destruct (String.eqb_spec s "") as [->|Hs]; done. }
  destruct (paths_loop (entries_of paths) spec []) as [paths'|] eqn:Hloop; [|done].
  intros _ path item m Hin Hitem Hm Hp.
  destruct (operation_tags path (get_prop item m)) as [tags|] eqn:Ht; [by exists tags|].
  exfalso. assert (paths_loop (entries_of paths) spec [] = TypeError) as Hf; [|congruence].
  apply paths_loop_fails. exists path, item. split_and!; [done|done|].
  apply methods_loop_fails. by exists m.
Qed.

Lemma generateSpecFile_needs_tags_witness :
  ∃ tags, operation_tags "__proto__"
            (get_prop (VObj [("get", VObj [("summary", VStr "Hidden")])]) "get") = Normal tags.
Proof.
  apply (generateSpecFile_needs_tags mixed_doc (get_prop mixed_doc "paths") mixed_written
           eq_refl eq_refl "__proto__" (VObj [("get", VObj [("summary", VStr "Hidden")])]) "get").
  - do 3 right. left.
  - reflexivity.
  - left.
  - reflexivity.
Defined.

(** ** The product list does not depend on the order of the paths *)

Lemma ascii_compare_trans_le a b c :
  Ascii.compare a b ≠ Gt → Ascii.compare b c ≠ Gt → Ascii.compare a c ≠ Gt.
Proof.
  unfold Ascii.compare. rewrite !N.compare_gt_iff. lia.
Qed.

Lemma ascii_compare_Eq_trans a b c :
  Ascii.compare a b ≠ Gt → Ascii.compare b c ≠ Gt → Ascii.compare a c = Eq →
  Ascii.compare a b = Eq ∧ Ascii.compare b c = Eq.
Proof.
  unfold Ascii.compare. rewrite !N.compare_gt_iff, !N.compare_eq_iff.
  intros Hab Hbc Hac. split; lia.
Qed.

Lemma string_leb_trans x y z :
  String.leb x y = true → String.leb y z = true → String.leb x z = true.
Proof.
  unfold String.leb.
  assert (∀ s t, (if String.compare s t is Gt then false else true) = true ↔
                 String.compare s t ≠ Gt) as Hle by (intros s t; by destruct (String.compare s t)).
  rewrite !Hle. clear Hle. revert y z.
  induction x as [|a x IH]; intros [|b y] [|c z]; cbn [String.compare]; try done.
  destruct (Ascii.compare a b) eqn:Hab; [| |done];
    destruct (Ascii.compare b c) eqn:Hbc; try done; intros Hxy Hyz.
  - apply Ascii.compare_eq_iff in Hab as ->. rewrite Hbc. by apply (IH y).
  - apply Ascii.compare_eq_iff in Hab as ->. by rewrite Hbc.
  - apply Ascii.compare_eq_iff in Hbc as <-. by rewrite Hab.
  - destruct (Ascii.compare a c) eqn:Hac; [|done|].
    + destruct (ascii_compare_Eq_trans a b c) as [? ?]; congruence.
    + destruct (ascii_compare_trans_le a b c); congruence.
Qed.

Lemma js_sort_order_independent l1 l2 : l1 ≡ₚ l2 → js_sort l1 = js_sort l2.
Proof.
  intros Hperm.
  apply (Sorted_unique (λ a b, String.leb a b = true)
           (Transitive0 := string_leb_trans) (AntiSymm0 := String.leb_antisym)).
  - apply js_sort_sorted.
  - apply js_sort_sorted.
  - by rewrite !js_sort_perm.
Qed.

(** X10. The list written as [PRODUCTS] depends on which paths the document
    has, not on the order in which the document lists them: two key lists
    that are rearrangements of each other give the same product list, in the
    same order. *)
Theorem product_list_order_independent keys1 keys2 :
  keys1 ≡ₚ keys2 → product_list keys1 = product_list keys2.
Proof.
  intros Hperm. unfold product_list. by rewrite (js_sort_order_independent _ _ Hperm).
Qed.

Lemma product_list_order_independent_witness :
  product_list ["/zones/{zone_id}/dns_records"; "/accounts/{account_id}/workers/scripts";
                "/accounts/{account_id}/workers/routes"]
  = product_list ["/accounts/{account_id}/workers/routes"; "/zones/{zone_id}/dns_records";
                  "/accounts/{account_id}/workers/scripts"].
Proof.
  apply product_list_order_independent.
  apply (bool_decide_unpack _). vm_compute. exact I.
Defined.


(** ** [main]: what it needs and what it leaves behind *)

Lemma entries_of_or_empty paths :
  entries_of (if truthy paths then paths else VObj []) = entries_of paths.
Proof.
  destruct paths as [| |b|n|s|items|props]; try done.
  - by destruct b.
  - cbn [truthy]. by destruct (n =? 0)%Z.
  - cbn [truthy]. destruct (String.eqb_spec s "") as [->|Hs]; done.
Qed.

Lemma generateSpecFile_returns_iff spec paths :
  member spec "paths" = Normal paths →
  (∃ out, generateSpecFile spec = Normal out) ↔
  ∀ path item m,
    (path, item) ∈ entries_of paths → truthy item = true → m ∈ HTTP_METHODS →
    present item m = true → operation_tags path (get_prop item m) ≠ TypeError.
Proof.
  intros Hpaths. unfold generateSpecFile. rewrite Hpaths. cbn [cbind].
  rewrite entries_of_or_empty.
  destruct (paths_loop (entries_of paths) spec []) as [paths'|] eqn:Hloop; cbn [cbind].
  - split; [|by eexists]. intros _ path item m Hin Hitem Hm Hp Ht.
    assert (paths_loop (entries_of paths) spec [] = TypeError) as Hf; [|congruence].
    apply paths_loop_fails. exists path, item. split_and!; [done|done|].
    apply methods_loop_fails. by exists m.
  - split; [by intros [? ?]|]. intros Hall. exfalso.
    apply paths_loop_fails in Hloop as (path & item & Hin & Hitem & Hm).
    apply methods_loop_fails in Hm as (m & Hm & Hp & Ht).
    by apply (Hall path item m).
Qed.

Lemma member_Normal v k r :
  member v k = Normal r ↔ v ≠ VUndefined ∧ v ≠ VNull ∧ r = get_prop v k.
Proof.
  destruct v; cbn [member]; split; try (intros [= <-]; done);
    try (intros (? & ? & ->); done); try (intros (? & ? & ?); done); done.
Qed.

Lemma to_primitive_Normal v u : to_primitive v = Normal u ↔ converts v = true.
Proof. unfold to_primitive. destruct u, (converts v); done. Qed.

Lemma version_of_returns_iff spec :
  version_of spec = Normal () ↔
  spec ≠ VUndefined ∧ spec ≠ VNull ∧
  converts (get_prop spec "openapi") = true ∧
  get_prop spec "info" ≠ VUndefined ∧ get_prop spec "info" ≠ VNull ∧
  converts (get_prop (get_prop spec "info") "title") = true ∧
  converts (get_prop (get_prop spec "info") "version") = true.
Proof.
  unfold version_of. split.
  - destruct (member spec "openapi") as [openapi|] eqn:H1; [|done].
    apply member_Normal in H1 as (? & ? & ->). cbn [cbind].
    destruct (to_primitive (get_prop spec "openapi")) as [[]|] eqn:H2; [|done].
    apply to_primitive_Normal in H2. cbn [cbind].
    destruct (member spec "info") as [info|] eqn:H3; [|done].
    apply member_Normal in H3 as (_ & _ & ->). cbn [cbind].
    destruct (member (get_prop spec "info") "title") as [title|] eqn:H4; [|done].
    apply member_Normal in H4 as (? & ? & ->). cbn [cbind].
    destruct (to_primitive (get_prop (get_prop spec "info") "title")) as [[]|] eqn:H5; [|done].
    apply to_primitive_Normal in H5. cbn [cbind].
    destruct (member (get_prop spec "info") "version") as [version|] eqn:H6; [|done].
    apply member_Normal in H6 as (_ & _ & ->). cbn [cbind].
    intros H7%to_primitive_Normal. done.
  - intros (Hs1 & Hs2 & Ho & Hi1 & Hi2 & Ht & Hv).
    rewrite (proj2 (member_Normal spec "openapi" _) (conj Hs1 (conj Hs2 eq_refl))). cbn [cbind].
    rewrite (proj2 (to_primitive_Normal _ ()) Ho). cbn [cbind].
    rewrite (proj2 (member_Normal spec "info" _) (conj Hs1 (conj Hs2 eq_refl))). cbn [cbind].
    rewrite (proj2 (member_Normal _ "title" _) (conj Hi1 (conj Hi2 eq_refl))). cbn [cbind].
    rewrite (proj2 (to_primitive_Normal _ ()) Ht). cbn [cbind].
    rewrite (proj2 (member_Normal _ "version" _) (conj Hi1 (conj Hi2 eq_refl))). cbn [cbind].
    by apply to_primitive_Normal.
Qed.

Lemma path_keys_Normal spec ks :
  path_keys spec = Normal ks ↔
  spec ≠ VUndefined ∧ spec ≠ VNull ∧
  get_prop spec "paths" ≠ VUndefined ∧ get_prop spec "paths" ≠ VNull ∧
  ks = keys (entries_of (get_prop spec "paths")).
Proof.
  unfold path_keys. split.
  - destruct (member spec "paths") as [paths|] eqn:H1; [|done].
    apply member_Normal in H1 as (? & ? & ->). cbn [cbind]. unfold object_keys.
    destruct (get_prop spec "paths"); try done; by intros [= <-].
  - intros (Hs1 & Hs2 & Hp1 & Hp2 & ->).
    rewrite (proj2 (member_Normal spec "paths" _) (conj Hs1 (conj Hs2 eq_refl))). cbn [cbind].
    unfold object_keys. by destruct (get_prop spec "paths").
Qed.

(** The run of [main] on a body that was read, step by step. *)
Lemma main_unfold status spec d :
  main (Response true status (Some spec)) d =
    match path_keys spec, version_of spec with
    | Normal ks, Normal _ =>
        if mkdir_ok d then
          match generateSpecFile spec with
          | Normal out =>
              if spec_ok d then
                ([Mkdir "src/data"; WriteFile "src/data/spec.json" (SpecJson out);
                  WriteFile "src/data/products.ts" (ProductsTs (product_list ks))],
                 if products_ok d then None else Some Rejection)
              else ([Mkdir "src/data"; WriteFile "src/data/spec.json" (SpecJson out)],
                    Some Rejection)
          | TypeError => ([Mkdir "src/data"], Some TypeErrorThrown)
          end
        else ([Mkdir "src/data"], Some Rejection)
    | _, _ => ([], Some TypeErrorThrown)
    end.
Proof.
  cbn [main negb]. unfold evaluate, await_call.
  destruct (path_keys spec) as [ks|]; [|done].
  destruct (version_of spec) as [[]|]; [|done].
  destruct (mkdir_ok d); [|done].
  destruct (generateSpecFile spec) as [out|]; [|done].
  destruct (spec_ok d); [|done].
  by destruct (products_ok d).
Qed.


(** X11. What [main] needs in order to return. It returns without throwing
    only if the response is [ok], its body is read as a document that is
    neither [null] nor [undefined], [paths] and [info] of the document are
    neither, [openapi], [info.title] and [info.version] can be turned into
    strings, no operation under one of the five methods of a truthy path
    item has tags that throw, and the three file-system calls are fulfilled.
    The version string is built and never used, yet a document without
    [info] stops the script. *)
Theorem main_completes_only_if r d :
  (main r d).2 = None →
  ∃ status spec,
    r = Response true status (Some spec) ∧
    spec ≠ VUndefined ∧ spec ≠ VNull ∧
    get_prop spec "paths" ≠ VUndefined ∧ get_prop spec "paths" ≠ VNull ∧
    converts (get_prop spec "openapi") = true ∧
    get_prop spec "info" ≠ VUndefined ∧ get_prop spec "info" ≠ VNull ∧
    converts (get_prop (get_prop spec "info") "title") = true ∧
    converts (get_prop (get_prop spec "info") "version") = true ∧
    (∀ path item m,
        (path, item) ∈ entries_of (get_prop spec "paths") → truthy item = true →
        m ∈ HTTP_METHODS → present item m = true →
        operation_tags path (get_prop item m) ≠ TypeError) ∧
    mkdir_ok d = true ∧ spec_ok d = true ∧ products_ok d = true.
Proof.
  destruct r as [|[] status [spec|]]; try done. rewrite main_unfold.
  destruct (path_keys spec) as [ks|] eqn:Hkeys; [|done].
  destruct (version_of spec) as [[]|] eqn:Hversion; [|done].
  destruct (mkdir_ok d) eqn:Hmkdir; [|done].
  destruct (generateSpecFile spec) as [out|] eqn:Hgen; [|done].
  destruct (spec_ok d) eqn:Hspec; [|done].
  destruct (products_ok d) eqn:Hproducts; [|done]. intros _.
  apply path_keys_Normal in Hkeys as (Hs1 & Hs2 & Hp1 & Hp2 & _).
  apply version_of_returns_iff in Hversion as (_ & _ & Ho & Hi1 & Hi2 & Ht & Hv).
  exists status, spec. split_and!; try done.
  apply (generateSpecFile_returns_iff spec).
  - apply member_Normal. by split_and!.
  - by exists out.
Qed.

Lemma main_completes_only_if_witness :
  ∃ status spec,
    Response true 200 (Some accepted_doc) = Response true status (Some spec) ∧
    spec ≠ VUndefined ∧ spec ≠ VNull ∧
    get_prop spec "paths" ≠ VUndefined ∧ get_prop spec "paths" ≠ VNull ∧
    converts (get_prop spec "openapi") = true ∧
    get_prop spec "info" ≠ VUndefined ∧ get_prop spec "info" ≠ VNull ∧
    converts (get_prop (get_prop spec "info") "title") = true ∧
    converts (get_prop (get_prop spec "info") "version") = true ∧
    (∀ path item m,
        (path, item) ∈ entries_of (get_prop spec "paths") → truthy item = true →
        m ∈ HTTP_METHODS → present item m = true →
        operation_tags path (get_prop item m) ≠ TypeError) ∧
    mkdir_ok all_fulfilled = true ∧ spec_ok all_fulfilled = true ∧
    products_ok all_fulfilled = true.
Proof.
  apply (main_completes_only_if (Response true 200 (Some accepted_doc)) all_fulfilled).
  reflexivity.
Defined.

(** X12. No file is written from a document that does not project as a
    whole. Whenever [main] calls [writeFile], the response was [ok], the
    output directory was created first, and [generateSpecFile] returned on
    the whole document; the file is [spec.json] with that result or
    [products.ts] with the product list of the keys of [paths], and
    [products.ts] is written only after [spec.json] was written. *)
Theorem main_writes r d file content :
  WriteFile file content ∈ (main r d).1 →
  ∃ status spec out products,
    r = Response true status (Some spec) ∧
    generateSpecFile spec = Normal out ∧ main_products spec = Normal products ∧
    mkdir_ok d = true ∧ head (main r d).1 = Some (Mkdir "src/data") ∧
    ((file = "src/data/spec.json" ∧ content = SpecJson out) ∨
     (file = "src/data/products.ts" ∧ content = ProductsTs products ∧ spec_ok d = true ∧
      (main r d).1 = [Mkdir "src/data"; WriteFile "src/data/spec.json" (SpecJson out);
                      WriteFile "src/data/products.ts" (ProductsTs products)])).
Proof.
  destruct r as [|[] status [spec|]]; try (by intros ?%elem_of_nil). rewrite main_unfold.
  assert (∀ ks, path_keys spec = Normal ks → main_products spec = Normal (product_list ks))
    as Hproducts.
  { intros ks. unfold path_keys, main_products.
    destruct (member spec "paths") as [paths|]; [|done]. cbn [cbind].
    by destruct (object_keys paths); [intros [= ->]|]. }
  destruct (path_keys spec) as [ks|] eqn:Hkeys; [|by intros ?%elem_of_nil].
  specialize (Hproducts ks eq_refl).
  destruct (version_of spec) as [[]|]; [|by intros ?%elem_of_nil].
  destruct (mkdir_ok d) eqn:Hmkdir.
  2:{ intros [=]%list_elem_of_singleton. }
  destruct (generateSpecFile spec) as [out|] eqn:Hgen.
  2:{ intros [=]%list_elem_of_singleton. }
  destruct (spec_ok d) eqn:Hspec; cbn [fst].
  - intros [[=]|[[= -> ->]|[= -> ->]%list_elem_of_singleton]%elem_of_cons]%elem_of_cons;
      exists status, spec, out, (product_list ks); split_and!; try done.
    + by left.
    + right. by split_and!.
  - intros [[=]|[= -> ->]%list_elem_of_singleton]%elem_of_cons.
    exists status, spec, out, (product_list ks). split_and!; try done. by left.
Qed.

Lemma main_writes_witness :
  ∃ status spec out products,
    Response true 200 (Some accepted_doc) = Response true status (Some spec) ∧
    generateSpecFile spec = Normal out ∧ main_products spec = Normal products ∧
    mkdir_ok all_fulfilled = true ∧
    head (main (Response true 200 (Some accepted_doc)) all_fulfilled).1
      = Some (Mkdir "src/data") ∧
    (("src/data/products.ts" = "src/data/spec.json" ∧
      ProductsTs ["dns_records"] = SpecJson out) ∨
     ("src/data/products.ts" = "src/data/products.ts" ∧
      ProductsTs ["dns_records"] = ProductsTs products ∧ spec_ok all_fulfilled = true ∧
      (main (Response true 200 (Some accepted_doc)) all_fulfilled).1
        = [Mkdir "src/data"; WriteFile "src/data/spec.json" (SpecJson out);
           WriteFile "src/data/products.ts" (ProductsTs products)])).
Proof.
  apply (main_writes (Response true 200 (Some accepted_doc)) all_fulfilled
           "src/data/products.ts" (ProductsTs ["dns_records"])).
  vm_compute. do 2 right. left.
Defined.

(** X13. What a bad document leaves behind. A document whose [paths] or
    [info] is [null] or missing makes [main] throw before any file-system
    call, although [generateSpecFile] by itself takes a document without
    [paths] and writes an empty [paths] for it. A document that passes those
    two checks and holds an operation whose tags throw leaves the output
    directory created and no file written. *)
Theorem main_bad_document status spec d :
  ((get_prop spec "paths" = VUndefined ∨ get_prop spec "paths" = VNull ∨
    get_prop spec "info" = VUndefined ∨ get_prop spec "info" = VNull) →
   main (Response true status (Some spec)) d = ([], Some TypeErrorThrown))
  ∧ (spec ≠ VUndefined → spec ≠ VNull → get_prop spec "paths" = VUndefined →
     generateSpecFile spec = Normal (VObj [("paths", VObj [])]))
  ∧ (∀ ks, path_keys spec = Normal ks → version_of spec = Normal () →
     generateSpecFile spec = TypeError →
     (main (Response true status (Some spec)) d).1 = [Mkdir "src/data"] ∧
     (main (Response true status (Some spec)) d).2 ≠ None).
Proof.
  split_and!.
  - intros Hbad. rewrite main_unfold.
    destruct (path_keys spec) as [ks|] eqn:Hkeys; [|done].
    destruct (version_of spec) as [[]|] eqn:Hversion; [|done]. exfalso.
    apply path_keys_Normal in Hkeys as (_ & _ & Hp1 & Hp2 & _).
    apply version_of_returns_iff in Hversion as (_ & _ & _ & Hi1 & Hi2 & _).
    tauto.
  - intros Hs1 Hs2 Hpaths. unfold generateSpecFile.
    rewrite (proj2 (member_Normal spec "paths" _) (conj Hs1 (conj Hs2 eq_refl))), Hpaths.
    done.
  - intros ks Hkeys Hversion Hgen. rewrite main_unfold, Hkeys, Hversion, Hgen.
    by destruct (mkdir_ok d).
Qed.

Lemma main_bad_document_witness :
  main (Response true 200 (Some no_info_doc)) all_fulfilled = ([], Some TypeErrorThrown).
Proof.
  apply (proj1 (main_bad_document 200 no_info_doc all_fulfilled)).
  right. right. left. reflexivity.
Defined.


(** ** No reference is left in what is written *)

Lemma resolve_no_marker obj spec :
  typed_refs spec → typed_refs obj → no_marker (resolve obj spec).
Proof.
  intros Hspec Hobj. destruct (resolve_spec obj spec) as [seen' Hrun].
  by apply (resolveRefs_complete spec _ Hspec obj [] _ seen' Hobj (Hrun _ (le_n _))).
Qed.

Lemma typed_refs_entries v k x : typed_refs v → (k, x) ∈ entries_of v → typed_refs x.
Proof.
  intros Ht. destruct v as [| | | |s|items|props]; cbn [entries_of];
    try (by intros ?%elem_of_nil).
  - intros (i & y & [= -> ->] & Hi)%elem_of_lookup_imap.
    unfold string_chars in Hi. apply list_lookup_fmap_Some in Hi as (c & -> & _). done.
  - intros (i & y & [= -> ->] & Hi)%elem_of_lookup_imap.
    by apply (typed_refs_arr_elem items), list_elem_of_lookup_2 with i.
  - by apply typed_refs_obj_elem.
Qed.

Lemma resolved_fields_undefined : resolved_fields VUndefined.
Proof. by intros field _. Qed.

Lemma resolved_fields_lookup record m :
  Forall (λ kv, resolved_fields kv.2) record → resolved_fields (get_prop (VObj record) m).
Proof.
  intros Hall. cbn [get_prop]. destruct (own_prop record m) as [e|] eqn:He; cbn [default].
  - apply own_prop_elem in He. by apply (proj1 (Forall_forall _ _) Hall (m, e)).
  - apply resolved_fields_undefined.
Qed.

Lemma operation_entry_resolved path op spec entry :
  typed_refs spec → typed_refs op →
  operation_entry path op spec = Normal entry → resolved_fields entry.
Proof.
  intros Hspec Hop. unfold operation_entry.
  destruct (operation_tags path op) as [tags|]; [|done]. cbn [cbind]. intros [= <-] field.
  rewrite !elem_of_cons, elem_of_nil.
  intros [->|[->|[->|[]]]].
  - change (no_marker (resolve (get_prop op "parameters") spec)).
    by apply resolve_no_marker, typed_refs_get_prop.
  - change (no_marker (resolve (get_prop op "requestBody") spec)).
    by apply resolve_no_marker, typed_refs_get_prop.
  - change (no_marker (resolve (get_prop op "responses") spec)).
    by apply resolve_no_marker, typed_refs_get_prop.
Qed.

Lemma methods_loop_resolved methods path pathItem spec : ∀ record record',
  typed_refs spec → typed_refs pathItem →
  Forall (λ kv, resolved_fields kv.2) record →
  methods_loop methods path pathItem spec record = Normal record' →
  Forall (λ kv, resolved_fields kv.2) record'.
Proof.
  induction methods as [|m rest IH]; intros record record' Hspec Hitem Hall;
    cbn [methods_loop]; [by intros [= <-]|].
  destruct (truthy (get_prop pathItem m)); [|by apply IH].
  destruct (operation_entry path (get_prop pathItem m) spec) as [entry|] eqn:He; [|done].
  cbn [cbind]. apply IH; [done|done|]. apply set_prop_Forall; [done|].
  change (resolved_fields entry).
  apply (operation_entry_resolved path (get_prop pathItem m) spec); [done| |done].
  by apply typed_refs_get_prop.
Qed.

Lemma paths_loop_resolved entries spec : ∀ paths paths',
  typed_refs spec → (∀ k x, (k, x) ∈ entries → typed_refs x) →
  Forall (λ kv, ∀ m, resolved_fields (get_prop kv.2 m)) paths →
  paths_loop entries spec paths = Normal paths' →
  Forall (λ kv, ∀ m, resolved_fields (get_prop kv.2 m)) paths'.
Proof.
  induction entries as [|[path item] rest IH]; intros paths paths' Hspec Hitems Hall;
    cbn [paths_loop]; [by intros [= <-]|].
  assert (∀ k x, (k, x) ∈ rest → typed_refs x) as Hrest
    by (intros k x Hin; apply (Hitems k x); by right).
  destruct (truthy item); [|by apply IH].
  destruct (methods_loop HTTP_METHODS path item spec []) as [record|] eqn:Hm; [|done].
  cbn [cbind]. apply IH; [done|done|]. apply assign_Forall; [done|].
  intros m. change (resolved_fields (get_prop (VObj record) m)). apply resolved_fields_lookup.
  apply (methods_loop_resolved HTTP_METHODS path item spec [] record); try done.
  apply (Hitems path item). by left.
Qed.

(** X14. Over a document whose [$ref] properties all hold strings, no
    reference is left in what [generateSpecFile] writes under [parameters],
    [requestBody] and [responses]: whatever path and method one looks up in
    the written document, none of the three fields holds a marker at any
    depth. *)
Theorem generateSpecFile_resolved spec out :
  typed_refs spec → generateSpecFile spec = Normal out →
  ∀ path m, resolved_fields (get_prop (get_prop (get_prop out "paths") path) m).
Proof.
  intros Hspec. unfold generateSpecFile.
  destruct (member spec "paths") as [paths_in|] eqn:Hpaths; [|done]. cbn [cbind].
  apply member_Normal in Hpaths as (_ & _ & ->). rewrite entries_of_or_empty.
  destruct (paths_loop (entries_of (get_prop spec "paths")) spec []) as [paths'|] eqn:Hloop;
    [|done].
  cbn [cbind]. intros [= <-] path m.
  change (get_prop (VObj [("paths", VObj paths')]) "paths") with (VObj paths').
  apply paths_loop_resolved in Hloop; [|done| |by constructor].
  - cbn [get_prop]. destruct (own_prop paths' path) as [record|] eqn:Hrec; cbn [default].
    + apply own_prop_elem in Hrec. apply (proj1 (Forall_forall _ _) Hloop (path, record) Hrec).
    + apply resolved_fields_undefined.
  - intros k x. apply typed_refs_entries. by apply typed_refs_get_prop.
Qed.

Lemma generateSpecFile_resolved_witness :
  no_marker
    (get_prop (get_prop (get_prop (get_prop referring_written "paths")
                           "/zones/{zone_id}/dns_records") "get") "responses").
Proof.
  apply (generateSpecFile_resolved referring_doc referring_written).
  - vm_compute. tauto.
  - reflexivity.
  - do 2 right. left.
Defined.


(** ** Runs of [main] *)

Example main_accepted_run :
  ∃ out, generateSpecFile accepted_doc = Normal out ∧
    main (Response true 200 (Some accepted_doc)) all_fulfilled =
      ([Mkdir "src/data"; WriteFile "src/data/spec.json" (SpecJson out);
        WriteFile "src/data/products.ts" (ProductsTs ["dns_records"])], None).
Proof. eexists. split; reflexivity. Qed.

Example main_fetch_failed d : main (Response false 503 None) d = ([], Some (FetchFailed 503)).
Proof. reflexivity. Qed.

Example main_second_write_rejected :
  ∃ out, generateSpecFile accepted_doc = Normal out ∧
    main (Response true 200 (Some accepted_doc)) (Disk true true false) =
      ([Mkdir "src/data"; WriteFile "src/data/spec.json" (SpecJson out);
        WriteFile "src/data/products.ts" (ProductsTs ["dns_records"])], Some Rejection).
Proof. eexists. split; reflexivity. Qed.

Example main_unconvertible_title d :
  main (Response true 200
          (Some (VObj [("openapi", VStr "3.0.3");
                       ("info", VObj [("title", VObj [("toString", VNum 1)]);
                                      ("version", VStr "4")]);
                       ("paths", VObj [])]))) d
  = ([], Some TypeErrorThrown).
Proof. reflexivity. Qed.


(** ** The resolver, case by case *)

(** X15. References, scalars, arrays and plain objects.
    (1) When the document holds a marker for the place B at the place A and
        a scalar at B, resolving a marker for A from the empty set gives
        that scalar, and leaves A and B in [seen]. The places are given by
        property names without a slash.
    (2) A scalar ([null], [undefined], a boolean, a number, a string) is
        returned as it is.
    (3) An array is resolved to an array of the same length whose element at
        each index is the resolution of the input's element at that index,
        in the state left by the elements before it.
    (4) An object that is no marker is resolved to an object with the
        property names of the input other than [__proto__]; when the names
        are distinct they keep their order, and each holds the resolution
        of the input's value in the state left by the values before it. *)
Theorem resolveRefs_structure :
  (∀ fuel spec placeA placeB recA recB c,
      placeA ≠ [] → Forall (λ seg, "/"%char ∉ chars seg) placeA →
      placeB ≠ [] → Forall (λ seg, "/"%char ∉ chars seg) placeB →
      own_prop recA "$ref" = Some (VStr (pointer placeA)) →
      held_at spec placeA (VObj recB) →
      own_prop recB "$ref" = Some (VStr (pointer placeB)) →
      held_at spec placeB c → is_scalar c = true → 3 ≤ fuel →
      resolveRefs fuel (VObj recA) spec [] = Some (c, [pointer placeA; pointer placeB]))
  ∧ (∀ fuel v spec seen,
      is_scalar v = true → resolveRefs (S fuel) v spec seen = Some (v, seen))
  ∧ (∀ fuel items spec seen r seen',
      resolveRefs fuel (VArr items) spec seen = Some (r, seen') →
      ∃ items', r = VArr items' ∧ length items' = length items ∧
        ∀ i x, items !! i = Some x →
          ∃ y si si', items' !! i = Some y ∧
            resolveRefs fuel (VArr (take i items)) spec seen
              = Some (VArr (take i items'), si) ∧
            resolveRefs fuel x spec si = Some (y, si'))
  ∧ (∀ fuel record spec seen r seen',
      (∀ s, own_prop record "$ref" ≠ Some (VStr s)) →
      resolveRefs fuel (VObj record) spec seen = Some (r, seen') →
      ∃ props', r = VObj props' ∧
        (∀ k, k ∈ keys props' ↔ k ∈ keys record ∧ k ≠ "__proto__") ∧
        (NoDup (keys record) →
           keys props' =
             List.filter (λ k, negb (bool_decide (k = "__proto__"))) (keys record) ∧
           ∀ i k x, record !! i = Some (k, x) →
             ∃ y si si', seen ⊆ si ∧ si' ⊆ seen' ∧
               resolveRefs fuel x spec si = Some (y, si') ∧
               (k ≠ "__proto__" → own_prop props' k = Some y)))
  ∧ resolveRefs 3 (VObj [("$ref", VStr "#/components/schemas/A")])
      (VObj [("components", VObj [("schemas", VObj [
         ("A", VObj [("$ref", VStr "#/components/schemas/B")]);
         ("B", VNum 5)])])]) []
      = Some (VNum 5, ["#/components/schemas/A"; "#/components/schemas/B"]).
Proof.
  split_and!; [| | | |reflexivity].
  - intros fuel spec placeA placeB recA recB c HneA HA HneB HB
      HrA%ref_of_Some HtA%lookup_held HrB%ref_of_Some HtB%lookup_held Hc Hfuel.
    apply (resolveRefs_chain fuel spec recA recB); try done; by rewrite ref_parts_pointer.
  - intros fuel v spec seen. apply resolveRefs_scalar.
  - apply resolveRefs_array_elementwise.
  - intros fuel record spec seen r seen' Hplain. apply resolveRefs_object_valuewise.
    destruct (ref_of record) as [s|] eqn:E; [|done]. apply ref_of_Some in E.
    by destruct (Hplain s).
Qed.

Lemma resolveRefs_structure_witness :
  resolveRefs 3 (VObj [("$ref", VStr "#/a")]) chain_doc []
    = Some (VStr "leaf", [pointer ["a"]; pointer ["b"]]).
Proof.
  apply (proj1 resolveRefs_structure 3 chain_doc ["a"] ["b"]
           [("$ref", VStr "#/a")] [("$ref", VStr "#/b")] (VStr "leaf")).
  - discriminate.
  - repeat constructor; apply (bool_decide_unpack _); vm_compute; exact I.
  - discriminate.
  - repeat constructor; apply (bool_decide_unpack _); vm_compute; exact I.
  - reflexivity.
  - cbn. eexists _, _. split; [done|]. split; [reflexivity|]. done.
  - reflexivity.
  - cbn. eexists _, _. split; [done|]. split; [reflexivity|]. done.
  - reflexivity.
  - lia.
Defined.

(** X16. A mapping is a marker exactly when its own property [$ref] holds a
    string, whatever other properties it has. A marker resolves as the
    mapping that has the [$ref] property alone, so its other properties are
    discarded, and to the placeholder when the reference string is in
    [seen]. A mapping whose [$ref] holds something else is resolved as an
    ordinary mapping: the result is an object that has the property [$ref]
    and the other properties of the input that are not named [__proto__],
    each with the resolution of what the input holds there. *)
Theorem marker_detection :
  (∀ record ref, ref_of record = Some ref ↔ own_prop record "$ref" = Some (VStr ref))
  ∧ (∀ fuel record spec seen ref,
      own_prop record "$ref" = Some (VStr ref) →
      resolveRefs fuel (VObj record) spec seen =
        resolveRefs fuel (VObj [("$ref", VStr ref)]) spec seen ∧
      (ref ∈ seen →
       resolveRefs (S fuel) (VObj record) spec seen
         = Some (VObj [("$circular", VStr ref)], seen)))
  ∧ (∀ fuel record spec seen v r seen',
      own_prop record "$ref" = Some v → (∀ s, v ≠ VStr s) → NoDup (keys record) →
      resolveRefs fuel (VObj record) spec seen = Some (r, seen') →
      ∃ props',
        r = VObj props' ∧
        keys props' = List.filter (λ k, negb (bool_decide (k = "__proto__"))) (keys record) ∧
        "$ref" ∈ keys props' ∧
        ∀ i k x, record !! i = Some (k, x) → k ≠ "__proto__" →
          ∃ y si si', seen ⊆ si ∧ si' ⊆ seen' ∧
            resolveRefs fuel x spec si = Some (y, si') ∧ own_prop props' k = Some y)
  ∧ resolveRefs 2 (VObj [("description", VStr "x"); ("$ref", VStr "#/b")]) chain_doc []
      = Some (VStr "leaf", ["#/b"])
  ∧ resolveRefs 3 (VObj untyped_record) chain_doc []
      = Some (VObj [("$ref", VNum 7); ("schema", VStr "leaf")], ["#/b"]).
Proof.
  split_and!; [| | |reflexivity|reflexivity].
  - apply ref_of_Some.
  - intros fuel record spec seen ref Href%ref_of_Some. split.
    + destruct fuel as [|fuel]; [done|].
      rewrite (resolveRefs_marker _ _ _ _ _ Href).
      by rewrite (resolveRefs_marker _ [("$ref", VStr ref)] _ _ ref).
    + intros Hin. rewrite (resolveRefs_marker _ _ _ _ _ Href).
      apply has_true in Hin. by rewrite Hin.
  - intros fuel record spec seen v r seen' Hv Hns Hnd Hr.
    pose proof (ref_of_not_string _ _ Hv Hns) as Href.
    destruct (resolveRefs_object_valuewise _ _ _ _ _ _ Href Hr) as (props' & -> & Hin & Hshape).
    destruct (Hshape Hnd) as [Hkeys Hvals].
    exists props'. split_and!; [done|done| |].
    + apply Hin. split; [|done]. apply own_prop_elem in Hv.
      apply list_elem_of_fmap. by exists ("$ref", v).
    + intros i k x Hi Hk.
      destruct (Hvals i k x Hi) as (y & si & si' & Hsi & Hsi' & Hy & Hown).
      exists y, si, si'. split_and!; [done|done|done|by apply Hown].
Qed.

Lemma marker_detection_witness :
  ∃ props',
    VObj [("$ref", VNum 7); ("schema", VStr "leaf")] = VObj props' ∧
    keys props' =
      List.filter (λ k, negb (bool_decide (k = "__proto__"))) (keys untyped_record) ∧
    "$ref" ∈ keys props' ∧
    ∀ i k x, untyped_record !! i = Some (k, x) → k ≠ "__proto__" →
      ∃ y si si', [] ⊆ si ∧ si' ⊆ ["#/b"] ∧
        resolveRefs 3 x chain_doc si = Some (y, si') ∧ own_prop props' k = Some y.
Proof.
  apply (proj1 (proj2 (proj2 marker_detection)) 3 untyped_record chain_doc [] (VNum 7)
           _ ["#/b"]).
  - reflexivity.
  - discriminate.
  - apply (bool_decide_unpack _). vm_compute. exact I.
  - reflexivity.
Defined.

(** X17. The methods considered are [get], [post], [put], [patch] and
    [delete], in this order. The record built for a path has as property
    names those of the five methods that hold an operation, in this order:
    no other property name of the path item reaches the record, and each
    property holds the record of its operation. In a path item whose method
    properties hold objects, one of the five methods holds an operation
    exactly when the path item has the property. In the document that is
    written, the record
    of each path that is not named [__proto__] is this one. A path with
    [get] and [options] gets a record with [get] alone. *)
Theorem methods_filtered :
  HTTP_METHODS = ["get"; "post"; "put"; "patch"; "delete"]
  ∧ (∀ path pathItem spec record,
      methods_loop HTTP_METHODS path pathItem spec [] = Normal record →
      keys record = List.filter (present pathItem) HTTP_METHODS ∧
      (∀ m, m ∈ keys record ↔ m ∈ HTTP_METHODS ∧ present pathItem m = true) ∧
      (∀ m entry, (m, entry) ∈ record →
         operation_entry path (get_prop pathItem m) spec = Normal entry))
  ∧ (∀ props m,
      m ∈ HTTP_METHODS →
      (∀ v, own_prop props m = Some v → ∃ o, v = VObj o) →
      (present (VObj props) m = true ↔ m ∈ keys props))
  ∧ (∀ spec props out path pathItem,
      member spec "paths" = Normal (VObj props) → NoDup (keys props) →
      generateSpecFile spec = Normal out →
      (path, pathItem) ∈ props → truthy pathItem = true → path ≠ "__proto__" →
      ∃ record,
        get_prop (get_prop out "paths") path = VObj record ∧
        keys record = List.filter (present pathItem) HTTP_METHODS ∧
        ∀ m entry, (m, entry) ∈ record →
          operation_entry path (get_prop pathItem m) spec = Normal entry)
  ∧ generateSpecFile methods_doc =
      Normal (VObj [("paths", VObj [("/user/tokens",
        VObj [("get", VObj [("summary", VStr "List tokens");
                            ("description", VUndefined);
                            ("tags", VArr []);
                            ("parameters", VUndefined);
                            ("requestBody", VUndefined);
                            ("responses", VUndefined)])])])]).
Proof.
  split_and!; [done| | | |reflexivity].
  - intros path pathItem spec record. apply methods_loop_record.
  - intros props m _. apply present_object.
  - intros spec props out path pathItem Hpaths Hndp. unfold generateSpecFile.
    rewrite Hpaths. simpl.
    destruct (paths_loop props spec []) as [paths|] eqn:Hloop; [|done]. simpl.
    intros [= <-] Hin Hitem Hplain.
    destruct (paths_loop_entry _ _ _ _ _ _ Hndp Hloop Hin Hitem Hplain) as (record & Hrec & Hm).
    exists record. destruct (methods_loop_record _ _ _ _ Hm) as (Hkeys & _ & Hentries).
    split_and!; [|done|done]. simpl. by rewrite Hrec.
Qed.

Lemma methods_filtered_witness :
  keys [("get", VObj [("summary", VStr "List tokens");
                      ("description", VUndefined);
                      ("tags", VArr []);
                      ("parameters", VUndefined);
                      ("requestBody", VUndefined);
                      ("responses", VUndefined)])]
    = List.filter (present tokens_item) HTTP_METHODS ∧
  (∀ m, m ∈ keys [("get", VObj [("summary", VStr "List tokens");
                                ("description", VUndefined);
                                ("tags", VArr []);
                                ("parameters", VUndefined);
                                ("requestBody", VUndefined);
                                ("responses", VUndefined)])]
        ↔ m ∈ HTTP_METHODS ∧ present tokens_item m = true) ∧
  (∀ m entry, (m, entry) ∈ [("get", VObj [("summary", VStr "List tokens");
                                          ("description", VUndefined);
                                          ("tags", VArr []);
                                          ("parameters", VUndefined);
                                          ("requestBody", VUndefined);
                                          ("responses", VUndefined)])] →
     operation_entry "/user/tokens" (get_prop tokens_item m) methods_doc = Normal entry).
Proof.
  apply (proj1 (proj2 methods_filtered) "/user/tokens" tokens_item methods_doc).
  reflexivity.
Defined.

Lemma lookup_path_snoc spec segs seg :
  lookup_path spec (segs ++ [seg]) = get_prop (lookup_path spec segs) seg.
Proof. by rewrite lookup_path_app. Qed.

(** X18. Targets that do not exist. A marker whose reference string is not
    in [seen] and names the place [place], then [name], then [rest],
    resolves to [undefined] and leaves its reference string in [seen], when
    the document holds at [place] an object that has no own property [name]
    and [name] is none of the names that every object inherits, or when it
    holds [null] there. The names are without a slash. *)
Theorem resolveRefs_missing_target :
  (∀ fuel record spec seen place name rest props,
      Forall (λ seg, "/"%char ∉ chars seg) (place ++ name :: rest) →
      own_prop record "$ref" = Some (VStr (pointer (place ++ name :: rest))) →
      pointer (place ++ name :: rest) ∉ seen →
      held_at spec place (VObj props) →
      name ∉ keys props → name ∉ object_prototype_names →
      resolveRefs (S (S fuel)) (VObj record) spec seen
        = Some (VUndefined, seen ++ [pointer (place ++ name :: rest)]))
  ∧ (∀ fuel record spec seen place name rest,
      Forall (λ seg, "/"%char ∉ chars seg) (place ++ name :: rest) →
      own_prop record "$ref" = Some (VStr (pointer (place ++ name :: rest))) →
      pointer (place ++ name :: rest) ∉ seen →
      held_at spec place VNull →
      resolveRefs (S (S fuel)) (VObj record) spec seen
        = Some (VUndefined, seen ++ [pointer (place ++ name :: rest)]))
  ∧ resolveRefs 2 (VObj [("$ref", VStr "#/components/schemas/Zone")]) small_doc []
      = Some (VUndefined, ["#/components/schemas/Zone"]).
Proof.
  assert (∀ fuel record spec seen place name rest,
            Forall (λ seg, "/"%char ∉ chars seg) (place ++ name :: rest) →
            own_prop record "$ref" = Some (VStr (pointer (place ++ name :: rest))) →
            pointer (place ++ name :: rest) ∉ seen →
            get_prop (lookup_path spec place) name = VUndefined →
            resolveRefs (S (S fuel)) (VObj record) spec seen
              = Some (VUndefined, seen ++ [pointer (place ++ name :: rest)])) as Hmiss.
  { intros fuel record spec seen place name rest Hsegs Href%ref_of_Some Hseen Hget.
    rewrite (resolveRefs_marker _ _ _ _ _ Href).
    rewrite (proj2 (has_false _ _) Hseen), (add_fresh _ _ Hseen).
    rewrite ref_parts_pointer by (done || by destruct place).
    rewrite (lookup_path_miss _ _ (S (length place))); [done|].
    rewrite (cons_middle name place rest), app_assoc, take_app_length'
      by (rewrite length_app; simpl; lia).
    by rewrite lookup_path_snoc. }
  split_and!; [| |reflexivity].
  - intros fuel record spec seen place name rest props Hsegs Href Hseen Hplace Hname _.
    apply Hmiss; try done. rewrite (lookup_held _ _ _ Hplace). cbn [get_prop].
    by rewrite (proj2 (own_prop_None _ _) Hname).
  - intros fuel record spec seen place name rest Hsegs Href Hseen Hplace.
    apply Hmiss; try done. by rewrite (lookup_held _ _ _ Hplace).
Qed.

Lemma resolveRefs_missing_target_witness :
  resolveRefs 2 (VObj [("$ref", VStr "#/components/schemas/Zone/properties")]) small_doc []
    = Some (VUndefined, [] ++ [pointer (["components"; "schemas"] ++ "Zone" :: ["properties"])]).
Proof.
  apply (proj1 resolveRefs_missing_target 0
           [("$ref", VStr "#/components/schemas/Zone/properties")] small_doc []
           ["components"; "schemas"] "Zone" ["properties"]
           [("s", VObj [("type", VStr "string")])]).
  - repeat constructor; apply (bool_decide_unpack _); vm_compute; exact I.
  - reflexivity.
  - apply not_elem_of_nil.
  - cbn. eexists _, _. split; [done|]. split; [reflexivity|].
    eexists _, _. split; [done|]. split; [reflexivity|]. done.
  - apply (bool_decide_unpack _). vm_compute. exact I.
  - apply (bool_decide_unpack _). vm_compute. exact I.
Defined.

(** X19. A value with no marker, with distinct property names in every
    object and no property named [__proto__], is returned as it is, and
    [seen] stays as it was; so a second run on the result of the first gives
    the value again. *)
Theorem resolveRefs_idempotent v spec seen fuel :
  wf_value v → no_proto_key v → no_marker v → height v ≤ fuel →
  resolveRefs fuel v spec seen = Some (v, seen) ∧
  (r ←ˢ resolveRefs fuel v spec; resolveRefs fuel r spec) seen = Some (v, seen).
Proof.
  intros Hwf Hnp Hnm Hh.
  pose proof (resolveRefs_no_marker spec fuel v seen Hwf Hnp Hnm Hh) as H.
  split; [done|]. unfold bind. by rewrite H.
Qed.

Lemma resolveRefs_idempotent_witness :
  resolveRefs 3 resolved_sample cyclic_doc ["#/a"] = Some (resolved_sample, ["#/a"]) ∧
  (r ←ˢ resolveRefs 3 resolved_sample cyclic_doc; resolveRefs 3 r cyclic_doc) ["#/a"]
    = Some (resolved_sample, ["#/a"]).
Proof.
  apply (resolveRefs_idempotent resolved_sample cyclic_doc ["#/a"] 3).
  - simpl. split_and!; try done; apply (bool_decide_unpack _); vm_compute; exact I.
  - simpl. split_and!; try done; apply (bool_decide_unpack _); vm_compute; exact I.
  - reflexivity.
  - simpl. lia.
Defined.
